(** * JTLocalize: [localization_utils.py]

    A shallow embedding of [jtlocalize/core/localization_utils.py] and the
    properties its specification states about it.

    Conventions of the model.
    - A Python (unicode) string is a [list ascii]; the patterns of the module
      only distinguish characters of the ASCII range.
    - The [re] module is modelled by a backtracking matcher in
      continuation-passing style over a small pattern syntax: greedy and lazy
      repetition, capture groups, leftmost match, scanning for successive
      non-overlapping matches ([re.findall], [re.sub]).
    - A strings file is its decoded text; of the UTF-16 codec of
      [open_strings_file] the model has the byte order mark that it writes
      when text is appended to a file. A file system is a finite map from
      paths to texts.
    - A dictionary whose content alone matters is a [gmap]; where the
      iteration order matters ([sorted(d.iteritems(), ...)]) the dictionary is
      given by the list of its items in iteration order. *)

From Stdlib Require Import Ascii String List Arith Lia Sorted.
From stdpp Require Import base option list gmap strings.

Set Default Proof Using "Type".

(** ** Strings *)

Abbreviation text := (list ascii).

(** A Python string literal without quote characters. *)
Definition txt (s : string) : text := list_ascii_of_string s.

Definition dq : ascii := "034"%char.   (* double quote *)
Definition sq : ascii := "'"%char.     (* single quote *)
Definition bs : ascii := "\"%char.     (* backslash *)
Definition nl : ascii := "010"%char.   (* newline, \n *)
Definition sp : ascii := " "%char.     (* space *)
Definition semi : ascii := ";"%char.

(** ** Patterns of the [re] module *)

(** One-character tests. *)
Inductive cclass : Type :=
| CChar (c : ascii)            (* a literal character, also an escaped one *)
| CDot (dotall : bool)         (* [.]: not a newline, unless re.DOTALL *)
| CSpace                       (* [\s], no re.UNICODE: [ \t\n\r\f\v] *)
| CSet (cs : list ascii)       (* [[...]] *)
| CNotSet (cs : list ascii).   (* [[^...]] *)

Definition mem_ascii (c : ascii) (cs : list ascii) : bool :=
  existsb (Ascii.eqb c) cs.

Definition is_space (c : ascii) : bool :=
  mem_ascii c [" "; "009"; "010"; "011"; "012"; "013"]%char.

Definition cmatch (cl : cclass) (c : ascii) : bool :=
  match cl with
  | CChar c' => Ascii.eqb c c'
  | CDot dotall => dotall || negb (Ascii.eqb c nl)
  | CSpace => is_space c
  | CSet cs => mem_ascii c cs
  | CNotSet cs => negb (mem_ascii c cs)
  end.

Inductive regex : Type :=
| Eps
| Chr (cl : cclass)
| Cat (r1 r2 : regex)
| Star (greedy : bool) (r : regex)    (* [r*] when greedy, [r*?] when not *)
| Group (n : nat) (r : regex).        (* the n-th capture group *)

Declare Scope regex_scope.
Delimit Scope regex_scope with re.
Bind Scope regex_scope with regex.
Infix "@@" := Cat (at level 60, right associativity) : regex_scope.

(** A literal string. *)
Fixpoint Lit (w : text) : regex :=
  match w with
  | [] => Eps
  | c :: w' => Cat (Chr (CChar c)) (Lit w')
  end.

(** [r+] and [r+?]: one [r], then [r*] or [r*?]. *)
Definition Plus (greedy : bool) (r : regex) : regex := Cat r (Star greedy r).

(** ** The backtracking matcher *)

(** Captures: the most recent binding of a group number comes first. *)
Definition caps : Type := list (nat * text).

Fixpoint get_cap (n : nat) (cs : caps) : option text :=
  match cs with
  | [] => None
  | (i, w) :: cs' => if Nat.eqb i n then Some w else get_cap n cs'
  end.

(** [group(n)] as [re.findall] reports it: the empty string for a group that
    took no part in the match. *)
Definition group (n : nat) (cs : caps) : text := default [] (get_cap n cs).

Section Matcher.
Context {A : Type}.

(** A continuation receives the rest of the subject and the captures. *)
Definition cont : Type := text -> caps -> option A.

(** The repetition loop. An iteration that consumes nothing is not repeated
    (the engine never loops on an empty match). [fuel] bounds the number of
    iterations; the length of the subject plus one is always enough. *)
Fixpoint star_loop (body : cont -> cont) (greedy : bool) (k : cont)
    (fuel : nat) (s : text) (cs : caps) : option A :=
  match fuel with
  | O => None
  | S fuel' =>
      let again : cont := body (fun s' cs' =>
        if length s' <? length s then star_loop body greedy k fuel' s' cs'
        else None) in
      if greedy then
        match again s cs with Some x => Some x | None => k s cs end
      else
        match k s cs with Some x => Some x | None => again s cs end
  end.

Fixpoint m (r : regex) (k : cont) (s : text) (cs : caps) : option A :=
  match r with
  | Eps => k s cs
  | Chr cl =>
      match s with
      | c :: s' => if cmatch cl c then k s' cs else None
      | [] => None
      end
  | Cat r1 r2 => m r1 (m r2 k) s cs
  | Star greedy r1 => star_loop (m r1) greedy k (S (length s)) s cs
  | Group n r1 =>
      m r1 (fun s' cs' => k s' ((n, take (length s - length s') s) :: cs')) s cs
  end.

End Matcher.

(** A match at the start of [s]: the number of characters consumed and the
    captures of the first successful path. *)
Definition match_at (r : regex) (s : text) : option (nat * caps) :=
  m r (fun s' cs' => Some (length s - length s', cs')) s [].

(** A match object: its span in the subject and its captures. *)
Record match_obj : Type := MatchObj {
  m_start : nat;
  m_end : nat;
  m_caps : caps
}.

(** The scan of [re.finditer]: the leftmost match from the current position,
    then on from its end (one character further after an empty match, or
    where nothing matches). *)
Fixpoint scan (fuel : nat) (r : regex) (pos : nat) (s : text) : list match_obj :=
  match fuel with
  | O => []
  | S fuel' =>
      match match_at r s with
      | Some (n, cs) =>
          MatchObj pos (pos + n) cs ::
            match n, s with
            | O, [] => []
            | O, _ :: s' => scan fuel' r (S pos) s'
            | _, _ => scan fuel' r (pos + n) (drop n s)
            end
      | None =>
          match s with
          | [] => []
          | _ :: s' => scan fuel' r (S pos) s'
          end
      end
  end.

Definition finditer (r : regex) (s : text) : list match_obj :=
  scan (S (length s)) r 0 s.

(** ** The patterns of the module *)

Definition quote : cclass := CSet [sq; dq].

(** [JTL_REGEX]: [JTL\(['Q](.+?)['Q],\s*['Q](.+?)['Q]\)], writing Q for the
    double quote; no flag, so [.] stops at a newline. *)
Definition JTL_REGEX : regex :=
  (Lit (txt "JTL(") @@ Chr quote @@ Group 1 (Plus false (Chr (CDot false))) @@
   Chr quote @@ Lit (txt ",") @@ Star true (Chr CSpace) @@
   Chr quote @@ Group 2 (Plus false (Chr (CDot false))) @@
   Chr quote @@ Lit (txt ")"))%re.

(** One section header: [/\*\*\* *[^\n]*? *\*\*\*/\n\n] *)
Definition HEADER_BLOCK : regex :=
  (Lit (txt "/***") @@ Star true (Chr (CChar sp)) @@
   Star false (Chr (CNotSet [nl])) @@ Star true (Chr (CChar sp)) @@
   Lit (txt "***/" ++ [nl; nl]))%re.

(** The comment block: [/\* *[^;]* *\*/\n] *)
Definition COMMENT_BLOCK : regex :=
  (Lit (txt "/*") @@ Star true (Chr (CChar sp)) @@
   Star true (Chr (CNotSet [semi])) @@ Star true (Chr (CChar sp)) @@
   Lit (txt "*/" ++ [nl]))%re.

(** The assignment: [Q(.*?)Q *= *Q(.*?)Q;\s*\n], with re.DOTALL. *)
Definition ASSIGNMENT : regex :=
  (Lit [dq] @@ Group 4 (Star false (Chr (CDot true))) @@ Lit [dq] @@
   Star true (Chr (CChar sp)) @@ Lit (txt "=") @@ Star true (Chr (CChar sp)) @@
   Lit [dq] @@ Group 5 (Star false (Chr (CDot true))) @@ Lit [dq; semi] @@
   Star true (Chr CSpace) @@ Lit [nl])%re.

(** [HEADER_COMMENT_KEY_VALUE_TUPLES_REGEX]: group 1 is any number of section
    headers, each of them group 2; group 3 is the comment block; groups 4 and
    5 are the key and the value of the assignment. It is used with
    [re.MULTILINE | re.DOTALL]; the pattern has no anchor, so only DOTALL
    changes what it matches. *)
Definition HEADER_COMMENT_KEY_VALUE_TUPLES_REGEX : regex :=
  (Group 1 (Star true (Group 2 HEADER_BLOCK)) @@ Group 3 COMMENT_BLOCK @@
   ASSIGNMENT)%re.

(** [/\* (.*?) \*/], no flag: the splitter of the comment block. *)
Definition COMMENT_REGEX : regex :=
  (Lit (txt "/* ") @@ Group 1 (Star false (Chr (CDot false))) @@
   Lit (txt " */"))%re.

(** [([^\\])Q]: a double quote Q and the character before it, when that is
    not a backslash. *)
Definition UNESCAPED_QUOTE_REGEX : regex :=
  (Group 1 (Chr (CNotSet [bs])) @@ Lit [dq])%re.


(** ** [re.findall] and [re.sub] *)

(** [re.sub] reads its replacement as a template: a backslash and a digit
    name a group, [\\] is a backslash, [\n] a newline, and any other escaped
    character that is not a letter stands for itself with its backslash. *)
Inductive titem : Type :=
| TChar (c : ascii)
| TGroup (n : nat).

Definition digit_of (c : ascii) : option nat :=
  let n := nat_of_ascii c in
  if (48 <=? n) && (n <=? 57) then Some (n - 48) else None.

Fixpoint parse_template (t : text) : list titem :=
  match t with
  | [] => []
  | c :: t' =>
      if Ascii.eqb c bs then
        match t' with
        | [] => [TChar bs]
        | d :: t'' =>
            match digit_of d with
            | Some n => TGroup n :: parse_template t''
            | None =>
                if Ascii.eqb d bs then TChar bs :: parse_template t''
                else if Ascii.eqb d "n" then TChar nl :: parse_template t''
                else TChar bs :: TChar d :: parse_template t''
            end
        end
      else TChar c :: parse_template t'
  end.

Definition expand (items : list titem) (cs : caps) : text :=
  concat (map (fun i => match i with TChar c => [c] | TGroup n => group n cs end)
              items).

(** The scan of [re.sub]: the text between matches is copied, each match is
    replaced by the expanded template. (The rule for an empty match is the
    one of [scan]; the pattern of this module never matches the empty
    string.) *)
Fixpoint sub_scan (fuel : nat) (r : regex) (repl : list titem) (s : text) : text :=
  match fuel with
  | O => s
  | S fuel' =>
      match match_at r s, s with
      | Some (_, cs), [] => expand repl cs
      | Some (O, cs), c :: s' => expand repl cs ++ c :: sub_scan fuel' r repl s'
      | Some (n, cs), _ => expand repl cs ++ sub_scan fuel' r repl (drop n s)
      | None, [] => []
      | None, c :: s' => c :: sub_scan fuel' r repl s'
      end
  end.

Definition re_sub (r : regex) (repl : text) (s : text) : text :=
  sub_scan (S (length s)) r (parse_template repl) s.

(** ** String formatting *)

(** [template % args] for templates that use [%s] (and [%%]) only. [None]
    stands for the TypeError or ValueError of a template that does not fit
    its arguments. *)
Fixpoint format (t : text) (args : list text) : option text :=
  match t with
  | [] => match args with [] => Some [] | _ :: _ => None end
  | c :: t' =>
      if Ascii.eqb c "%" then
        match t' with
        | d :: t'' =>
            if Ascii.eqb d "s" then
              match args with
              | a :: args' => (a ++.) <$> format t'' args'
              | [] => None
              end
            else if Ascii.eqb d "%" then ("%"%char ::.) <$> format t'' args
            else None
        | [] => None
        end
      else (c ::.) <$> format t' args
  end.

(** ** Exceptions, files, standard output *)

(** A raised exception: whether its class derives from [Exception] (what
    [except Exception] catches) and what [str(e)] is. *)
Record pyexc : Type := PyExc {
  exc_is_Exception : bool;
  exc_str : text
}.

Inductive outcome (A : Type) : Type :=
| Returned (a : A)
| Raised (e : pyexc).
Arguments Returned {A} a.
Arguments Raised {A} e.

(** A file system: the text of every file that there is. A path that the
    map does not have is a path at which there is no file. The files that
    there are can be opened and read, and those that the module opens as
    UTF-16 decode, in the byte order of the machine; a file that exists and
    cannot be opened or decoded is not in this model. *)
Abbreviation filesystem := (gmap text text).

(** A lower-case hexadecimal digit. *)
Definition hex_digit (n : nat) : ascii :=
  List.nth n (list_ascii_of_string "0123456789abcdef") "0"%char.

(** One character of [repr(s)], between the quote characters [q]. *)
Definition repr_char (q c : ascii) : text :=
  if Ascii.eqb c q || Ascii.eqb c bs then [bs; c]
  else if Ascii.eqb c "009" then [bs; "t"%char]
  else if Ascii.eqb c nl then [bs; "n"%char]
  else if Ascii.eqb c "013" then [bs; "r"%char]
  else
    let n := nat_of_ascii c in
    if (n <? 32) || (127 <=? n)
    then [bs; "x"%char; hex_digit (n / 16); hex_digit (n mod 16)]
    else [c].

(** [repr(s)] of a [str]: between single quotes, or between double quotes
    when [s] has a single quote and no double quote; the quote character and
    the backslash get a backslash, the characters that do not print are
    written as escapes. *)
Definition repr (s : text) : text :=
  let q := if mem_ascii sq s && negb (mem_ascii dq s) then dq else sq in
  q :: flat_map (repr_char q) s ++ [q].

(** The [IOError] of [open] at a path with no file, by its [str]: the error
    number, its text, and the [repr] of the path. *)
Definition IOError (path : text) : pyexc :=
  PyExc true (txt "[Errno 2] No such file or directory: " ++ repr path).

(** [open(path).read()] *)
Definition read_file (fs : filesystem) (path : text) : outcome text :=
  match fs !! path with
  | Some data => Returned data
  | None => Raised (IOError path)
  end.

(** ** The localization entry *)

(** Modelled from the spec: the class [LocalizationEntry] of
    [localization_objects], which this module imports; an entry has
    [comments], a [key] and a [value], and its constructor takes them in
    this order. *)
Record LocalizationEntry : Type := mkLocalizationEntry {
  comments : list text;
  key : text;
  value : text
}.

(** ** The strings-file parser *)

(** One tuple of the parser: (header_comment, comments, key, value). *)
Definition record : Type := (text * list text * text * text)%type.

(** [re.findall(pattern, s)] for the one-group splitter: the list of the
    captured strings. *)
Definition findall1 (r : regex) (s : text) : list text :=
  map (fun mo => group 1 (m_caps mo)) (finditer r s).

(** The body of the loop of the parser: one tuple from the groups of one
    match (group 2 is ignored). *)
Definition record_of_match (mo : match_obj) : record :=
  let header_comment := group 1 (m_caps mo) in
  let raw_comments := group 3 (m_caps mo) in
  let key := group 4 (m_caps mo) in
  let value := group 5 (m_caps mo) in
  let comments := findall1 COMMENT_REGEX raw_comments in
  (header_comment, comments, key, value).

(** [extract_header_comment_key_value_tuples_from_file], on the text that
    [file_descriptor.read()] returns. *)
Definition extract_header_comment_key_value_tuples_from_file
    (file_data : text) : list record :=
  let findall_result := finditer HEADER_COMMENT_KEY_VALUE_TUPLES_REGEX file_data in
  map record_of_match findall_result.

(** ** The dictionary builder *)

Inductive pyvalue : Type :=
| VText (t : text)
| VList (l : list text).

Definition AttributeError (name : text) : pyexc :=
  PyExc true (txt "'LocalizationEntry' object has no attribute '" ++ name ++ txt "'").

Definition TypeError_unhashable : pyexc :=
  PyExc true (txt "unhashable type: 'list'").

(** [entry.__getattribute__(name)] for the data attributes of an entry. *)
Definition getattribute (e : LocalizationEntry) (name : text) : outcome pyvalue :=
  if decide (name = txt "comments") then Returned (VList (comments e))
  else if decide (name = txt "key") then Returned (VText (key e))
  else if decide (name = txt "value") then Returned (VText (value e))
  else Raised (AttributeError name).

Abbreviation localization_dictionary := (gmap text LocalizationEntry).

(** The loop of [__generate_localization_dictionary_from_file] over the
    tuples of the parser; [d\[k\] = entry] needs a hashable [k]. *)
Fixpoint fill_localization_dictionary (localization_entry_attribute_name_for_key : text)
    (header_comment_key_value_tuples : list record)
    (d : localization_dictionary) : outcome localization_dictionary :=
  match header_comment_key_value_tuples with
  | [] => Returned d
  | (header_comment, comments, key, value) :: rest =>
      let localization_entry := mkLocalizationEntry comments key value in
      match getattribute localization_entry localization_entry_attribute_name_for_key with
      | Raised e => Raised e
      | Returned (VList _) => Raised TypeError_unhashable
      | Returned (VText k) =>
          fill_localization_dictionary localization_entry_attribute_name_for_key rest
            (<[k := localization_entry]> d)
      end
  end.

Definition __generate_localization_dictionary_from_file (fs : filesystem)
    (file_path : text) (localization_entry_attribute_name_for_key : text)
    : outcome localization_dictionary :=
  match read_file fs file_path with
  | Raised e => Raised e
  | Returned file_data =>
      fill_localization_dictionary localization_entry_attribute_name_for_key
        (extract_header_comment_key_value_tuples_from_file file_data) ∅
  end.

Definition generate_localization_key_to_entry_dictionary_from_file
    (fs : filesystem) (file_path : text) : outcome localization_dictionary :=
  __generate_localization_dictionary_from_file fs file_path (txt "key").

Definition generate_localization_value_to_entry_dictionary_from_file
    (fs : filesystem) (file_path : text) : outcome localization_dictionary :=
  __generate_localization_dictionary_from_file fs file_path (txt "value").

(** ** The extraction pipeline *)

Abbreviation results_dictionary := (gmap text text).

(** [re.findall(JTL_REGEX, s)]: the (key, comment) pairs. *)
Definition findall_jtl (s : text) : list (text * text) :=
  map (fun mo => (group 1 (m_caps mo), group 2 (m_caps mo))) (finditer JTL_REGEX s).

(** [for result_key, result_comment in result_pairs:
       results_dict\[result_key\] = result_comment] *)
Definition merge_pairs (result_pairs : list (text * text))
    (results_dict : results_dictionary) : results_dictionary :=
  foldl (fun d p => <[p.1 := p.2]> d) results_dict result_pairs.

(** An extract function: what it leaves in the dictionary it was given, and
    the exception it raised, if any. (The dictionary is updated in place, so
    what an extractor wrote before it raised stays written.) *)
Definition extractor : Type :=
  results_dictionary -> text -> results_dictionary * option pyexc.

Definition extract_jtl_string_pairs_from_text_file (fs : filesystem) : extractor :=
  fun results_dict file_path =>
    match read_file fs file_path with
    | Raised e => (results_dict, Some e)
    | Returned data => (merge_pairs (findall_jtl data) results_dict, None)
    end.

(** [os.path.join(root, file_name)] *)
Definition path_join (root file_name : text) : text :=
  match file_name with
  | c :: _ =>
      if Ascii.eqb c "/" then file_name
      else match last root with
           | None => file_name
           | Some e => if Ascii.eqb e "/" then root ++ file_name
                       else root ++ "/"%char :: file_name
           end
  | [] =>
      match last root with
      | None => []
      | Some e => if Ascii.eqb e "/" then root else root ++ ["/"%char]
      end
  end.

(** The state of the walk: the result dictionary and the lines printed. *)
Record walk_state : Type := WalkState {
  result : results_dictionary;
  stdout : list text
}.

(** The inner loop, over the file names of one directory. [Some e] is an
    exception that [except Exception] does not catch: it ends the walk. *)
Fixpoint visit_files (extract_func : extractor) (filter_func : text -> bool)
    (root : text) (filenames : list text) (st : walk_state)
    : walk_state * option pyexc :=
  match filenames with
  | [] => (st, None)
  | file_name :: rest =>
      if filter_func file_name then
        let file_path := path_join root file_name in
        match extract_func (result st) file_path with
        | (d, None) =>
            visit_files extract_func filter_func root rest (WalkState d (stdout st))
        | (d, Some e) =>
            if exc_is_Exception e then
              visit_files extract_func filter_func root rest
                (WalkState d (stdout st ++ [txt "Error in file " ++ file_name; exc_str e]))
            else (WalkState d (stdout st), Some e)
        end
      else visit_files extract_func filter_func root rest st
  end.

(** The outer loop, over the (root, dirnames, filenames) triples that
    [os.walk(directory_path)] yields. *)
Fixpoint visit_directories (extract_func : extractor) (filter_func : text -> bool)
    (walk : list (text * list text * list text)) (st : walk_state)
    : walk_state * option pyexc :=
  match walk with
  | [] => (st, None)
  | (root, dirnames, filenames) :: walk' =>
      match visit_files extract_func filter_func root filenames st with
      | (st', None) => visit_directories extract_func filter_func walk' st'
      | (st', Some e) => (st', Some e)
      end
  end.

(** [extract_string_pairs_in_directory]; [os_walk] stands for
    [os.walk(directory_path)]. The result is what was printed and what the
    call returned or raised. *)
Definition extract_string_pairs_in_directory
    (os_walk : list (text * list text * list text))
    (extract_func : extractor) (filter_func : text -> bool)
    : list text * outcome results_dictionary :=
  match visit_directories extract_func filter_func os_walk (WalkState ∅ []) with
  | (st, None) => (stdout st, Returned (result st))
  | (st, Some e) => (stdout st, Raised e)
  end.

(** ** The serializer *)

(** [re.sub(r'([^\\])Q', '\\1\\Q', entry_key)], Q the double quote: the
    replacement is group 1, a backslash and a double quote. *)
Definition escape_key (entry_key : text) : text :=
  re_sub UNESCAPED_QUOTE_REGEX [bs; "1"%char; bs; dq] entry_key.

(** [write_entry_to_file]: a file descriptor is the text written so far. *)
Definition write_entry_to_file (file_descriptor : text)
    (entry_comment entry_key : text) : option text :=
  let escaped_key := escape_key entry_key in
  line1 ← format (txt "/* %s */" ++ [nl]) [entry_comment];
  line2 ← format ([dq] ++ txt "%s" ++ [dq] ++ txt " = " ++ [dq] ++ txt "%s" ++ [dq; semi; nl])
                 [escaped_key; escaped_key];
  Some ((file_descriptor ++ line1) ++ line2).

(** [write_section_header_to_file] *)
Definition write_section_header_to_file (file_descriptor : text)
    (section_name : text) : option text :=
  line ← format (txt "/*** %s ***/" ++ [nl]) [section_name];
  Some (file_descriptor ++ line).

(** The order of Python strings: by code point, a proper prefix first. *)
Fixpoint text_leb (a b : text) : bool :=
  match a, b with
  | [], _ => true
  | _ :: _, [] => false
  | x :: a', y :: b' =>
      match Ascii.compare x y with
      | Lt => true
      | Eq => text_leb a' b'
      | Gt => false
      end
  end.

(** [sorted(items, key=operator.itemgetter(1))]. Python's sort is stable, and
    a stable sort has one result; it is computed here by insertion from the
    right, an item going before the first one it is not greater than. *)
Fixpoint insert_by_comment (x : text * text) (l : list (text * text))
    : list (text * text) :=
  match l with
  | [] => [x]
  | y :: l' =>
      if text_leb x.2 y.2 then x :: y :: l' else y :: insert_by_comment x l'
  end.

Definition sorted_by_comment (items : list (text * text)) : list (text * text) :=
  foldr insert_by_comment [] items.

(** The loop of [write_dict_to_new_file]: the entry, then an empty line. *)
Fixpoint write_entries (output_file_descriptor : text)
    (items : list (text * text)) : option text :=
  match items with
  | [] => Some output_file_descriptor
  | (entry_key, entry_comment) :: rest =>
      fd ← write_entry_to_file output_file_descriptor entry_comment entry_key;
      write_entries (fd ++ [nl]) rest
  end.

(** [write_dict_to_new_file]; [iteritems] is what
    [localization_key_to_comment.iteritems()] yields, in its order. Mode "w"
    starts from an empty file; the result is the new file system, [None] if
    a write raised. *)
Definition write_dict_to_new_file (fs : filesystem) (file_name : text)
    (iteritems : list (text * text)) : option filesystem :=
  data ← write_entries [] (sorted_by_comment iteritems);
  Some (<[file_name := data]> fs).

(** The loop of [append_dictionary_to_file]: an empty line, then the entry. *)
Fixpoint append_entries (output_file : text)
    (items : list (text * text)) : option text :=
  match items with
  | [] => Some output_file
  | (entry_key, entry_comment) :: rest =>
      fd ← write_entry_to_file (output_file ++ [nl]) entry_comment entry_key;
      append_entries fd rest
  end.

(** The byte order mark U+FEFF. The characters of a text are 8-bit, and the
    mark stands in a text as its three UTF-8 bytes; none of them is white
    space or a character that a pattern of the module names, so that the
    patterns pass over them as over the one character. *)
Definition BOM : text := ["239"%char; "187"%char; "191"%char].

(** [open_strings_file(file_path, "a")], as the text of the file will read
    once the stream has written: the UTF-16 writer of [codecs.open] puts a
    byte order mark before the first text it writes, and mode "a" puts it at
    the end of the file. In a file that was empty, or was not there, the
    mark is the first thing in the file, and decoding takes it as the byte
    order mark; after older text it is decoded as the character U+FEFF. (A
    file with no text is taken to have no bytes.) *)
Definition open_strings_file_to_append (fs : filesystem) (file_path : text) : text :=
  match fs !! file_path with
  | None | Some [] => []
  | Some old_text => old_text ++ BOM
  end.

(** [append_dictionary_to_file]. The section header is the first text that
    is written, whatever the mapping holds. *)
Definition append_dictionary_to_file (fs : filesystem)
    (iteritems : list (text * text)) (file_path section_name : text)
    : option filesystem :=
  fd ← write_section_header_to_file
         (open_strings_file_to_append fs file_path) section_name;
  data ← append_entries fd (sorted_by_comment iteritems);
  Some (<[file_path := data]> fs).


(** * Properties *)

(** Right-nested appends, with the literal characters pushed through. *)
Ltac norm_app :=
  repeat (progress (rewrite <- ?app_assoc; cbn [app txt list_ascii_of_string])).

(** ** Rendering one entry *)

(** The text of one rendered entry. *)
Definition rendered_entry (entry_comment entry_key : text) : text :=
  txt "/* " ++ entry_comment ++ txt " */" ++ [nl] ++
  [dq] ++ escape_key entry_key ++ [dq] ++ txt " = " ++
  [dq] ++ escape_key entry_key ++ [dq; semi; nl].

Lemma write_entry_to_file_rendered fd entry_comment entry_key :
  write_entry_to_file fd entry_comment entry_key
  = Some (fd ++ rendered_entry entry_comment entry_key).
Proof.
  unfold write_entry_to_file, rendered_entry.
  generalize (escape_key entry_key); intros ek. cbn.
  f_equal. norm_app. reflexivity.
Qed.

(** C6: for every key and comment, the entry is written as the line
    [/* comment */] followed by the line [Qkey'Q = Qkey'Q;] where Q is the
    double quote and key' the escaped key: the escaped key stands on both
    sides of the assignment, the comment only in the line before it. *)
Theorem write_entry_key_on_both_sides (fd entry_comment entry_key : text) :
  write_entry_to_file fd entry_comment entry_key
  = Some (fd ++ (txt "/* " ++ entry_comment ++ txt " */" ++ [nl])
             ++ ([dq] ++ escape_key entry_key ++ [dq] ++ txt " = "
                 ++ [dq] ++ escape_key entry_key ++ [dq] ++ txt ";" ++ [nl])).
Proof.
  rewrite write_entry_to_file_rendered. unfold rendered_entry.
  generalize (escape_key entry_key); intros ek.
  f_equal. norm_app. reflexivity.
Qed.

(** ** Escaping the key *)

(** C2, where the code departs from the claim: a double quote that starts
    the key is left as it is, and so is the second of two double quotes in a
    row (the pattern needs a character before the quote, and a character
    that a match has consumed cannot serve the next match). A quote after an
    ordinary character is escaped, an escaped one is left alone. *)
Example escape_key_misses_quotes :
  escape_key ([dq] ++ txt "hi" ++ [dq]) = [dq] ++ txt "hi" ++ [bs; dq]
  /\ escape_key (txt "a" ++ [dq; dq] ++ txt "b") = txt "a" ++ [bs; dq; dq] ++ txt "b"
  /\ escape_key (txt "say " ++ [dq] ++ txt "hi" ++ [bs; dq])
     = txt "say " ++ [bs; dq] ++ txt "hi" ++ [bs; dq].
Proof. repeat split; vm_compute; reflexivity. Qed.

(** ** Sorting by comment *)

Lemma ascii_compare_refl a : Ascii.compare a a = Eq.
Proof. unfold Ascii.compare. apply N.compare_refl. Qed.

Lemma ascii_compare_lt_trans a b c :
  Ascii.compare a b = Lt -> Ascii.compare b c = Lt -> Ascii.compare a c = Lt.
Proof.
  unfold Ascii.compare. rewrite !N.compare_lt_iff. apply N.lt_trans.
Qed.

Lemma ascii_compare_gt_lt a b :
  Ascii.compare a b = Gt -> Ascii.compare b a = Lt.
Proof.
  intros H. rewrite Ascii.compare_antisym, H. reflexivity.
Qed.

Lemma text_leb_refl a : text_leb a a = true.
Proof.
  induction a as [|x a IH]; simpl; [reflexivity|].
  rewrite ascii_compare_refl. exact IH.
Qed.

Lemma text_leb_total a b : text_leb a b = false -> text_leb b a = true.
Proof.
  revert b. induction a as [|x a IH]; intros [|y b]; simpl; try congruence.
  destruct (Ascii.compare x y) eqn:E; try congruence.
  - apply Ascii.compare_eq_iff in E as ->. rewrite ascii_compare_refl. apply IH.
  - intros _. rewrite (ascii_compare_gt_lt _ _ E). reflexivity.
Qed.

Lemma text_leb_trans a b c :
  text_leb a b = true -> text_leb b c = true -> text_leb a c = true.
Proof.
  revert b c. induction a as [|x a IH]; intros [|y b] [|z c]; simpl; try congruence.
  destruct (Ascii.compare x y) eqn:Exy; try congruence.
  - apply Ascii.compare_eq_iff in Exy as ->.
    destruct (Ascii.compare y z); try congruence. apply IH.
  - destruct (Ascii.compare y z) eqn:Eyz; try congruence.
    + apply Ascii.compare_eq_iff in Eyz as <-. rewrite Exy. reflexivity.
    + rewrite (ascii_compare_lt_trans _ _ _ Exy Eyz). reflexivity.
Qed.

(** [a] comes no later than [b] in a list sorted by comment. *)
Definition comment_le (a b : text * text) : Prop := text_leb a.2 b.2 = true.

Lemma insert_by_comment_perm x l : insert_by_comment x l ≡ₚ x :: l.
Proof.
  induction l as [|y l IH]; simpl; [reflexivity|].
  destruct (text_leb x.2 y.2); [reflexivity|].
  rewrite IH. apply Permutation_swap.
Qed.

Lemma sorted_by_comment_perm items : sorted_by_comment items ≡ₚ items.
Proof.
  induction items as [|x l IH]; simpl; [reflexivity|].
  rewrite insert_by_comment_perm. by f_equiv.
Qed.

Lemma insert_by_comment_sorted x l :
  StronglySorted comment_le l -> StronglySorted comment_le (insert_by_comment x l).
Proof.
  induction 1 as [|y l Hl IH Hy]; simpl.
  - repeat constructor.
  - destruct (text_leb x.2 y.2) eqn:E.
    + constructor; [by constructor|]. constructor; [exact E|].
      eapply Forall_impl; [exact Hy|]. intros z Hz. unfold comment_le in *.
      eapply text_leb_trans; eauto.
    + constructor; [exact IH|].
      rewrite insert_by_comment_perm. constructor; [|exact Hy].
      by apply text_leb_total.
Qed.

Lemma sorted_by_comment_sorted items :
  StronglySorted comment_le (sorted_by_comment items).
Proof.
  induction items as [|x l IH]; simpl; [constructor|].
  by apply insert_by_comment_sorted.
Qed.

Lemma insert_by_comment_filter c x l :
  filter (fun p : text * text => p.2 = c) (insert_by_comment x l)
  = filter (fun p : text * text => p.2 = c) (x :: l).
Proof.
  induction l as [|y l IH]; simpl; [reflexivity|].
  destruct (text_leb x.2 y.2) eqn:E; [reflexivity|].
  rewrite (filter_cons _ y), IH, !(filter_cons _ x), (filter_cons _ y).
  destruct (decide (y.2 = c)) as [Hy|]; [|reflexivity].
  destruct (decide (x.2 = c)) as [Hx|]; [|reflexivity].
  rewrite Hx, Hy, text_leb_refl in E. discriminate.
Qed.

Lemma sorted_by_comment_stable c items :
  filter (fun p : text * text => p.2 = c) (sorted_by_comment items)
  = filter (fun p : text * text => p.2 = c) items.
Proof.
  induction items as [|x l IH]; simpl; [reflexivity|].
  rewrite insert_by_comment_filter, !(filter_cons _ x), IH. reflexivity.
Qed.

Lemma write_entries_rendered fd items :
  write_entries fd items
  = Some (fd ++ concat (map (fun p => rendered_entry p.2 p.1 ++ [nl]) items)).
Proof.
  revert fd. induction items as [|[k c] l IH]; intros fd.
  - simpl. by rewrite app_nil_r.
  - cbn [write_entries]. rewrite write_entry_to_file_rendered.
    cbn [mbind option_bind]. rewrite IH. cbn [map concat fst snd].
    f_equal. by rewrite <- !app_assoc.
Qed.

(** C5: [write_dict_to_new_file] writes the items of the mapping, each as a
    rendered entry followed by an empty line, in ascending order of comment;
    items with the same comment keep the order in which the mapping yields
    them. *)
Theorem write_dict_to_new_file_sorted (fs : filesystem) (file_name : text)
    (iteritems : list (text * text)) :
  let emitted := sorted_by_comment iteritems in
  emitted ≡ₚ iteritems
  /\ StronglySorted comment_le emitted
  /\ (forall c, filter (fun p : text * text => p.2 = c) emitted
                = filter (fun p : text * text => p.2 = c) iteritems)
  /\ write_dict_to_new_file fs file_name iteritems
     = Some (<[file_name :=
                concat (map (fun p => rendered_entry p.2 p.1 ++ [nl]) emitted)]> fs).
Proof.
  cbv zeta. split; [apply sorted_by_comment_perm|].
  split; [apply sorted_by_comment_sorted|].
  split; [intros c; apply sorted_by_comment_stable|].
  unfold write_dict_to_new_file. rewrite write_entries_rendered. reflexivity.
Qed.

(** ** The dictionary builder: the last record wins *)

Definition record_key (r : record) : text := r.1.2.
Definition record_value (r : record) : text := r.2.
Definition entry_of_record (r : record) : LocalizationEntry :=
  mkLocalizationEntry r.1.1.2 r.1.2 r.2.

(** The attribute names that the two public builders pass, each with the
    field of a record that it selects. *)
Inductive selector : text -> (record -> text) -> Prop :=
| select_key : selector (txt "key") record_key
| select_value : selector (txt "value") record_value.

Lemma getattribute_selected name sel r :
  selector name sel ->
  getattribute (entry_of_record r) name = Returned (VText (sel r)).
Proof. destruct 1; reflexivity. Qed.

Lemma fill_localization_dictionary_selected (name : text)
    (sel : record -> text) (rs : list record) (d : localization_dictionary) :
  selector name sel ->
  fill_localization_dictionary name rs d
  = Returned (foldl (fun d r => <[sel r := entry_of_record r]> d) d rs).
Proof.
  intros Hsel. revert d. induction rs as [|[[[h c] k] v] rs IH]; intros d.
  - reflexivity.
  - cbn [fill_localization_dictionary foldl].
    change (mkLocalizationEntry c k v) with (entry_of_record (h, c, k, v)).
    rewrite (getattribute_selected _ _ _ Hsel). apply IH.
Qed.

Lemma foldl_insert_not_selected (sel : record -> text) (a : text)
    (rs : list record) (d : localization_dictionary) :
  Forall (fun r => sel r <> a) rs ->
  foldl (fun d r => <[sel r := entry_of_record r]> d) d rs !! a = d !! a.
Proof.
  intros H. revert d. induction H as [|r rs Hr _ IH]; intros d; simpl.
  - reflexivity.
  - rewrite IH. by apply lookup_insert_ne.
Qed.

(** C3: when two records of the parsed sequence have the same selected
    attribute (the key, or the value), the dictionary built from the
    sequence maps that attribute to the entry made of the later one (the
    last one, if there are more); the build returns a dictionary and raises
    nothing. *)
Theorem dictionary_last_record_wins (fs : filesystem) (file_path file_data : text)
    (name : text) (sel : record -> text)
    (before middle after : list record) (r1 r2 : record) :
  selector name sel ->
  fs !! file_path = Some file_data ->
  extract_header_comment_key_value_tuples_from_file file_data
    = before ++ r1 :: middle ++ r2 :: after ->
  sel r1 = sel r2 ->
  Forall (fun r => sel r <> sel r2) after ->
  exists d : localization_dictionary,
    __generate_localization_dictionary_from_file fs file_path name = Returned d
    /\ d !! sel r2 = Some (entry_of_record r2).
Proof.
  intros Hsel Hfile Hparse _ Hafter.
  unfold __generate_localization_dictionary_from_file, read_file.
  rewrite Hfile, Hparse, (fill_localization_dictionary_selected _ _ _ _ Hsel).
  eexists; split; [reflexivity|].
  rewrite (assoc_L (++) before [r1] (middle ++ r2 :: after)) at 1.
  change (r1 :: middle ++ r2 :: after) with ([r1] ++ middle ++ r2 :: after).
  rewrite !foldl_app. cbn [foldl].
  rewrite (foldl_insert_not_selected sel _ _ _ Hafter).
  apply lookup_insert_eq.
Qed.

(** ** The directory walk: a failing file does not end it *)

Section Walk.
Variable extract_func : extractor.
Variable filter_func : text -> bool.

(** The files that the walk hands to the extractor, in the order of the
    walk: each with its name and its path. *)
Definition selected_files (os_walk : list (text * list text * list text))
    : list (text * text) :=
  flat_map (fun '(root, _, filenames) =>
              map (fun file_name => (file_name, path_join root file_name))
                  (List.filter filter_func filenames))
           os_walk.

(** The accumulator after the extractor has been called on [files] in turn,
    whatever the calls raised. *)
Definition accumulate (files : list (text * text)) (d : results_dictionary)
    : results_dictionary :=
  foldl (fun d f => (extract_func d f.2).1) d files.

(** What is printed for the calls that raised. *)
Fixpoint reports (files : list (text * text)) (d : results_dictionary)
    : list text :=
  match files with
  | [] => []
  | f :: files' =>
      match extract_func d f.2 with
      | (d', None) => reports files' d'
      | (d', Some e) =>
          (txt "Error in file " ++ f.1) :: exc_str e :: reports files' d'
      end
  end.

(** The extractor raises nothing but exceptions derived from [Exception]. *)
Definition raises_only_Exception : Prop :=
  forall d file_path d' e,
    extract_func d file_path = (d', Some e) -> exc_is_Exception e = true.

(** The extractor only adds to the dictionary or overwrites in it. *)
Definition keeps_keys : Prop :=
  forall d file_path k, is_Some (d !! k) -> is_Some ((extract_func d file_path).1 !! k).

Lemma accumulate_app files1 files2 d :
  accumulate (files1 ++ files2) d = accumulate files2 (accumulate files1 d).
Proof. apply foldl_app. Qed.

Lemma reports_app files1 files2 d :
  reports (files1 ++ files2) d
  = reports files1 d ++ reports files2 (accumulate files1 d).
Proof.
  revert d. induction files1 as [|f l IH]; intros d; [reflexivity|].
  cbn [app reports accumulate foldl]. fold (accumulate l).
  destruct (extract_func d f.2) as [d' [e|]]; cbn [fst]; rewrite IH; reflexivity.
Qed.


Lemma visit_files_accumulates root filenames st :
  raises_only_Exception ->
  let files := map (fun file_name => (file_name, path_join root file_name))
                   (List.filter filter_func filenames) in
  visit_files extract_func filter_func root filenames st
  = (WalkState (accumulate files (result st)) (stdout st ++ reports files (result st)),
     None).
Proof.
  intros Hexc. cbv zeta. revert st.
  induction filenames as [|file_name rest IH]; intros [d out].
  - cbn. by rewrite app_nil_r.
  - cbn [visit_files List.filter]. destruct (filter_func file_name); [|apply IH].
    cbn [map accumulate reports foldl result stdout fst snd].
    destruct (extract_func d (path_join root file_name)) as [d' [e|]] eqn:E.
    + rewrite (Hexc _ _ _ _ E), IH. cbn [result stdout fst].
      by rewrite <- app_assoc.
    + rewrite IH. reflexivity.
Qed.

Lemma visit_directories_accumulates os_walk st :
  raises_only_Exception ->
  visit_directories extract_func filter_func os_walk st
  = (WalkState (accumulate (selected_files os_walk) (result st))
               (stdout st ++ reports (selected_files os_walk) (result st)),
     None).
Proof.
  intros Hexc. revert st.
  induction os_walk as [|[[root dirnames] filenames] walk' IH]; intros [d out].
  - cbn. by rewrite app_nil_r.
  - cbn [visit_directories selected_files flat_map].
    rewrite (visit_files_accumulates _ _ _ Hexc). cbv zeta. rewrite IH.
    cbn [result stdout]. fold (selected_files walk').
    by rewrite accumulate_app, reports_app, <- app_assoc.
Qed.


End Walk.

(** * The matcher: general facts *)

Section MatcherFacts.
Context {A : Type}.
Implicit Types (k : @cont A) (s t : text) (cs : caps) (r : regex).

(** [body] calls its continuation on no longer a subject than its own. *)
Definition local (body : @cont A -> @cont A) : Prop :=
  forall k k' s cs,
    (forall s' cs', length s' <= length s -> k s' cs' = k' s' cs') ->
    body k s cs = body k' s cs.

Lemma star_loop_local body greedy fuel :
  local body -> local (fun k => star_loop body greedy k fuel).
Proof.
  intros Hbody. induction fuel as [|fuel IH]; intros k k' s cs Hk; [reflexivity|].
  cbn [star_loop].
  assert (Hagain :
    body (fun s' cs' => if length s' <? length s
                        then star_loop body greedy k fuel s' cs' else None) s cs
    = body (fun s' cs' => if length s' <? length s
                          then star_loop body greedy k' fuel s' cs' else None) s cs).
  { apply Hbody. intros s' cs' Hle.
    destruct (Nat.ltb_spec (length s') (length s)); [|reflexivity].
    apply IH. intros s'' cs'' Hle'. apply Hk. lia. }
  rewrite Hagain, (Hk s cs) by lia. reflexivity.
Qed.

Lemma m_local r : local (m r).
Proof.
  induction r as [|cl|r1 IH1 r2 IH2|greedy r1 IH1|n r1 IH1]; intros k k' s cs Hk.
  - cbn. apply Hk. lia.
  - cbn. destruct s as [|c s']; [reflexivity|].
    destruct (cmatch cl c); [|reflexivity]. apply Hk. cbn. lia.
  - cbn [m]. apply IH1. intros s' cs' Hle. apply IH2.
    intros s'' cs'' Hle'. apply Hk. lia.
  - cbn [m]. by apply (star_loop_local (m r1) greedy (S (length s)) IH1).
  - cbn [m]. apply IH1. intros s' cs' Hle. apply Hk. lia.
Qed.

(** More fuel than the subject is long changes nothing. *)
Lemma star_loop_fuel body greedy k fuel fuel' s cs :
  local body -> length s < fuel -> length s < fuel' ->
  star_loop body greedy k fuel s cs = star_loop body greedy k fuel' s cs.
Proof.
  intros Hbody. revert fuel' s cs.
  induction fuel as [|fuel IH]; intros [|fuel'] s cs H1 H2; try lia.
  cbn [star_loop].
  assert (Hagain :
    body (fun s' cs' => if length s' <? length s
                        then star_loop body greedy k fuel s' cs' else None) s cs
    = body (fun s' cs' => if length s' <? length s
                          then star_loop body greedy k fuel' s' cs' else None) s cs).
  { apply Hbody. intros s' cs' Hle.
    destruct (Nat.ltb_spec (length s') (length s)); [|reflexivity].
    apply IH; lia. }
  rewrite Hagain. reflexivity.
Qed.

(** The equation of the repetition: one more iteration that consumes
    something, or the continuation; in the order that greediness gives. *)
Lemma m_Star greedy r k s cs :
  m (Star greedy r) k s cs =
    let again := m r (fun s' cs' =>
      if length s' <? length s then m (Star greedy r) k s' cs' else None) s cs in
    if greedy then match again with Some x => Some x | None => k s cs end
    else match k s cs with Some x => Some x | None => again end.
Proof.
  cbn [m star_loop].
  assert (Hagain :
    m r (fun s' cs' => if length s' <? length s
                       then star_loop (m r) greedy k (length s) s' cs' else None) s cs
    = m r (fun s' cs' => if length s' <? length s
                         then star_loop (m r) greedy k (S (length s')) s' cs'
                         else None) s cs).
  { apply m_local. intros s' cs' Hle.
    destruct (Nat.ltb_spec (length s') (length s)); [|reflexivity].
    apply star_loop_fuel; [apply m_local|lia..]. }
  rewrite Hagain. reflexivity.
Qed.

(** Repetition of a one-character test. *)
Lemma m_Star_Chr_nil greedy cl k cs :
  m (Star greedy (Chr cl)) k [] cs = k [] cs.
Proof. rewrite m_Star. cbn. by destruct greedy, (k [] cs). Qed.

Lemma m_Star_Chr_cons greedy cl k c s cs :
  m (Star greedy (Chr cl)) k (c :: s) cs =
    if greedy then
      if cmatch cl c then
        match m (Star greedy (Chr cl)) k s cs with
        | Some x => Some x
        | None => k (c :: s) cs
        end
      else k (c :: s) cs
    else
      match k (c :: s) cs with
      | Some x => Some x
      | None => if cmatch cl c then m (Star greedy (Chr cl)) k s cs else None
      end.
Proof.
  rewrite m_Star. cbn [m]. cbv zeta.
  assert ((length s <? length (c :: s)) = true) as ->
    by (apply Nat.ltb_lt; cbn; lia).
  destruct greedy, (cmatch cl c); reflexivity.
Qed.

(** A continuation that fails on every suffix of [s]. *)
Definition dead (k : @cont A) (s : text) : Prop :=
  forall s1 s2 cs, s = s1 ++ s2 -> k s2 cs = None.

Lemma dead_suffix k s1 s2 : dead k (s1 ++ s2) -> dead k s2.
Proof.
  intros H t1 t2 cs ->. apply (H (s1 ++ t1) t2). by rewrite <- app_assoc.
Qed.

Lemma dead_here k s cs : dead k s -> k s cs = None.
Proof. intros H. by apply (H [] s). Qed.

Lemma dead_shorter k s s' cs :
  dead k s -> (exists s1, s = s1 ++ s') -> k s' cs = None.
Proof. intros H [s1 ->]. by apply (H s1 s'). Qed.

End MatcherFacts.

(** ** What a pattern matches *)

(** The words of a pattern, as the [re] documentation defines them (a
    repetition is a sequence of non-empty words of its body). *)
Inductive matches : regex -> text -> Prop :=
| matches_Eps : matches Eps []
| matches_Chr cl c : cmatch cl c = true -> matches (Chr cl) [c]
| matches_Cat r1 r2 w1 w2 :
    matches r1 w1 -> matches r2 w2 -> matches (Cat r1 r2) (w1 ++ w2)
| matches_Star_nil greedy r : matches (Star greedy r) []
| matches_Star_app greedy r w1 w2 :
    matches r w1 -> w1 <> [] -> matches (Star greedy r) w2 ->
    matches (Star greedy r) (w1 ++ w2)
| matches_Group n r w : matches r w -> matches (Group n r) w.

(** The paths of the matcher: [runs r s cs s' cs'] when [r] can consume the
    subject [s] down to [s'], turning the captures [cs] into [cs']. *)
Inductive runs : regex -> text -> caps -> text -> caps -> Prop :=
| runs_Eps s cs : runs Eps s cs s cs
| runs_Chr cl c s cs : cmatch cl c = true -> runs (Chr cl) (c :: s) cs s cs
| runs_Cat r1 r2 s cs s1 cs1 s2 cs2 :
    runs r1 s cs s1 cs1 -> runs r2 s1 cs1 s2 cs2 ->
    runs (Cat r1 r2) s cs s2 cs2
| runs_Star_stop greedy r s cs : runs (Star greedy r) s cs s cs
| runs_Star_more greedy r s cs s1 cs1 s2 cs2 :
    runs r s cs s1 cs1 -> length s1 < length s ->
    runs (Star greedy r) s1 cs1 s2 cs2 ->
    runs (Star greedy r) s cs s2 cs2
| runs_Group n r s cs s1 cs1 :
    runs r s cs s1 cs1 ->
    runs (Group n r) s cs s1 ((n, take (length s - length s1) s) :: cs1).

Lemma runs_matches r s cs s' cs' :
  runs r s cs s' cs' -> exists w, s = w ++ s' /\ matches r w.
Proof.
  induction 1 as [s cs|cl c s cs Hc
                 |r1 r2 s cs s1 cs1 s2 cs2 _ [w1 [-> H1]] _ [w2 [-> H2]]
                 |greedy r s cs
                 |greedy r s cs s1 cs1 s2 cs2 _ [w1 [-> H1]] Hlt _ [w2 [-> H2]]
                 |n r s cs s1 cs1 _ [w [-> H]]].
  - exists []. split; [reflexivity|constructor].
  - exists [c]. split; [reflexivity|by constructor].
  - exists (w1 ++ w2). split; [by rewrite app_assoc|by constructor].
  - exists []. split; [reflexivity|constructor].
  - exists (w1 ++ w2). split; [by rewrite app_assoc|].
    constructor; [exact H1| |exact H2].
    intros ->. cbn in Hlt. lia.
  - exists w. split; [reflexivity|by constructor].
Qed.

Lemma matches_runs r w :
  matches r w -> forall t cs, exists cs', runs r (w ++ t) cs t cs'.
Proof.
  induction 1 as [|cl c Hc|r1 r2 w1 w2 _ IH1 _ IH2|greedy r
                 |greedy r w1 w2 _ IH1 Hne _ IH2|n r w _ IH]; intros t cs.
  - eexists. constructor.
  - eexists. by constructor.
  - destruct (IH1 (w2 ++ t) cs) as [cs1 H1]. destruct (IH2 t cs1) as [cs2 H2].
    exists cs2. rewrite <- app_assoc. econstructor; eauto.
  - eexists. constructor.
  - destruct (IH1 (w2 ++ t) cs) as [cs1 H1]. destruct (IH2 t cs1) as [cs2 H2].
    exists cs2. rewrite <- app_assoc. eapply runs_Star_more; eauto.
    rewrite !length_app. destruct w1; [done|]. cbn. lia.
  - destruct (IH t cs) as [cs1 H1]. eexists. by constructor.
Qed.

Section Soundness.
Context {A : Type}.
Implicit Types (k : @cont A) (s t : text) (cs : caps) (r : regex).

(** A continuation that fails on every suffix makes the match fail. *)
Lemma m_dead r k s cs : dead k s -> m r k s cs = None.
Proof.
  revert k s cs.
  induction r as [|cl|r1 IH1 r2 IH2|greedy r1 IH1|n r1 IH1]; intros k s cs Hk.
  - cbn. by apply dead_here.
  - cbn. destruct s as [|c s']; [reflexivity|].
    destruct (cmatch cl c); [|reflexivity]. by apply (Hk [c] s').
  - cbn [m]. apply IH1. intros s1 s2 cs' ->. apply IH2. by eapply dead_suffix.
  - remember (length s) as n eqn:Hn. revert s cs Hk Hn.
    induction n as [n IHn] using lt_wf_ind; intros s cs Hk ->.
    rewrite m_Star. cbv zeta.
    rewrite IH1, (dead_here k s cs Hk); [by destruct greedy|].
    intros s1 s2 cs' ->.
    destruct (Nat.ltb_spec (length s2) (length (s1 ++ s2))); [|reflexivity].
    eapply IHn; [eassumption| |reflexivity]. by eapply dead_suffix.
  - cbn [m]. apply IH1. intros s1 s2 cs' ->. by apply (Hk s1 s2).
Qed.

(** Soundness: a result of the matcher comes from a path of the pattern. *)
Lemma m_sound r k s cs x :
  m r k s cs = Some x ->
  exists s' cs', runs r s cs s' cs' /\ k s' cs' = Some x.
Proof.
  revert k s cs x.
  induction r as [|cl|r1 IH1 r2 IH2|greedy r1 IH1|n r1 IH1]; intros k s cs x Hm.
  - exists s, cs. split; [constructor|exact Hm].
  - cbn in Hm. destruct s as [|c s']; [discriminate|].
    destruct (cmatch cl c) eqn:Hc; [|discriminate].
    exists s', cs. split; [by constructor|exact Hm].
  - cbn [m] in Hm. apply IH1 in Hm as (s1 & cs1 & H1 & Hm).
    apply IH2 in Hm as (s2 & cs2 & H2 & Hk).
    exists s2, cs2. split; [econstructor; eauto|exact Hk].
  - remember (length s) as n eqn:Hn. revert s cs x Hm Hn.
    induction n as [n IHn] using lt_wf_ind; intros s cs x Hm ->.
    rewrite m_Star in Hm. cbv zeta in Hm.
    assert (Hagain : forall y,
      m r1 (fun s' cs' => if length s' <? length s
                          then m (Star greedy r1) k s' cs' else None) s cs = Some y ->
      exists s' cs', runs (Star greedy r1) s cs s' cs' /\ k s' cs' = Some y).
    { intros y Hy. apply IH1 in Hy as (s1 & cs1 & H1 & Hy).
      destruct (Nat.ltb_spec (length s1) (length s)) as [Hlt|]; [|discriminate].
      eapply IHn in Hy as (s2 & cs2 & H2 & Hk); [|exact Hlt|reflexivity].
      exists s2, cs2. split; [|exact Hk]. eapply runs_Star_more; eauto. }
    assert (Hstop : forall y, k s cs = Some y ->
      exists s' cs', runs (Star greedy r1) s cs s' cs' /\ k s' cs' = Some y).
    { intros y Hy. exists s, cs. split; [constructor|exact Hy]. }
    destruct greedy.
    + destruct (m r1 _ s cs) as [y|] eqn:E.
      * inversion Hm; subst y. by apply Hagain.
      * by apply Hstop.
    + destruct (k s cs) as [y|] eqn:E.
      * inversion Hm; subst y. by apply Hstop.
      * by apply Hagain.
  - cbn [m] in Hm. apply IH1 in Hm as (s1 & cs1 & H1 & Hk).
    eexists _, _. split; [by constructor|exact Hk].
Qed.

(** Completeness: where a path of the pattern leads to a continuation that
    succeeds, the matcher succeeds (on this path or on one it tries before). *)
Lemma m_complete r k s cs s' cs' :
  runs r s cs s' cs' -> is_Some (k s' cs') -> is_Some (m r k s cs).
Proof.
  intros Hruns. revert k.
  induction Hruns as [s cs|cl c s cs Hc
                     |r1 r2 s cs s1 cs1 s2 cs2 _ IH1 _ IH2
                     |greedy r s cs
                     |greedy r s cs s1 cs1 s2 cs2 _ IH1 Hlt _ IH2
                     |n r s cs s1 cs1 _ IH]; intros k Hk.
  - exact Hk.
  - cbn. by rewrite Hc.
  - cbn [m]. apply IH1, IH2, Hk.
  - rewrite m_Star. cbv zeta. destruct greedy.
    + by destruct (m r _ s cs).
    + by destruct Hk as [y ->].
  - rewrite m_Star. cbv zeta.
    assert (Hagain : is_Some (m r (fun s' cs' =>
      if length s' <? length s then m (Star greedy r) k s' cs' else None) s cs)).
    { apply IH1. apply Nat.ltb_lt in Hlt. rewrite Hlt. by apply IH2. }
    destruct Hagain as [y Hy]. rewrite Hy.
    destruct greedy; [done|]. by destruct (k s cs).
  - cbn [m]. by apply IH.
Qed.

End Soundness.

(** ** Matches at a position, and the scan *)

Lemma match_at_runs r s n cs :
  match_at r s = Some (n, cs) ->
  n <= length s /\ runs r s [] (drop n s) cs /\ matches r (take n s).
Proof.
  unfold match_at. intros H.
  apply m_sound in H as (s' & cs' & Hruns & Hk). inversion Hk; subst n cs'.
  destruct (runs_matches _ _ _ _ _ Hruns) as [w [-> Hw]].
  rewrite length_app.
  replace (length w + length s' - length s') with (length w) by lia.
  rewrite drop_app_length, take_app_length. split; [lia|]. by split.
Qed.

Lemma match_at_complete r w t :
  matches r w -> is_Some (match_at r (w ++ t)).
Proof.
  intros Hw. destruct (matches_runs _ _ Hw t []) as [cs' Hruns].
  unfold match_at. eapply m_complete; [exact Hruns|]. by eexists.
Qed.

Lemma match_at_None_no_word r s w t :
  match_at r s = None -> s = w ++ t -> matches r w -> False.
Proof.
  intros Hnone -> Hw. destruct (match_at_complete r w t Hw) as [x Hx]. congruence.
Qed.

(** The match objects of a scan from position [pos] over the subject [s]:
    each lies in the subject and is the match found at its start; they come
    in the order of the subject and do not overlap; and no match starts at a
    position that they leave uncovered. *)
Definition uncovered (ms : list match_obj) (p : nat) : Prop :=
  Forall (fun mo => ~ (m_start mo <= p < m_end mo) /\ p <> m_start mo) ms.

Definition found_at (r : regex) (pos : nat) (s : text) (mo : match_obj) : Prop :=
  pos <= m_start mo /\ m_start mo <= m_end mo /\ m_end mo <= pos + length s
  /\ match_at r (drop (m_start mo - pos) s)
     = Some (m_end mo - m_start mo, m_caps mo).

Definition before (a b : match_obj) : Prop :=
  m_end a <= m_start b /\ m_start a < m_start b.

Lemma found_at_shift r pos n s mo :
  n <= length s -> found_at r (pos + n) (drop n s) mo -> found_at r pos s mo.
Proof.
  intros Hn (H1 & H2 & H3 & H4). rewrite length_drop in H3.
  repeat split; [lia..|].
  rewrite drop_drop in H4.
  by replace (m_start mo - pos) with (n + (m_start mo - (pos + n))) by lia.
Qed.

Lemma scan_spec fuel r pos s :
  length s < fuel ->
  Forall (found_at r pos s) (scan fuel r pos s)
  /\ StronglySorted before (scan fuel r pos s)
  /\ forall p, pos <= p <= pos + length s ->
       uncovered (scan fuel r pos s) p ->
       match_at r (drop (p - pos) s) = None.
Proof.
  revert pos s. induction fuel as [|fuel IH]; intros pos s Hfuel; [lia|].
  cbn [scan].
  assert (Hskip : forall c s', s = c :: s' ->
    Forall (found_at r pos s) (scan fuel r (S pos) s')
    /\ StronglySorted before (scan fuel r (S pos) s')
    /\ Forall (fun mo => S pos <= m_start mo) (scan fuel r (S pos) s')
    /\ forall p, S pos <= p <= pos + length s ->
         uncovered (scan fuel r (S pos) s') p ->
         match_at r (drop (p - pos) s) = None).
  { intros c s' ->. cbn in Hfuel.
    destruct (IH (S pos) s' ltac:(lia)) as (HF & HS & HU).
    split; [|split; [exact HS|split]].
    - eapply Forall_impl; [exact HF|]. intros mo Hmo.
      apply (found_at_shift r pos 1 (c :: s') mo); [cbn; lia|].
      by replace (pos + 1) with (S pos) by lia.
    - eapply Forall_impl; [exact HF|]. by intros mo (H1 & _).
    - intros p Hp Hun. cbn in Hp.
      replace (p - pos) with (S (p - S pos)) by lia. cbn [drop].
      apply HU; [lia|exact Hun]. }
  destruct (match_at r s) as [[n cs]|] eqn:Hat.
  - destruct (match_at_runs _ _ _ _ Hat) as (Hn & _).
    assert (Hfirst : found_at r pos s (MatchObj pos (pos + n) cs)).
    { repeat split; cbn; [lia..|].
      rewrite Nat.sub_diag. cbn [drop].
      by replace (pos + n - pos) with n by lia. }
    destruct n as [|n].
    + destruct s as [|c s'].
      * split; [constructor; [exact Hfirst|constructor]|].
        split; [constructor; constructor|].
        intros p Hp Hun. apply Forall_cons in Hun as [[_ Hne] _].
        cbn in Hp, Hne. lia.
      * destruct (Hskip c s' eq_refl) as (HF & HS & HL & HU).
        split; [by constructor|]. split.
        -- constructor; [exact HS|]. eapply Forall_impl; [exact HL|].
           intros mo Hmo. unfold before; cbn in *. lia.
        -- intros p Hp Hun. apply Forall_cons in Hun as [[_ Hne] Hun].
           cbn in Hne. apply HU; [lia|exact Hun].
    + destruct (IH (pos + S n) (drop (S n) s)) as (HF & HS & HU).
      { rewrite length_drop. lia. }
      split; [|split].
      * constructor; [exact Hfirst|]. eapply Forall_impl; [exact HF|].
        intros mo Hmo. by apply (found_at_shift r pos (S n) s mo).
      * constructor; [exact HS|]. eapply Forall_impl; [exact HF|].
        intros mo (H1 & _). unfold before; cbn in *. lia.
      * intros p Hp Hun. apply Forall_cons in Hun as [[Hout Hne] Hun].
        cbn in Hout, Hne.
        specialize (HU p). rewrite length_drop, drop_drop in HU.
        replace (S n + (p - (pos + S n))) with (p - pos) in HU by lia.
        apply HU; [lia|exact Hun].
  - destruct s as [|c s'].
    + split; [constructor|]. split; [constructor|].
      intros p Hp _. cbn in Hp. by replace (p - pos) with 0 by lia.
    + destruct (Hskip c s' eq_refl) as (HF & HS & HL & HU).
      split; [exact HF|]. split; [exact HS|].
      intros p Hp Hun. destruct (decide (p = pos)) as [->|Hne].
      * by rewrite Nat.sub_diag.
      * apply HU; [lia|exact Hun].
Qed.

(** ** Text after the subject that no match can reach *)

Section Extension.
Context {A B : Type} (f : A -> B) (u : text).

(** [k'], on the subject followed by [u], does what [k] does on the subject
    alone, and fails inside [u]. *)
Definition extends (k' : @cont B) (k : @cont A) : Prop :=
  (forall s cs, k' (s ++ u) cs = f <$> k s cs)
  /\ (forall u1 u2 cs, u = u1 ++ u2 -> u1 <> [] -> k' u2 cs = None).

Lemma extends_dead k' k u1 u2 :
  extends k' k -> u = u1 ++ u2 -> u1 <> [] -> dead k' u2.
Proof.
  intros [_ H] -> Hne t1 t2 cs ->. apply (H (u1 ++ t1)).
  - by rewrite <- app_assoc.
  - by destruct u1.
Qed.

Lemma m_extends r k' k : extends k' k -> extends (m r k') (m r k).
Proof.
  intros Hext. split.
  2:{ intros u1 u2 cs Hu Hne. apply m_dead. by eapply extends_dead. }
  revert k' k Hext.
  induction r as [|cl|r1 IH1 r2 IH2|greedy r1 IH1|n r1 IH1]; intros k' k Hext s cs.
  - cbn. apply Hext.
  - destruct Hext as [H1 H2]. destruct s as [|c s'].
    + cbn. destruct u as [|c u'] eqn:Hu; [reflexivity|].
      destruct (cmatch cl c); [|reflexivity]. by apply (H2 [c] u').
    + cbn. destruct (cmatch cl c); [apply H1|reflexivity].
  - cbn [m]. apply IH1. split; [by apply IH2|].
    intros u1 u2 cs' Hu Hne. apply m_dead. by eapply extends_dead.
  - remember (length s) as len eqn:Hlen. revert s cs Hlen.
    induction len as [len IHlen] using lt_wf_ind; intros s cs ->.
    rewrite !m_Star. cbv zeta.
    assert (Hagain :
      m r1 (fun s' cs' => if length s' <? length (s ++ u)
                          then m (Star greedy r1) k' s' cs' else None) (s ++ u) cs
      = f <$> m r1 (fun s' cs' => if length s' <? length s
                                  then m (Star greedy r1) k s' cs' else None) s cs).
    { apply IH1. split.
      - intros s' cs'. rewrite !length_app.
        destruct (Nat.ltb_spec (length s') (length s)) as [Hlt|Hge].
        + assert ((length s' + length u <? length s + length u) = true) as ->
            by (apply Nat.ltb_lt; lia).
          by eapply IHlen.
        + assert ((length s' + length u <? length s + length u) = false) as ->
            by (apply Nat.ltb_ge; lia).
          reflexivity.
      - intros u1 u2 cs' Hu Hne.
        destruct (length u2 <? length (s ++ u)); [|reflexivity].
        apply m_dead. by eapply extends_dead. }
    rewrite Hagain. destruct Hext as [H1 _]. rewrite H1.
    destruct greedy.
    + by destruct (m r1 _ s cs).
    + by destruct (k s cs).
  - cbn [m]. apply IH1. destruct Hext as [H1 H2]. split.
    + intros s' cs'. rewrite H1, !length_app.
      replace (length s + length u - (length s' + length u))
        with (length s - length s') by lia.
      rewrite take_app_le by lia. reflexivity.
    + intros u1 u2 cs' Hu Hne. by eapply H2.
Qed.

End Extension.

(** [u] is invisible to the pattern [r]: appended to any subject it changes
    no match, and no match starts inside it. *)
Definition invisible (r : regex) (u : text) : Prop :=
  (forall s, match_at r (s ++ u) = match_at r s)
  /\ (forall u1 u2, u = u1 ++ u2 -> u1 <> [] -> match_at r u2 = None).

Lemma scan_fuel fuel fuel' r pos s :
  length s < fuel -> length s < fuel' -> scan fuel r pos s = scan fuel' r pos s.
Proof.
  revert fuel' pos s. induction fuel as [|fuel IH]; intros [|fuel'] pos s H1 H2;
    try lia.
  cbn [scan]. destruct (match_at r s) as [[n cs]|] eqn:Hat.
  - destruct (match_at_runs _ _ _ _ Hat) as (Hn & _).
    destruct n as [|n].
    + destruct s as [|c s']; [reflexivity|]. f_equal. apply IH; cbn in *; lia.
    + f_equal. apply IH; rewrite length_drop; lia.
  - destruct s as [|c s']; [reflexivity|]. apply IH; cbn in *; lia.
Qed.

Lemma scan_nothing fuel r pos s :
  (forall s1 s2, s = s1 ++ s2 -> match_at r s2 = None) ->
  scan fuel r pos s = [].
Proof.
  revert pos s. induction fuel as [|fuel IH]; intros pos s H; [reflexivity|].
  cbn [scan]. rewrite (H [] s eq_refl).
  destruct s as [|c s']; [reflexivity|].
  apply IH. intros s1 s2 ->. by apply (H (c :: s1) s2).
Qed.

Lemma scan_invisible r u fuel fuel' pos s :
  invisible r u ->
  length (s ++ u) < fuel -> length s < fuel' ->
  scan fuel r pos (s ++ u) = scan fuel' r pos s.
Proof.
  intros [Hsame Hnone]. revert fuel pos s.
  induction fuel' as [|fuel' IH]; intros [|fuel] pos s H1 H2; try lia.
  cbn [scan]. rewrite Hsame.
  assert (Hu : forall c u' p, u = c :: u' -> scan fuel r p u' = []).
  { intros c u' p Hu. apply scan_nothing. intros s1 s2 ->.
    apply (Hnone (c :: s1) s2); [exact Hu|done]. }
  destruct (match_at r s) as [[n cs]|] eqn:Hat.
  - destruct (match_at_runs _ _ _ _ Hat) as (Hn & _).
    destruct n as [|n].
    + destruct s as [|c s'].
      * cbn [app]. destruct u as [|c u'] eqn:Eu; [reflexivity|].
        by rewrite (Hu c u' (S pos) eq_refl).
      * cbn [app]. f_equal. apply IH; cbn in *; lia.
    + f_equal. rewrite drop_app_le by lia.
      apply IH; rewrite ?length_app, length_drop in *; lia.
  - destruct s as [|c s'].
    + cbn [app]. destruct u as [|c u'] eqn:Eu; [reflexivity|].
      by apply (Hu c u').
    + cbn [app]. apply IH; cbn in *; lia.
Qed.

Lemma finditer_invisible r u s :
  invisible r u -> finditer r (s ++ u) = finditer r s.
Proof. intros H. unfold finditer. apply scan_invisible; [exact H|lia..]. Qed.

(** ** Equations of the matcher, for rewriting *)

Section Equations.
Context {A : Type}.
Implicit Types (k : @cont A) (s t w : text) (cs : caps) (r : regex).

Lemma m_Eps k s cs : m Eps k s cs = k s cs.
Proof. reflexivity. Qed.

Lemma m_Chr_nil cl k cs : m (Chr cl) k [] cs = None.
Proof. reflexivity. Qed.

Lemma m_Chr_cons cl k c s cs :
  m (Chr cl) k (c :: s) cs = if cmatch cl c then k s cs else None.
Proof. reflexivity. Qed.

Lemma m_Cat r1 r2 k : m (Cat r1 r2) k = m r1 (m r2 k).
Proof. reflexivity. Qed.

Lemma m_Group n r k s cs :
  m (Group n r) k s cs
  = m r (fun s' cs' => k s' ((n, take (length s - length s') s) :: cs')) s cs.
Proof. reflexivity. Qed.

Lemma m_Lit_nil k s cs : m (Lit []) k s cs = k s cs.
Proof. reflexivity. Qed.

Lemma m_Lit_cons c w k x s cs :
  m (Lit (c :: w)) k (x :: s) cs
  = if Ascii.eqb x c then m (Lit w) k s cs else None.
Proof. reflexivity. Qed.

Lemma m_Lit_cons_nil c w k cs : m (Lit (c :: w)) k [] cs = None.
Proof. reflexivity. Qed.

Lemma m_Lit_app w k s cs : m (Lit w) k (w ++ s) cs = k s cs.
Proof.
  induction w as [|c w IH]; [reflexivity|].
  cbn [app]. rewrite m_Lit_cons, Ascii.eqb_refl. exact IH.
Qed.

(** A literal that starts with a character other than the next one. *)
Lemma m_Lit_mismatch c w k x s cs :
  x <> c -> m (Lit (c :: w)) k (x :: s) cs = None.
Proof.
  intros H. rewrite m_Lit_cons. by destruct (Ascii.eqb_spec x c).
Qed.

(** Greedy repetition of a test: past a run of characters that pass it, if
    the match succeeds further on. *)
Lemma greedy_further cl k w s cs x :
  Forall (fun c => cmatch cl c = true) w ->
  m (Star true (Chr cl)) k s cs = Some x ->
  m (Star true (Chr cl)) k (w ++ s) cs = Some x.
Proof.
  intros Hw Hs. induction Hw as [|c w Hc _ IH]; [exact Hs|].
  cbn [app]. by rewrite m_Star_Chr_cons, Hc, IH.
Qed.

(** Greedy repetition stops where the test fails, or at the end. *)
Lemma greedy_stop cl k s cs :
  match s with c :: _ => cmatch cl c = false | [] => True end ->
  m (Star true (Chr cl)) k s cs = k s cs.
Proof.
  destruct s as [|c s]; intros H.
  - apply m_Star_Chr_nil.
  - by rewrite m_Star_Chr_cons, H.
Qed.

(** Greedy repetition over a run after which the continuation succeeds, and
    succeeds nowhere inside the run. *)
Lemma greedy_back cl k w s cs :
  Forall (fun c => cmatch cl c = true) w ->
  m (Star true (Chr cl)) k s cs = None ->
  (forall w1 c w2, w = w1 ++ c :: w2 -> k (c :: w2 ++ s) cs = None) ->
  m (Star true (Chr cl)) k (w ++ s) cs = None.
Proof.
  intros Hw Hs. induction Hw as [|c w Hc _ IH]; intros Hk; [exact Hs|].
  cbn [app]. rewrite m_Star_Chr_cons, Hc, IH.
  - by apply (Hk [] c w).
  - intros w1 c' w2 ->. by apply (Hk (c :: w1) c' w2).
Qed.

(** Lazy repetition of a test: over a run of characters that pass it and at
    which the continuation fails. *)
Lemma lazy_skip cl k w s cs :
  Forall (fun c => cmatch cl c = true) w ->
  (forall w1 c w2, w = w1 ++ c :: w2 -> k (c :: w2 ++ s) cs = None) ->
  m (Star false (Chr cl)) k (w ++ s) cs = m (Star false (Chr cl)) k s cs.
Proof.
  intros Hw. induction Hw as [|c w Hc _ IH]; intros Hk; [reflexivity|].
  cbn [app]. rewrite m_Star_Chr_cons, Hc, (Hk [] c w eq_refl).
  apply IH. intros w1 c' w2 ->. by apply (Hk (c :: w1) c' w2).
Qed.

Lemma lazy_here cl k s cs x :
  k s cs = Some x -> m (Star false (Chr cl)) k s cs = Some x.
Proof.
  intros H. destruct s as [|c s].
  - by rewrite m_Star_Chr_nil.
  - by rewrite m_Star_Chr_cons, H.
Qed.

Lemma lazy_stop cl k s cs :
  match s with c :: _ => cmatch cl c = false | [] => True end ->
  m (Star false (Chr cl)) k s cs = k s cs.
Proof.
  destruct s as [|c s]; intros H.
  - apply m_Star_Chr_nil.
  - rewrite m_Star_Chr_cons, H. by destruct (k (c :: s) cs).
Qed.

End Equations.

(** * The strings-file pattern *)

(** ** Its end: a semicolon, white space, a newline *)

(** The final continuation of [match_at] on the subject [s0]. *)
Definition accept (s0 : text) : @cont (nat * caps) :=
  fun s' cs' => Some (length s0 - length s', cs').

Lemma match_at_accept r s : match_at r s = m r (accept s) s [].
Proof. reflexivity. Qed.

Lemma extends_Cat {A B : Type} (f : A -> B) u r1 r2 k' k :
  extends f u (m r2 k') (m r2 k) ->
  extends f u (m (Cat r1 r2) k') (m (Cat r1 r2) k).
Proof. intros H. apply (m_extends f u r1 _ _ H). Qed.

Lemma extends_invisible r u :
  (forall s0, extends id u (m r (accept (s0 ++ u))) (m r (accept s0))) ->
  invisible r u.
Proof.
  intros H. split.
  - intros s. rewrite !match_at_accept.
    destruct (H s) as [H1 _]. rewrite H1. by destruct (m r (accept s) s []).
  - intros u1 u2 Hu Hne. destruct (match_at r u2) as [x|] eqn:E; [|reflexivity].
    rewrite match_at_accept in E. apply m_sound in E as (s' & cs' & Hruns & _).
    destruct (H []) as [_ H2]. specialize (H2 u1 u2 [] Hu Hne).
    destruct (m_complete r (accept ([] ++ u)) u2 [] s' cs' Hruns) as [y Hy];
      [by eexists|congruence].
Qed.

Definition starts_with_space (u : text) : bool :=
  match u with
  | c :: _ => is_space c
  | [] => false
  end.

(** Past a newline-free [u], the final newline of the pattern is not found. *)
Lemma newline_extends u s0 :
  nl ∉ u ->
  extends id u (m (Lit [nl]) (accept (s0 ++ u))) (m (Lit [nl]) (accept s0)).
Proof.
  intros Hu. split.
  - intros [|c s] cs; cbn [app].
    + destruct u as [|c u']; [reflexivity|]. rewrite m_Lit_cons.
      destruct (Ascii.eqb_spec c nl) as [->|]; [|reflexivity].
      exfalso. apply Hu. by left.
    + rewrite !m_Lit_cons. destruct (Ascii.eqb c nl); [|reflexivity].
      rewrite !m_Lit_nil. unfold accept. cbn.
      rewrite !length_app. do 2 f_equal. lia.
  - intros u1 [|c u2] cs -> Hne; [reflexivity|]. rewrite m_Lit_cons.
    destruct (Ascii.eqb_spec c nl) as [->|]; [|reflexivity].
    exfalso. apply Hu. apply elem_of_app. right. by left.
Qed.

(** The white space and the newline after the semicolon do not reach into
    a [u] that does not start with white space. *)
Lemma space_newline_boundary u s0 s cs :
  starts_with_space u = false ->
  m (Star true (Chr CSpace)) (m (Lit [nl]) (accept (s0 ++ u))) (s ++ u) cs
  = m (Star true (Chr CSpace)) (m (Lit [nl]) (accept s0)) s cs.
Proof.
  intros Hu. induction s as [|c s IH].
  - cbn [app]. rewrite m_Star_Chr_nil. destruct u as [|c u'].
    + by rewrite m_Star_Chr_nil.
    + rewrite m_Star_Chr_cons. change (is_space c = false) in Hu.
      cbn [cmatch]. rewrite Hu, m_Lit_cons.
      destruct (Ascii.eqb_spec c nl) as [->|]; [|reflexivity].
      by vm_compute in Hu.
  - cbn [app]. rewrite !m_Star_Chr_cons, IH.
    assert (Hhere : m (Lit [nl]) (accept (s0 ++ u)) (c :: s ++ u) cs
                    = m (Lit [nl]) (accept s0) (c :: s) cs).
    { rewrite !m_Lit_cons. destruct (Ascii.eqb c nl); [|reflexivity].
      rewrite !m_Lit_nil. unfold accept. cbn [length].
      rewrite !length_app. do 2 f_equal. lia. }
    by rewrite Hhere.
Qed.

Lemma semicolon_extends u s0 :
  semi ∉ u -> starts_with_space u = false ->
  extends id u
    (m (Lit [semi]) (m (Star true (Chr CSpace)) (m (Lit [nl]) (accept (s0 ++ u)))))
    (m (Lit [semi]) (m (Star true (Chr CSpace)) (m (Lit [nl]) (accept s0)))).
Proof.
  intros Hsemi Hsp. split.
  - intros [|c s] cs.
    + cbn [app]. destruct u as [|c u']; [reflexivity|]. rewrite m_Lit_cons.
      destruct (Ascii.eqb_spec c semi) as [->|]; [|reflexivity].
      exfalso. apply Hsemi. by left.
    + cbn [app]. rewrite !m_Lit_cons.
      destruct (Ascii.eqb c semi); [|reflexivity].
      rewrite !m_Lit_nil, space_newline_boundary by exact Hsp.
      by destruct (m (Star true (Chr CSpace)) _ s cs).
  - intros u1 [|c u2] cs -> Hne; [reflexivity|]. rewrite m_Lit_cons.
    destruct (Ascii.eqb_spec c semi) as [->|]; [|reflexivity].
    exfalso. apply Hsemi. apply elem_of_app. right. by left.
Qed.

(** Text without a newline after the subject is invisible to the
    strings-file pattern. *)
Lemma record_pattern_newline_free u :
  nl ∉ u -> invisible HEADER_COMMENT_KEY_VALUE_TUPLES_REGEX u.
Proof.
  intros Hu. apply extends_invisible. intros s0.
  unfold HEADER_COMMENT_KEY_VALUE_TUPLES_REGEX, ASSIGNMENT.
  do 12 apply extends_Cat. by apply newline_extends.
Qed.

(** So is text with no semicolon that does not start with white space. *)
Lemma record_pattern_semicolon_free u :
  semi ∉ u -> starts_with_space u = false ->
  invisible HEADER_COMMENT_KEY_VALUE_TUPLES_REGEX u.
Proof.
  intros Hsemi Hsp. apply extends_invisible. intros s0.
  unfold HEADER_COMMENT_KEY_VALUE_TUPLES_REGEX, ASSIGNMENT.
  do 10 apply extends_Cat.
  change (Lit [dq; semi] @@ Star true (Chr CSpace) @@ Lit [nl])%re
    with (Cat (Cat (Chr (CChar dq)) (Lit [semi]))
              (Star true (Chr CSpace) @@ Lit [nl])%re).
  change (extends id u
    (m (Chr (CChar dq))
       (m (Lit [semi]) (m (Star true (Chr CSpace)) (m (Lit [nl]) (accept (s0 ++ u))))))
    (m (Chr (CChar dq))
       (m (Lit [semi]) (m (Star true (Chr CSpace)) (m (Lit [nl]) (accept s0)))))).
  apply (m_extends id u (Chr (CChar dq))).
  by apply semicolon_extends.
Qed.

(** ** Suffixes and occurrences *)

(** [P] holds of every suffix of [s]. *)
Fixpoint all_suffixes (P : text -> Prop) (s : text) : Prop :=
  P s /\ match s with
         | [] => True
         | _ :: s' => all_suffixes P s'
         end.

Lemma all_suffixes_spec P s :
  all_suffixes P s <-> forall s1 s2, s = s1 ++ s2 -> P s2.
Proof.
  induction s as [|c s IH]; cbn [all_suffixes].
  - split.
    + intros [H _] s1 s2 Hs. symmetry in Hs.
      apply app_eq_nil in Hs as [_ ->]. exact H.
    + intros H. split; [by apply (H [] [])|exact I].
  - rewrite IH. split.
    + intros [H1 H2] [|c' s1] s2 Hs.
      * cbn in Hs. by subst s2.
      * cbn in Hs. inversion Hs; subst. by eapply H2.
    + intros H. split; [by apply (H [] (c :: s))|].
      intros s1 s2 ->. by apply (H (c :: s1) s2).
Qed.

Lemma all_suffixes_app P a b :
  (forall a1 c a2, a = a1 ++ c :: a2 -> P (c :: a2 ++ b)) ->
  all_suffixes P b -> all_suffixes P (a ++ b).
Proof.
  intros Ha Hb. induction a as [|c a IH]; [exact Hb|].
  cbn [app all_suffixes]. split; [by apply (Ha [] c a)|].
  apply IH. intros a1 c' a2 ->. by apply (Ha (c :: a1) c' a2).
Qed.

Lemma all_suffixes_impl (P Q : text -> Prop) s :
  (forall t, P t -> Q t) -> all_suffixes P s -> all_suffixes Q s.
Proof.
  intros H. induction s as [|c s IH]; cbn [all_suffixes]; intros [H1 H2].
  - split; [by apply H|exact I].
  - split; [by apply H|by apply IH].
Qed.

Lemma dead_all_suffixes {A : Type} (k : @cont A) s :
  dead k s <-> all_suffixes (fun t => forall cs, k t cs = None) s.
Proof.
  rewrite all_suffixes_spec. unfold dead. split.
  - intros H s1 s2 Hs cs. by eapply H.
  - intros H s1 s2 cs Hs. by eapply H.
Qed.

(** [w] occurs in [s]. *)
Definition occurs (w s : text) : Prop := exists s1 s2, s = s1 ++ w ++ s2.

Lemma not_elem_of_split (c : ascii) (s l1 l2 : text) :
  c ∉ s -> s = l1 ++ c :: l2 -> False.
Proof.
  intros Hc ->. apply Hc. apply elem_of_app. right. by left.
Qed.

Lemma not_elem_of_suffix (c : ascii) (s l1 l2 : text) :
  c ∉ s -> s = l1 ++ l2 -> c ∉ l2.
Proof.
  intros Hc -> H. apply Hc. apply elem_of_app. by right.
Qed.

(** ** The assignment *)

(** The parts of [ASSIGNMENT] after the key and after the value. *)
Definition AFTER_VALUE : regex :=
  (Lit [dq; semi] @@ Star true (Chr CSpace) @@ Lit [nl])%re.

Definition VALUE : regex :=
  (Group 5 (Star false (Chr (CDot true))) @@ AFTER_VALUE)%re.

Definition EQUALS_VALUE : regex :=
  (Star true (Chr (CChar sp)) @@ Lit (txt "=") @@ Star true (Chr (CChar sp)) @@
   Lit [dq] @@ VALUE)%re.

Definition AFTER_KEY : regex := (Lit [dq] @@ EQUALS_VALUE)%re.

Lemma ASSIGNMENT_parts :
  ASSIGNMENT = (Lit [dq] @@ Group 4 (Star false (Chr (CDot true))) @@ AFTER_KEY)%re.
Proof. reflexivity. Qed.

Section Assignment.
Context {A : Type}.
Implicit Types (kk : @cont A) (cs : caps) (k v : text).

Lemma VALUE_fails_at_semicolon kk cs : m VALUE kk [semi; nl] cs = None.
Proof. reflexivity. Qed.

Lemma AFTER_KEY_fails_at_end kk cs : m AFTER_KEY kk [dq; semi; nl] cs = None.
Proof. reflexivity. Qed.

Lemma quote_VALUE_dead kk v :
  dq ∉ v -> dead (m (Lit [dq] @@ VALUE)%re kk) (v ++ [dq; semi; nl]).
Proof.
  intros Hv. apply dead_all_suffixes. apply all_suffixes_app.
  - intros a1 c a2 Hsplit cs. rewrite m_Cat. apply m_Lit_mismatch.
    intros ->. by eapply not_elem_of_split.
  - cbn [all_suffixes]. repeat split; intros cs; reflexivity.
Qed.

Lemma EQUALS_VALUE_fails kk v cs :
  dq ∉ v -> m EQUALS_VALUE kk (v ++ [dq; semi; nl]) cs = None.
Proof.
  intros Hv. unfold EQUALS_VALUE. rewrite m_Cat. apply m_dead.
  apply dead_all_suffixes. apply all_suffixes_app.
  - intros a1 c a2 Hsplit cs'. cbn [txt list_ascii_of_string].
    rewrite m_Cat, m_Lit_cons.
    destruct (Ascii.eqb c "=") ; [|reflexivity].
    rewrite m_Lit_nil, m_Cat. apply m_dead.
    apply (dead_suffix _ (a1 ++ [c])).
    replace ((a1 ++ [c]) ++ a2 ++ [dq; semi; nl]) with (v ++ [dq; semi; nl])
      by (rewrite Hsplit, <- !app_assoc; reflexivity).
    by apply quote_VALUE_dead.
  - cbn [all_suffixes]. repeat split; intros cs'; reflexivity.
Qed.

Lemma AFTER_KEY_dead kk v :
  dq ∉ v -> dead (m AFTER_KEY kk) (v ++ [dq; semi; nl]).
Proof.
  intros Hv. apply dead_all_suffixes. apply all_suffixes_app.
  - intros a1 c a2 Hsplit cs. unfold AFTER_KEY. rewrite m_Cat.
    apply m_Lit_mismatch. intros ->. by eapply not_elem_of_split.
  - cbn [all_suffixes]. repeat split; intros cs; reflexivity.
Qed.

(** The assignment does not match from the closing quote of a key... *)
Lemma ASSIGNMENT_fails_at_key_end kk v cs :
  dq ∉ v ->
  m ASSIGNMENT kk ([dq] ++ txt " = " ++ [dq] ++ v ++ [dq; semi; nl]) cs = None.
Proof.
  intros Hv. rewrite ASSIGNMENT_parts, m_Cat. cbn [app txt list_ascii_of_string].
  rewrite m_Lit_cons, Ascii.eqb_refl, m_Lit_nil, m_Cat, m_Group.
  apply m_dead. apply dead_all_suffixes.
  cbn [all_suffixes]. repeat split; try (intros cs'; reflexivity).
  - intros cs'. unfold AFTER_KEY.
    rewrite m_Cat, m_Lit_cons, Ascii.eqb_refl, m_Lit_nil.
    by apply EQUALS_VALUE_fails.
  - pose proof (proj1 (dead_all_suffixes _ _) (AFTER_KEY_dead kk v Hv)) as Hd.
    eapply all_suffixes_impl; [|exact Hd]. intros t Ht cs'. apply Ht.
Qed.

(** ... nor from the closing quote of a value. *)
Lemma ASSIGNMENT_fails_at_value_end kk cs :
  m ASSIGNMENT kk [dq; semi; nl] cs = None.
Proof. reflexivity. Qed.

End Assignment.

Lemma take_consumed (w s : text) : take (length (w ++ s) - length s) (w ++ s) = w.
Proof.
  rewrite length_app.
  replace (length w + length s - length s) with (length w) by lia.
  apply take_app_length.
Qed.

Lemma Forall_dotall (w : text) : Forall (fun c => cmatch (CDot true) c = true) w.
Proof. induction w; by constructor. Qed.

Section AssignmentMatch.
Context {A : Type}.
Implicit Types (kk : @cont A) (cs : caps) (k v : text).

Lemma AFTER_VALUE_exact kk cs : m AFTER_VALUE kk [dq; semi; nl] cs = kk [] cs.
Proof. reflexivity. Qed.

Lemma VALUE_exact kk v cs x :
  dq ∉ v ->
  kk [] ((5, v) :: cs) = Some x ->
  m VALUE kk (v ++ [dq; semi; nl]) cs = Some x.
Proof.
  intros Hv Hk. unfold VALUE. rewrite m_Cat, m_Group, lazy_skip.
  - apply lazy_here. by rewrite AFTER_VALUE_exact, take_consumed.
  - apply Forall_dotall.
  - intros w1 c w2 Hsplit. unfold AFTER_VALUE. rewrite m_Cat.
    apply m_Lit_mismatch. intros ->. by eapply not_elem_of_split.
Qed.

Lemma EQUALS_VALUE_exact kk v cs x :
  dq ∉ v ->
  kk [] ((5, v) :: cs) = Some x ->
  m EQUALS_VALUE kk (txt " = " ++ [dq] ++ v ++ [dq; semi; nl]) cs = Some x.
Proof.
  intros Hv Hk. unfold EQUALS_VALUE. cbn [txt list_ascii_of_string app].
  rewrite m_Cat, m_Star_Chr_cons. cbn [cmatch]. rewrite Ascii.eqb_refl.
  rewrite greedy_stop by reflexivity.
  rewrite m_Cat, m_Lit_cons, Ascii.eqb_refl, m_Lit_nil.
  rewrite m_Cat, m_Star_Chr_cons. cbn [cmatch]. rewrite Ascii.eqb_refl.
  rewrite greedy_stop by reflexivity.
  rewrite m_Cat, m_Lit_cons, Ascii.eqb_refl, m_Lit_nil.
  by rewrite (VALUE_exact kk v cs x Hv Hk).
Qed.

(** A well-formed assignment with a key and a value without double quote
    matches as a whole, with the key and the value as groups 4 and 5. *)
Lemma ASSIGNMENT_exact kk k v cs x :
  dq ∉ k -> dq ∉ v ->
  kk [] ((5, v) :: (4, k) :: cs) = Some x ->
  m ASSIGNMENT kk ([dq] ++ k ++ [dq] ++ txt " = " ++ [dq] ++ v ++ [dq; semi; nl]) cs
  = Some x.
Proof.
  intros Hk Hv Hkk. rewrite ASSIGNMENT_parts, m_Cat. cbn [app].
  rewrite m_Lit_cons, Ascii.eqb_refl, m_Lit_nil, m_Cat, m_Group, lazy_skip.
  - apply lazy_here. rewrite take_consumed. unfold AFTER_KEY.
    rewrite m_Cat, m_Lit_cons, Ascii.eqb_refl, m_Lit_nil.
    by apply EQUALS_VALUE_exact.
  - apply Forall_dotall.
  - intros w1 c w2 Hsplit. unfold AFTER_KEY. rewrite m_Cat.
    apply m_Lit_mismatch. intros ->. exact (not_elem_of_split dq k w1 w2 Hk Hsplit).
Qed.

End AssignmentMatch.

(** ** The comment block *)

Section CommentBlock.
Context {A : Type}.
Implicit Types (k K : @cont A) (cs : caps) (s body rest : text).

(** A greedy repetition before or after a greedy repetition of a wider test
    changes no result. *)
Lemma greedy_narrow_then_wide cl1 cl2 k s cs :
  (forall c, cmatch cl1 c = true -> cmatch cl2 c = true) ->
  m (Star true (Chr cl1)) (m (Star true (Chr cl2)) k) s cs
  = m (Star true (Chr cl2)) k s cs.
Proof.
  intros Hsub. induction s as [|c s IH].
  - by rewrite m_Star_Chr_nil.
  - rewrite m_Star_Chr_cons. destruct (cmatch cl1 c) eqn:H1; [|reflexivity].
    rewrite IH, (m_Star_Chr_cons true cl2), (Hsub c H1).
    by destruct (m (Star true (Chr cl2)) k s cs).
Qed.

Lemma greedy_wide_fails cl1 cl2 k s cs :
  (forall c, cmatch cl1 c = true -> cmatch cl2 c = true) ->
  m (Star true (Chr cl2)) k s cs = None ->
  m (Star true (Chr cl1)) k s cs = None.
Proof.
  intros Hsub. induction s as [|c s IH].
  - by rewrite !m_Star_Chr_nil.
  - rewrite !m_Star_Chr_cons. destruct (cmatch cl1 c) eqn:H1.
    + rewrite (Hsub c H1).
      destruct (m (Star true (Chr cl2)) k s cs); [discriminate|].
      intros Hk. by rewrite IH.
    + destruct (cmatch cl2 c); [|done].
      by destruct (m (Star true (Chr cl2)) k s cs).
Qed.

Lemma greedy_wide_then_narrow cl1 cl2 k s cs :
  (forall c, cmatch cl1 c = true -> cmatch cl2 c = true) ->
  m (Star true (Chr cl2)) (m (Star true (Chr cl1)) k) s cs
  = m (Star true (Chr cl2)) k s cs.
Proof.
  intros Hsub. induction s as [|c s IH].
  - by rewrite !m_Star_Chr_nil.
  - rewrite !(m_Star_Chr_cons true cl2), IH.
    destruct (cmatch cl2 c) eqn:H2.
    + destruct (m (Star true (Chr cl2)) k s cs) eqn:E; [reflexivity|].
      rewrite m_Star_Chr_cons. destruct (cmatch cl1 c); [|reflexivity].
      by rewrite (greedy_wide_fails cl1 cl2 k s cs Hsub E).
    + rewrite m_Star_Chr_cons. destruct (cmatch cl1 c) eqn:H1; [|reflexivity].
      by rewrite (Hsub c H1) in H2.
Qed.

Lemma space_not_semicolon c :
  cmatch (CChar sp) c = true -> cmatch (CNotSet [semi]) c = true.
Proof. cbn. by destruct (Ascii.eqb_spec c sp) as [->|]. Qed.

(** The comment block has the results of [/\*[^;]*\*/\n]. *)
Lemma COMMENT_BLOCK_simpler K s cs :
  m COMMENT_BLOCK K s cs
  = m (Lit (txt "/*")) (m (Star true (Chr (CNotSet [semi])))
                          (m (Lit (txt "*/" ++ [nl])) K)) s cs.
Proof.
  unfold COMMENT_BLOCK. rewrite !m_Cat.
  cbn [txt list_ascii_of_string app].
  destruct s as [|c1 s]; [reflexivity|]. rewrite !m_Lit_cons.
  destruct (Ascii.eqb c1 "/"); [|reflexivity].
  destruct s as [|c2 s]; [reflexivity|]. rewrite !m_Lit_cons.
  destruct (Ascii.eqb c2 "*"); [|reflexivity]. rewrite !m_Lit_nil.
  rewrite (greedy_narrow_then_wide _ _ _ _ _ space_not_semicolon).
  apply (greedy_wide_then_narrow _ _ _ _ _ space_not_semicolon).
Qed.

(** The comment block ends at the last [*/] and newline after which the
    continuation succeeds. *)
Lemma COMMENT_BLOCK_exact K body rest cs x :
  semi ∉ body ->
  dead (m (Lit (txt "*/" ++ [nl])) K) (txt "/" ++ [nl] ++ rest) ->
  K rest cs = Some x ->
  m COMMENT_BLOCK K (txt "/*" ++ body ++ txt "*/" ++ [nl] ++ rest) cs = Some x.
Proof.
  intros Hbody Hdead HK. rewrite COMMENT_BLOCK_simpler, m_Lit_app.
  apply greedy_further.
  - apply Forall_forall. intros c Hc. cbn.
    destruct (Ascii.eqb_spec c semi) as [->|]; [|reflexivity].
    contradiction.
  - cbn [txt list_ascii_of_string app]. rewrite m_Star_Chr_cons.
    change (cmatch (CNotSet [semi]) "*") with true. cbv iota.
    rewrite (m_dead _ _ _ cs Hdead).
    change ("*"%char :: "/"%char :: nl :: rest) with ((txt "*/" ++ [nl]) ++ rest).
    by rewrite m_Lit_app.
Qed.

End CommentBlock.

(** ** One record *)

Section OneRecord.
Context {A : Type}.
Implicit Types (kk K : @cont A) (cs : caps) (k v body : text).

Lemma ASSIGNMENT_needs_quote kk x s cs :
  x <> dq -> m ASSIGNMENT kk (x :: s) cs = None.
Proof. intros H. rewrite ASSIGNMENT_parts, m_Cat. by apply m_Lit_mismatch. Qed.

(** Inside a text without double quote that a double quote follows, the end
    of a comment block leads to no assignment. *)
Lemma comment_end_inside K w R cs a1 c a2 :
  dq ∉ w ->
  (forall cs', K (dq :: R) cs' = None) ->
  (forall x s cs', x <> dq -> K (x :: s) cs' = None) ->
  w = a1 ++ c :: a2 ->
  m (Lit (txt "*/" ++ [nl])) K (c :: a2 ++ dq :: R) cs = None.
Proof.
  intros Hw Hend Hother Hsplit. cbn [txt list_ascii_of_string app].
  rewrite m_Lit_cons. destruct (Ascii.eqb c "*"); [|reflexivity].
  destruct a2 as [|c2 a2]; [reflexivity|]. cbn [app]. rewrite m_Lit_cons.
  destruct (Ascii.eqb c2 "/"); [|reflexivity].
  destruct a2 as [|c3 a2]; [reflexivity|]. cbn [app]. rewrite m_Lit_cons.
  destruct (Ascii.eqb c3 nl); [|reflexivity]. rewrite m_Lit_nil.
  destruct a2 as [|c4 a2]; [apply Hend|]. cbn [app]. apply Hother.
  intros ->. apply (not_elem_of_split dq w (a1 ++ [c; c2; c3]) a2 Hw).
  rewrite Hsplit, <- app_assoc. reflexivity.
Qed.

(** After the comment block of a record whose key and value have no double
    quote, no later [*/] and newline starts an assignment. *)
Lemma no_later_comment_end kk (g : text -> caps -> caps) k v :
  dq ∉ k -> dq ∉ v ->
  dead (m (Lit (txt "*/" ++ [nl])) (fun s' cs' => m ASSIGNMENT kk s' (g s' cs')))
       (txt "/" ++ [nl] ++
        [dq] ++ k ++ [dq] ++ txt " = " ++ [dq] ++ v ++ [dq; semi; nl]).
Proof.
  intros Hk Hv. apply dead_all_suffixes.
  cbn [txt list_ascii_of_string app all_suffixes].
  split; [intros cs; reflexivity|]. split; [intros cs; reflexivity|].
  split; [intros cs; reflexivity|].
  apply all_suffixes_app.
  { intros a1 c a2 Hsplit cs.
    apply (comment_end_inside _ k _ cs a1 c a2 Hk); [| |exact Hsplit].
    - intros cs'.
      apply (ASSIGNMENT_fails_at_key_end kk v (g _ cs') Hv).
    - intros x s cs' Hx. by apply ASSIGNMENT_needs_quote. }
  cbn [all_suffixes].
  do 5 (split; [intros cs; reflexivity|]).
  apply all_suffixes_app.
  { intros a1 c a2 Hsplit cs.
    apply (comment_end_inside _ v _ cs a1 c a2 Hv); [| |exact Hsplit].
    - intros cs'. apply ASSIGNMENT_fails_at_value_end.
    - intros x s cs' Hx. by apply ASSIGNMENT_needs_quote. }
  cbn [all_suffixes]. repeat split; intros cs; reflexivity.
Qed.

End OneRecord.

(** The text of one record: a comment block around [body], then the
    assignment of [v] to [k]. *)
Definition record_text (body k v : text) : text :=
  txt "/*" ++ body ++ txt "*/" ++ [nl] ++
  [dq] ++ k ++ [dq] ++ txt " = " ++ [dq] ++ v ++ [dq; semi; nl].

(** No section header matches at the start of [s]. *)
Definition no_header (s : text) : Prop :=
  forall (K : @cont (nat * caps)) cs, m HEADER_BLOCK K s cs = None.

Lemma record_match_at body k v :
  semi ∉ body -> dq ∉ k -> dq ∉ v ->
  no_header (record_text body k v) ->
  match_at HEADER_COMMENT_KEY_VALUE_TUPLES_REGEX (record_text body k v)
  = Some (length (record_text body k v),
          [(5, v); (4, k); (3, txt "/*" ++ body ++ txt "*/" ++ [nl]); (1, [])]).
Proof.
  intros Hbody Hk Hv Hhdr. unfold match_at, HEADER_COMMENT_KEY_VALUE_TUPLES_REGEX.
  set (T := record_text body k v) in *.
  rewrite !m_Cat, m_Group, m_Star. cbv zeta.
  rewrite m_Group, Hhdr, Nat.sub_diag, take_0, m_Group.
  unfold T at 2, record_text.
  apply COMMENT_BLOCK_exact; [exact Hbody| |].
  - by apply (no_later_comment_end (fun s' cs' => Some (length T - length s', cs'))
                (fun s' cs' => (3, take (length T - length s') T) :: cs')).
  - apply ASSIGNMENT_exact; [exact Hk|exact Hv|].
    rewrite Nat.sub_0_r. do 4 f_equal.
    unfold T, record_text.
    rewrite (app_assoc (txt "/*")), (app_assoc _ (txt "*/")), (app_assoc _ [nl]).
    rewrite take_consumed, <- !app_assoc. reflexivity.
Qed.

(** A scan that finds one match and nothing after it. *)
Lemma finditer_one r s n cs :
  match_at r s = Some (n, cs) -> 0 < n ->
  (forall s1 s2, drop n s = s1 ++ s2 -> match_at r s2 = None) ->
  finditer r s = [MatchObj 0 n cs].
Proof.
  intros Hat Hn Hrest. unfold finditer. cbn [scan]. rewrite Hat.
  destruct n as [|n]; [lia|]. cbn [Nat.add]. f_equal.
  by apply scan_nothing.
Qed.

Lemma finditer_nothing r s :
  (forall s1 s2, s = s1 ++ s2 -> match_at r s2 = None) -> finditer r s = [].
Proof. apply scan_nothing. Qed.

Lemma record_pattern_not_empty :
  match_at HEADER_COMMENT_KEY_VALUE_TUPLES_REGEX [] = None.
Proof. reflexivity. Qed.

(** The parse of one record. *)
Lemma parse_one_record body k v :
  semi ∉ body -> dq ∉ k -> dq ∉ v ->
  no_header (record_text body k v) ->
  extract_header_comment_key_value_tuples_from_file (record_text body k v)
  = [([], findall1 COMMENT_REGEX (txt "/*" ++ body ++ txt "*/" ++ [nl]), k, v)].
Proof.
  intros Hbody Hk Hv Hhdr. unfold extract_header_comment_key_value_tuples_from_file.
  rewrite (finditer_one _ _ _ _ (record_match_at body k v Hbody Hk Hv Hhdr)).
  - reflexivity.
  - unfold record_text. cbn. lia.
  - intros s1 s2 Hs. rewrite drop_all in Hs. symmetry in Hs.
    apply app_eq_nil in Hs as [_ ->]. apply record_pattern_not_empty.
Qed.

(** ** The splitter of the comment block *)

Definition ends_with_space (s : text) : bool :=
  match last s with
  | Some c => Ascii.eqb c sp
  | None => false
  end.

Lemma ends_with_space_snoc (s : text) : ends_with_space (s ++ [sp]) = true.
Proof. unfold ends_with_space. by rewrite last_snoc. Qed.

Lemma m_dead_dead {A : Type} r (k : @cont A) s : dead k s -> dead (m r k) s.
Proof.
  intros H s1 s2 cs ->. apply m_dead. by eapply dead_suffix.
Qed.

Lemma Forall_not_newline (c : text) :
  nl ∉ c -> Forall (fun x => cmatch (CDot false) x = true) c.
Proof.
  intros H. apply Forall_forall. intros x Hx. cbn.
  destruct (Ascii.eqb_spec x nl) as [->|]; [contradiction|reflexivity].
Qed.

(** In a comment text without [*/], the end of the comment is found only
    at the end. *)
Lemma spaced_close_inside {A : Type} (kk : @cont A) c w1 x w2 cs :
  ~ occurs (txt "*/") c ->
  c = w1 ++ x :: w2 ->
  m (Lit (txt " */")) kk (x :: w2 ++ txt " */" ++ [nl]) cs = None.
Proof.
  intros Hc Hsplit. cbn [txt list_ascii_of_string app].
  rewrite m_Lit_cons. destruct (Ascii.eqb x " "); [|reflexivity].
  destruct w2 as [|a w2]; [reflexivity|]. cbn [app]. rewrite m_Lit_cons.
  destruct (Ascii.eqb_spec a "*") as [->|]; [|reflexivity].
  destruct w2 as [|b w2]; [reflexivity|]. cbn [app]. rewrite m_Lit_cons.
  destruct (Ascii.eqb_spec b "/") as [->|]; [|reflexivity].
  exfalso. apply Hc. exists (w1 ++ [x]), w2.
  rewrite Hsplit, <- app_assoc. reflexivity.
Qed.

(** A comment block written [/* c */] splits into the one comment [c]. *)
Lemma split_spaced_comment c :
  nl ∉ c -> ~ occurs (txt "*/") c ->
  findall1 COMMENT_REGEX (txt "/* " ++ c ++ txt " */" ++ [nl]) = [c].
Proof.
  intros Hnl Hc. unfold findall1.
  rewrite (finditer_one _ _ (length (txt "/* " ++ c ++ txt " */")) [(1, c)]).
  - reflexivity.
  - unfold match_at, COMMENT_REGEX.
    rewrite !m_Cat, m_Lit_app, m_Group, lazy_skip.
    + apply lazy_here. rewrite m_Lit_app, take_consumed. do 2 f_equal.
      rewrite !length_app. cbn. lia.
    + by apply Forall_not_newline.
    + intros w1 x w2 Hsplit. by eapply spaced_close_inside.
  - cbn. lia.
  - intros s1 s2 Hs.
    replace (txt "/* " ++ c ++ txt " */" ++ [nl])
      with ((txt "/* " ++ c ++ txt " */") ++ [nl]) in Hs
      by (by rewrite <- !app_assoc).
    rewrite drop_app_length in Hs.
    destruct s1 as [|y s1]; cbn in Hs.
    + by subst s2.
    + inversion Hs as [[Hy Hnil]]. symmetry in Hnil.
      apply app_eq_nil in Hnil as [_ ->]. reflexivity.
Qed.

(** Without a space before its [*/], the comment block has no [ */] at
    all. *)
Lemma no_spaced_close {A : Type} (kk : @cont A) T :
  ~ occurs (txt "*/") T -> ends_with_space T = false ->
  dead (m (Lit (txt " */")) kk) (txt "/*" ++ T ++ txt "*/" ++ [nl]).
Proof.
  intros HT Hend. apply dead_all_suffixes.
  cbn [txt list_ascii_of_string app all_suffixes].
  split; [intros cs; reflexivity|]. split; [intros cs; reflexivity|].
  apply all_suffixes_app.
  - intros a1 x a2 Hsplit cs. rewrite m_Lit_cons.
    destruct (Ascii.eqb_spec x " ") as [->|]; [|reflexivity].
    destruct a2 as [|a a2].
    + rewrite Hsplit in Hend. change " "%char with sp in Hend.
      by rewrite ends_with_space_snoc in Hend.
    + cbn [app]. rewrite m_Lit_cons.
      destruct (Ascii.eqb_spec a "*") as [->|]; [|reflexivity].
      destruct a2 as [|b a2]; [reflexivity|]. cbn [app]. rewrite m_Lit_cons.
      destruct (Ascii.eqb_spec b "/") as [->|]; [|reflexivity].
      exfalso. apply HT. exists (a1 ++ [" "%char]), a2.
      rewrite Hsplit, <- app_assoc. reflexivity.
  - cbn [all_suffixes]. repeat split; intros cs; reflexivity.
Qed.

(** A comment block written [/*T*/], without the space, splits into no
    comment. *)
Lemma split_unspaced_comment T :
  ~ occurs (txt "*/") T -> ends_with_space T = false ->
  findall1 COMMENT_REGEX (txt "/*" ++ T ++ txt "*/" ++ [nl]) = [].
Proof.
  intros HT Hend. unfold findall1. rewrite finditer_nothing; [reflexivity|].
  intros s1 s2 Hs. unfold match_at, COMMENT_REGEX. rewrite !m_Cat.
  apply m_dead. apply m_dead_dead.
  apply (dead_suffix _ s1). rewrite <- Hs. by apply no_spaced_close.
Qed.

(** ** Words of the patterns *)

Lemma matches_Cat_inv r1 r2 w :
  matches (Cat r1 r2) w ->
  exists w1 w2, w = w1 ++ w2 /\ matches r1 w1 /\ matches r2 w2.
Proof. inversion 1; subst. eauto. Qed.

Lemma matches_Chr_inv cl w :
  matches (Chr cl) w -> exists c, w = [c] /\ cmatch cl c = true.
Proof. inversion 1; subst. eauto. Qed.

Lemma matches_Group_inv n r w : matches (Group n r) w -> matches r w.
Proof. by inversion 1. Qed.

Lemma matches_Lit_inv l w : matches (Lit l) w -> w = l.
Proof.
  revert w. induction l as [|c l IH]; intros w H.
  - by inversion H.
  - apply matches_Cat_inv in H as (w1 & w2 & -> & H1 & H2).
    apply matches_Chr_inv in H1 as (x & -> & Hx).
    apply Ascii.eqb_eq in Hx as ->. by rewrite (IH w2 H2).
Qed.

Lemma matches_Star_Chr_inv greedy cl w :
  matches (Star greedy (Chr cl)) w -> Forall (fun c => cmatch cl c = true) w.
Proof.
  intros H. remember (Star greedy (Chr cl)) as r eqn:Hr.
  induction H as [| | | |g r' w1 w2 H1 _ Hne _ IH2|]; try discriminate.
  - constructor.
  - inversion Hr; subst. apply matches_Chr_inv in H1 as (c & -> & Hc).
    constructor; [exact Hc|]. by apply IH2.
Qed.

Lemma Forall_space_not_newline (w : text) :
  Forall (fun c => cmatch (CChar sp) c = true) w -> nl ∉ w.
Proof.
  intros H Hin. rewrite Forall_forall in H. by specialize (H nl Hin).
Qed.

Lemma Forall_NotSet_not_elem (x : ascii) (w : text) :
  Forall (fun c => cmatch (CNotSet [x]) c = true) w -> x ∉ w.
Proof.
  intros H Hin. rewrite Forall_forall in H. specialize (H x Hin).
  cbn in H. by rewrite Ascii.eqb_refl in H.
Qed.

(** A section header is [/***], then text without newline, then [***/] and
    two newlines. *)
Lemma HEADER_BLOCK_word w :
  matches HEADER_BLOCK w ->
  exists y, w = txt "/***" ++ y ++ txt "***/" ++ [nl; nl] /\ nl ∉ y.
Proof.
  unfold HEADER_BLOCK. intros H.
  apply matches_Cat_inv in H as (w0 & r0 & -> & H0 & H).
  apply matches_Cat_inv in H as (w1 & r1 & -> & H1 & H).
  apply matches_Cat_inv in H as (w2 & r2 & -> & H2 & H).
  apply matches_Cat_inv in H as (w3 & w4 & -> & H3 & H4).
  apply matches_Lit_inv in H0 as ->. apply matches_Lit_inv in H4 as ->.
  apply matches_Star_Chr_inv, Forall_space_not_newline in H1.
  apply matches_Star_Chr_inv, Forall_NotSet_not_elem in H2.
  apply matches_Star_Chr_inv, Forall_space_not_newline in H3.
  exists (w1 ++ w2 ++ w3). split; [by rewrite <- !app_assoc|].
  rewrite !elem_of_app. tauto.
Qed.

(** The first occurrence of a character splits a text in one way. *)
Lemma first_split_unique (c : ascii) (a b a' b' : text) :
  c ∉ a -> c ∉ a' -> a ++ c :: b = a' ++ c :: b' -> a = a' /\ b = b'.
Proof.
  revert a'. induction a as [|x a IH]; intros [|x' a'] Ha Ha' H; cbn in H.
  - by inversion H.
  - inversion H; subst. exfalso. apply Ha'. by left.
  - inversion H; subst. exfalso. apply Ha. by left.
  - inversion H; subst.
    destruct (IH a') as [-> ->]; [| |assumption|done].
    + intros Hin. apply Ha. by right.
    + intros Hin. apply Ha'. by right.
Qed.

(** ** No section header before the comment block *)

Lemma no_header_spaced c k v : no_header (record_text (sp :: c ++ [sp]) k v).
Proof. intros K cs. reflexivity. Qed.

Lemma no_header_without_close T k v :
  ~ occurs (txt "*/") T -> no_header (record_text T k v).
Proof.
  intros HT K cs. destruct (m HEADER_BLOCK K _ cs) as [x|] eqn:E; [|reflexivity].
  exfalso. apply m_sound in E as (s' & cs' & Hruns & _).
  apply runs_matches in Hruns as (w & Hw & Hm).
  apply HEADER_BLOCK_word in Hm as (y & -> & Hy).
  set (rest := dq :: k ++ [dq] ++ txt " = " ++ [dq] ++ v ++ [dq; semi; nl]).
  assert (Heq : T ++ txt "*/" ++ nl :: rest
                = (txt "**" ++ y ++ txt "***/") ++ nl :: nl :: s').
  { unfold record_text in Hw. rewrite <- !app_assoc in Hw.
    cbn [txt list_ascii_of_string app] in Hw. inversion Hw as [Heq].
    unfold rest. cbn [txt list_ascii_of_string app]. rewrite <- !app_assoc.
    cbn [app]. exact Heq. }
  assert (HP : nl ∉ txt "**" ++ y ++ txt "***/").
  { rewrite !elem_of_app. intros [H|[H|H]]; [|contradiction|].
    - cbn in H. rewrite !elem_of_cons in H.
      destruct H as [H|[H|H]]; [discriminate..|]. by inversion H.
    - cbn in H. rewrite !elem_of_cons in H.
      destruct H as [H|[H|[H|[H|H]]]]; [discriminate..|]. by inversion H. }
  destruct (decide (nl ∈ T)) as [Hin|Hnot].
  - apply list_elem_of_split_l in Hin as (T1 & T2 & -> & HT1).
    rewrite <- app_assoc in Heq. cbn [app] in Heq.
    apply first_split_unique in Heq as [-> _]; [|exact HT1|exact HP].
    apply HT. exists (txt "**" ++ y ++ txt "**"), (nl :: T2).
    cbn. rewrite <- !app_assoc. reflexivity.
  - rewrite app_assoc in Heq.
    apply first_split_unique in Heq as [_ Heq]; [discriminate| |exact HP].
    rewrite elem_of_app. intros [H|H]; [contradiction|].
    cbn in H. rewrite !elem_of_cons in H.
    destruct H as [H|[H|H]]; [discriminate..|]. by inversion H.
Qed.

(** ** Tests on concrete texts *)

Fixpoint is_prefix (w s : text) : bool :=
  match w, s with
  | [], _ => true
  | _ :: _, [] => false
  | x :: w', y :: s' => Ascii.eqb x y && is_prefix w' s'
  end.

Fixpoint occursb (w s : text) : bool :=
  is_prefix w s || match s with
                   | [] => false
                   | _ :: s' => occursb w s'
                   end.

(** A double quote that no backslash precedes. *)
Fixpoint unescaped_quote_after (escaped : bool) (s : text) : bool :=
  match s with
  | [] => false
  | c :: s' =>
      (Ascii.eqb c dq && negb escaped) || unescaped_quote_after (Ascii.eqb c bs) s'
  end.

Definition has_unescaped_quote (s : text) : bool := unescaped_quote_after false s.

Lemma is_prefix_app w s : is_prefix w (w ++ s) = true.
Proof. induction w as [|x w IH]; [reflexivity|]. cbn. by rewrite Ascii.eqb_refl. Qed.

Lemma occursb_false w s : occursb w s = false -> ~ occurs w s.
Proof.
  intros H (s1 & s2 & ->). revert H. induction s1 as [|x s1 IH]; cbn [app].
  - destruct (w ++ s2) eqn:E; cbn; rewrite <- ?E, is_prefix_app; discriminate.
  - cbn [occursb]. intros H. apply orb_false_iff in H as [_ H]. by apply IH.
Qed.

Lemma mem_ascii_false (c : ascii) (s : text) : mem_ascii c s = false -> c ∉ s.
Proof.
  unfold mem_ascii. induction s as [|y s IH]; cbn; intros H Hin.
  - by apply elem_of_nil in Hin.
  - apply orb_false_iff in H as [Hy H]. apply elem_of_cons in Hin as [->|Hin].
    + by rewrite Ascii.eqb_refl in Hy.
    + by apply IH.
Qed.

(** ** Rendering and parsing back *)

Lemma sub_scan_nothing fuel r repl s :
  (forall s1 s2, s = s1 ++ s2 -> match_at r s2 = None) ->
  sub_scan fuel r repl s = s.
Proof.
  revert s. induction fuel as [|fuel IH]; intros s H; [reflexivity|].
  cbn [sub_scan]. rewrite (H [] s eq_refl). destruct s as [|c s]; [reflexivity|].
  f_equal. apply IH. intros s1 s2 ->. by apply (H (c :: s1) s2).
Qed.

(** A key without double quote is its own escaped form. *)
Lemma escape_key_no_quote k : dq ∉ k -> escape_key k = k.
Proof.
  intros Hk. apply sub_scan_nothing. intros s1 s2 ->.
  unfold match_at, UNESCAPED_QUOTE_REGEX. rewrite m_Cat, m_Group.
  destruct s2 as [|a [|b s3]]; [reflexivity| |].
  - rewrite m_Chr_cons. by destruct (cmatch _ a).
  - rewrite m_Chr_cons. destruct (cmatch _ a); [|reflexivity].
    apply m_Lit_mismatch. intros ->. apply Hk.
    rewrite elem_of_app, !elem_of_cons. tauto.
Qed.

(** The text that [write_entry_to_file] writes, parsed back. *)
Definition parse_rendered (entry_comment entry_key : text) : option (list record) :=
  file_data ← write_entry_to_file [] entry_comment entry_key;
  Some (extract_header_comment_key_value_tuples_from_file file_data).

(** C10: a record whose comment block is written without a space before
    its [*/] (as in [/*TEXT*/]) is matched, with its key and value, and its
    sequence of comments is empty; written with the two spaces, the same
    text is its one comment. *)
Theorem unspaced_comment_block_gives_no_comment (T k v : text) :
  semi ∉ T -> ~ occurs (txt "*/") T -> ends_with_space T = false ->
  dq ∉ k -> dq ∉ v ->
  extract_header_comment_key_value_tuples_from_file
    (txt "/*" ++ T ++ txt "*/" ++ [nl] ++
     [dq] ++ k ++ [dq] ++ txt " = " ++ [dq] ++ v ++ [dq; semi; nl])
  = [([], [], k, v)]
  /\ (nl ∉ T ->
      extract_header_comment_key_value_tuples_from_file
        (txt "/* " ++ T ++ txt " */" ++ [nl] ++
         [dq] ++ k ++ [dq] ++ txt " = " ++ [dq] ++ v ++ [dq; semi; nl])
      = [([], [T], k, v)]).
Proof.
  intros Hsemi Hclose Hend Hk Hv. split.
  - change (extract_header_comment_key_value_tuples_from_file (record_text T k v)
            = [([], [], k, v)]).
    rewrite parse_one_record; try assumption.
    + by rewrite split_unspaced_comment.
    + by apply no_header_without_close.
  - intros Hnl.
    replace (txt "/* " ++ T ++ txt " */" ++ [nl] ++
             [dq] ++ k ++ [dq] ++ txt " = " ++ [dq] ++ v ++ [dq; semi; nl])
      with (record_text (sp :: T ++ [sp]) k v)
      by (unfold record_text; cbn [txt list_ascii_of_string app];
          by rewrite <- !app_assoc).
    rewrite parse_one_record; try assumption.
    + do 4 f_equal.
      replace (txt "/*" ++ (sp :: T ++ [sp]) ++ txt "*/" ++ [nl])
        with (txt "/* " ++ T ++ txt " */" ++ [nl])
        by (cbn [txt list_ascii_of_string app]; by rewrite <- !app_assoc).
      by apply split_spaced_comment.
    + rewrite elem_of_cons, elem_of_app, list_elem_of_singleton.
      intros [H|[H|H]]; [discriminate|contradiction|discriminate].
    + apply no_header_spaced.
Qed.

Lemma unspaced_comment_block_witness :
  extract_header_comment_key_value_tuples_from_file
    (txt "/*" ++ txt "TEXT" ++ txt "*/" ++ [nl] ++
     [dq] ++ txt "K" ++ [dq] ++ txt " = " ++ [dq] ++ txt "V" ++ [dq; semi; nl])
  = [([], [], txt "K", txt "V")]
  /\ (nl ∉ txt "TEXT" ->
      extract_header_comment_key_value_tuples_from_file
        (txt "/* " ++ txt "TEXT" ++ txt " */" ++ [nl] ++
         [dq] ++ txt "K" ++ [dq] ++ txt " = " ++ [dq] ++ txt "V" ++ [dq; semi; nl])
      = [([], [txt "TEXT"], txt "K", txt "V")]).
Proof.
  apply (unspaced_comment_block_gives_no_comment (txt "TEXT") (txt "K") (txt "V")).
  - apply mem_ascii_false; reflexivity.
  - apply occursb_false; reflexivity.
  - reflexivity.
  - apply mem_ascii_false; reflexivity.
  - apply mem_ascii_false; reflexivity.
Defined.

(** ** Examples *)

(** A strings file with two entries for the key [K]. *)
Definition two_entries_file : text :=
  record_text (txt " first ") (txt "K") (txt "v1") ++ [nl] ++
  record_text (txt " second ") (txt "K") (txt "v2").

Lemma dictionary_last_record_wins_witness :
  exists d : localization_dictionary,
    __generate_localization_dictionary_from_file
      {[ txt "Localizable.strings" := two_entries_file ]}
      (txt "Localizable.strings") (txt "key") = Returned d
    /\ d !! record_key ([], [txt "second"], txt "K", txt "v2")
       = Some (entry_of_record ([], [txt "second"], txt "K", txt "v2")).
Proof.
  apply (dictionary_last_record_wins
           {[ txt "Localizable.strings" := two_entries_file ]}
           (txt "Localizable.strings") two_entries_file
           (txt "key") record_key [] [] []
           ([], [txt "first"], txt "K", txt "v1")
           ([], [txt "second"], txt "K", txt "v2")).
  - constructor.
  - apply lookup_singleton_eq.
  - vm_compute. reflexivity.
  - reflexivity.
  - constructor.
Defined.

(** The names that end in [.m]. *)
Definition ends_in_dot_m (file_name : text) : bool :=
  match rev file_name with
  | "m"%char :: "."%char :: _ => true
  | _ => false
  end.

(** A directory with [a.m], [c.m] and [c.txt]; [b.m] is listed and cannot
    be opened. *)
Definition example_files : filesystem :=
  {[ txt "src/a.m" := txt "x = JTL('GREETING', 'Hello text');";
     txt "src/c.m" := txt "y = JTL('FAREWELL', 'Bye text');";
     txt "src/c.txt" := txt "JTL('IGNORED','x')" ]}.

Definition example_walk : list (text * list text * list text) :=
  [(txt "src", [], [txt "a.m"; txt "b.m"; txt "c.m"; txt "c.txt"])].

Lemma jtl_extractor_raises_only_Exception (fs : filesystem) :
  raises_only_Exception (extract_jtl_string_pairs_from_text_file fs).
Proof.
  intros d file_path d' e. unfold extract_jtl_string_pairs_from_text_file, read_file.
  destruct (fs !! file_path); [discriminate|]. by intros [= <- <-].
Qed.

Lemma merge_pairs_keeps_keys (pairs : list (text * text))
    (d : results_dictionary) (k : text) :
  is_Some (d !! k) -> is_Some (merge_pairs pairs d !! k).
Proof.
  unfold merge_pairs. revert d. induction pairs as [|p pairs IH]; intros d Hd.
  - exact Hd.
  - cbn [foldl]. apply IH. destruct (decide (p.1 = k)) as [->|Hne].
    + rewrite lookup_insert_eq. by eexists.
    + by rewrite lookup_insert_ne.
Qed.

Lemma jtl_extractor_keeps_keys (fs : filesystem) :
  keeps_keys (extract_jtl_string_pairs_from_text_file fs).
Proof.
  intros d file_path k Hk. unfold extract_jtl_string_pairs_from_text_file, read_file.
  destruct (fs !! file_path); cbn [fst]; [|exact Hk].
  by apply merge_pairs_keeps_keys.
Qed.


(** What the example walk prints and returns. *)
Example example_walk_result :
  extract_string_pairs_in_directory example_walk
    (extract_jtl_string_pairs_from_text_file example_files) ends_in_dot_m
  = ([txt "Error in file b.m";
      txt "[Errno 2] No such file or directory: 'src/b.m'"],
     Returned (<[txt "FAREWELL" := txt "Bye text"]>
                 (<[txt "GREETING" := txt "Hello text"]> ∅))).
Proof. vm_compute. reflexivity. Qed.

(** The text of the error has the [repr] of the path: between double
    quotes when the path has a single quote, with a doubled backslash. *)
Example IOError_text :
  exc_str (IOError (txt "src/b.m"))
  = txt "[Errno 2] No such file or directory: 'src/b.m'"
  /\ exc_str (IOError (txt "src/it's.m"))
     = txt "[Errno 2] No such file or directory: " ++ [dq] ++ txt "src/it's.m" ++ [dq]
  /\ exc_str (IOError (txt "src\b.m"))
     = txt "[Errno 2] No such file or directory: 'src\\b.m'"
  /\ exc_str (IOError (txt "a'" ++ [dq] ++ txt ".m"))
     = txt "[Errno 2] No such file or directory: 'a\'" ++ [dq] ++ txt ".m'"
  /\ exc_str (IOError (txt "a" ++ ["127"%char; "233"%char; "009"%char]))
     = txt "[Errno 2] No such file or directory: 'a\x7f\xe9\t'".
Proof. repeat split; vm_compute; reflexivity. Qed.




(** ** The words of the strings-file pattern *)

(** An assignment is a quoted key, an equals sign between optional spaces,
    a quoted value, a semicolon, optional white space and a newline. *)
Lemma ASSIGNMENT_word w :
  matches ASSIGNMENT w ->
  exists k s1 s2 v ws,
    w = [dq] ++ k ++ [dq] ++ s1 ++ txt "=" ++ s2 ++ [dq] ++ v ++ [dq; semi] ++ ws ++ [nl]
    /\ Forall (fun c => c = sp) s1 /\ Forall (fun c => c = sp) s2
    /\ Forall (fun c => is_space c = true) ws.
Proof.
  unfold ASSIGNMENT. intros H.
  apply matches_Cat_inv in H as (w0 & r0 & -> & H0 & H).
  apply matches_Cat_inv in H as (k & r1 & -> & _ & H).
  apply matches_Cat_inv in H as (w2 & r2 & -> & H2 & H).
  apply matches_Cat_inv in H as (s1 & r3 & -> & H3 & H).
  apply matches_Cat_inv in H as (w4 & r4 & -> & H4 & H).
  apply matches_Cat_inv in H as (s2 & r5 & -> & H5 & H).
  apply matches_Cat_inv in H as (w6 & r6 & -> & H6 & H).
  apply matches_Cat_inv in H as (v & r7 & -> & _ & H).
  apply matches_Cat_inv in H as (w8 & r8 & -> & H8 & H).
  apply matches_Cat_inv in H as (ws & w10 & -> & H9 & H10).
  apply matches_Lit_inv in H0 as ->. apply matches_Lit_inv in H2 as ->.
  apply matches_Lit_inv in H4 as ->. apply matches_Lit_inv in H6 as ->.
  apply matches_Lit_inv in H8 as ->. apply matches_Lit_inv in H10 as ->.
  apply matches_Star_Chr_inv in H3, H5, H9.
  exists k, s1, s2, v, ws. split; [reflexivity|].
  repeat split; try assumption.
  - eapply Forall_impl; [exact H3|]. intros c Hc. by apply Ascii.eqb_eq in Hc.
  - eapply Forall_impl; [exact H5|]. intros c Hc. by apply Ascii.eqb_eq in Hc.
Qed.

(** A word of the pattern ends with a semicolon, white space and a
    newline. *)
Lemma record_word_end w :
  matches HEADER_COMMENT_KEY_VALUE_TUPLES_REGEX w ->
  exists x ws, w = x ++ [semi] ++ ws ++ [nl]
               /\ Forall (fun c => is_space c = true) ws.
Proof.
  unfold HEADER_COMMENT_KEY_VALUE_TUPLES_REGEX. intros H.
  apply matches_Cat_inv in H as (w1 & r1 & -> & _ & H).
  apply matches_Cat_inv in H as (w3 & wa & -> & _ & H).
  apply ASSIGNMENT_word in H as (k & s1 & s2 & v & ws & -> & _ & _ & Hws).
  exists (w1 ++ w3 ++ [dq] ++ k ++ [dq] ++ s1 ++ txt "=" ++ s2 ++ [dq] ++ v ++ [dq]), ws.
  split; [|exact Hws]. rewrite <- !app_assoc. reflexivity.
Qed.

Lemma record_word_not_empty w :
  matches HEADER_COMMENT_KEY_VALUE_TUPLES_REGEX w -> w <> [].
Proof.
  intros H. apply record_word_end in H as (x & ws & -> & _).
  intros Hnil. apply app_eq_nil in Hnil as [_ Hnil]. discriminate.
Qed.

(** The matches that a scan of the whole subject reports. *)
Lemma finditer_spec r s :
  Forall (found_at r 0 s) (finditer r s)
  /\ StronglySorted before (finditer r s)
  /\ forall p, p <= length s -> uncovered (finditer r s) p ->
               match_at r (drop p s) = None.
Proof.
  destruct (scan_spec (S (length s)) r 0 s) as (HF & HS & HU); [lia|].
  split; [exact HF|]. split; [exact HS|].
  intros p Hp Hun. specialize (HU p). rewrite Nat.sub_0_r in HU.
  apply HU; [lia|exact Hun].
Qed.

Lemma found_at_word r s mo :
  found_at r 0 s mo ->
  m_start mo <= m_end mo /\ m_end mo <= length s
  /\ matches r (take (m_end mo - m_start mo) (drop (m_start mo) s)).
Proof.
  intros (_ & H1 & H2 & Hat). rewrite Nat.sub_0_r in Hat.
  apply match_at_runs in Hat as (_ & _ & Hm). split; [exact H1|].
  split; [lia|exact Hm].
Qed.

(** ** Text that yields no record *)

Lemma parse_invisible u file_data :
  invisible HEADER_COMMENT_KEY_VALUE_TUPLES_REGEX u ->
  extract_header_comment_key_value_tuples_from_file (file_data ++ u)
  = extract_header_comment_key_value_tuples_from_file file_data.
Proof.
  intros H. unfold extract_header_comment_key_value_tuples_from_file.
  by rewrite (finditer_invisible _ _ _ H).
Qed.

(** C8: every match of the strings-file pattern ends with a semicolon,
    optional white space and a newline; so text after the last newline of
    the file yields no record, and a final entry whose semicolon is
    followed by no newline yields no record, whatever comes before it in the
    file. *)
Theorem final_entry_needs_newline (file_data body k v w : text) :
  semi ∉ body -> nl ∉ k -> nl ∉ v -> nl ∉ w ->
  Forall (fun mo =>
            exists x ws,
              take (m_end mo - m_start mo) (drop (m_start mo) file_data)
              = x ++ [semi] ++ ws ++ [nl]
              /\ Forall (fun c => is_space c = true) ws)
         (finditer HEADER_COMMENT_KEY_VALUE_TUPLES_REGEX file_data)
  /\ extract_header_comment_key_value_tuples_from_file (file_data ++ w)
     = extract_header_comment_key_value_tuples_from_file file_data
  /\ extract_header_comment_key_value_tuples_from_file
       (file_data ++ txt "/*" ++ body ++ txt "*/" ++ [nl] ++
        [dq] ++ k ++ [dq] ++ txt " = " ++ [dq] ++ v ++ [dq; semi] ++ w)
     = extract_header_comment_key_value_tuples_from_file file_data.
Proof.
  intros Hbody Hk Hv Hw. split; [|split].
  - destruct (finditer_spec HEADER_COMMENT_KEY_VALUE_TUPLES_REGEX file_data)
      as (HF & _ & _).
    eapply Forall_impl; [exact HF|]. intros mo Hmo.
    apply found_at_word in Hmo as (_ & _ & Hm). by apply record_word_end.
  - apply parse_invisible. by apply record_pattern_newline_free.
  - replace (file_data ++ txt "/*" ++ body ++ txt "*/" ++ [nl] ++
             [dq] ++ k ++ [dq] ++ txt " = " ++ [dq] ++ v ++ [dq; semi] ++ w)
      with ((file_data ++ txt "/*" ++ body ++ txt "*/" ++ [nl]) ++
            ([dq] ++ k ++ [dq] ++ txt " = " ++ [dq] ++ v ++ [dq; semi] ++ w))
      by (by rewrite <- !app_assoc).
    rewrite parse_invisible.
    + apply parse_invisible. apply record_pattern_semicolon_free; [|reflexivity].
      cbn [txt list_ascii_of_string app].
      rewrite !elem_of_cons, elem_of_app, !elem_of_cons, elem_of_nil.
      intros [H|[H|[H|[H|[H|[H|H]]]]]]; try discriminate; try contradiction.
    + apply record_pattern_newline_free. cbn [txt list_ascii_of_string app].
      rewrite !elem_of_cons, elem_of_app, !elem_of_cons, elem_of_app,
        !elem_of_cons.
      intros [H|[H|[H|[H|[H|[H|[H|[H|[H|[H|H]]]]]]]]]];
        try discriminate; try contradiction.
Qed.

Lemma final_entry_needs_newline_witness :
  Forall (fun mo =>
            exists x ws,
              take (m_end mo - m_start mo)
                   (drop (m_start mo) (record_text (txt " first ") (txt "K1") (txt "v1")))
              = x ++ [semi] ++ ws ++ [nl]
              /\ Forall (fun c => is_space c = true) ws)
         (finditer HEADER_COMMENT_KEY_VALUE_TUPLES_REGEX
            (record_text (txt " first ") (txt "K1") (txt "v1")))
  /\ extract_header_comment_key_value_tuples_from_file
       (record_text (txt " first ") (txt "K1") (txt "v1") ++ txt "   ")
     = extract_header_comment_key_value_tuples_from_file
         (record_text (txt " first ") (txt "K1") (txt "v1"))
  /\ extract_header_comment_key_value_tuples_from_file
       (record_text (txt " first ") (txt "K1") (txt "v1") ++
        txt "/*" ++ txt " last " ++ txt "*/" ++ [nl] ++
        [dq] ++ txt "K2" ++ [dq] ++ txt " = " ++ [dq] ++ txt "v2" ++ [dq; semi]
        ++ txt "   ")
     = extract_header_comment_key_value_tuples_from_file
         (record_text (txt " first ") (txt "K1") (txt "v1")).
Proof.
  apply (final_entry_needs_newline
           (record_text (txt " first ") (txt "K1") (txt "v1"))
           (txt " last ") (txt "K2") (txt "v2") (txt "   "));
    apply mem_ascii_false; reflexivity.
Defined.

(** The final entry of the witness, once with and once without the newline
    after its semicolon. *)
Example final_entry_with_and_without_newline :
  extract_header_comment_key_value_tuples_from_file
    (record_text (txt " first ") (txt "K1") (txt "v1") ++
     record_text (txt " last ") (txt "K2") (txt "v2"))
  = [([], [txt "first"], txt "K1", txt "v1"); ([], [txt "last"], txt "K2", txt "v2")]
  /\ extract_header_comment_key_value_tuples_from_file
       (record_text (txt " first ") (txt "K1") (txt "v1") ++
        txt "/*" ++ txt " last " ++ txt "*/" ++ [nl] ++
        [dq] ++ txt "K2" ++ [dq] ++ txt " = " ++ [dq] ++ txt "v2" ++ [dq; semi])
     = [([], [txt "first"], txt "K1", txt "v1")].
Proof. split; vm_compute; reflexivity. Qed.

(** * The marker pattern *)

(** ** Its captures are not empty *)

Lemma runs_Cat_inv r1 r2 s cs s2 cs2 :
  runs (Cat r1 r2) s cs s2 cs2 ->
  exists s1 cs1, runs r1 s cs s1 cs1 /\ runs r2 s1 cs1 s2 cs2.
Proof. inversion 1; subst. eauto. Qed.

Lemma runs_Group_inv n r s cs s1 cs' :
  runs (Group n r) s cs s1 cs' ->
  exists cs1, runs r s cs s1 cs1 /\ cs' = (n, take (length s - length s1) s) :: cs1.
Proof. inversion 1; subst. eauto. Qed.

Lemma runs_Chr_inv cl s cs s' cs' :
  runs (Chr cl) s cs s' cs' -> exists c, s = c :: s' /\ cs' = cs.
Proof. inversion 1; subst. eauto. Qed.

(** A pattern without group leaves the captures as they are. *)
Fixpoint no_group (r : regex) : bool :=
  match r with
  | Eps | Chr _ => true
  | Cat r1 r2 => no_group r1 && no_group r2
  | Star _ r1 => no_group r1
  | Group _ _ => false
  end.

Lemma runs_no_group r s cs s' cs' :
  no_group r = true -> runs r s cs s' cs' -> cs' = cs.
Proof.
  intros Hr H. induction H as [| |r1 r2 s cs s1 cs1 s2 cs2 _ IH1 _ IH2|
                               |g r s cs s1 cs1 s2 cs2 _ IH1 _ _ IH2|];
    cbn in Hr; try reflexivity.
  - apply andb_true_iff in Hr as [Hr1 Hr2]. by rewrite IH2, IH1.
  - by rewrite IH2, IH1.
  - discriminate.
Qed.

Lemma no_group_Lit w : no_group (Lit w) = true.
Proof. induction w as [|c w IH]; [reflexivity|exact IH]. Qed.

Lemma runs_length r s cs s' cs' : runs r s cs s' cs' -> length s' <= length s.
Proof.
  intros H. apply runs_matches in H as (w & -> & _). rewrite length_app. lia.
Qed.

(** The capture of [(.+?)] is not empty. *)
Lemma runs_Group_Plus n greedy cl s cs s' cs' :
  runs (Group n (Plus greedy (Chr cl))) s cs s' cs' ->
  exists w, w <> [] /\ cs' = (n, w) :: cs.
Proof.
  intros H. apply runs_Group_inv in H as (cs1 & H & ->).
  unfold Plus in H. apply runs_Cat_inv in H as (s1 & cs0 & H1 & H2).
  apply runs_Chr_inv in H1 as (c & -> & ->).
  pose proof (runs_length _ _ _ _ _ H2) as Hlen.
  apply runs_no_group in H2 as ->; [|reflexivity].
  eexists. split; [|reflexivity].
  cbn [length]. replace (S (length s1) - length s') with (S (length s1 - length s'))
    by lia.
  discriminate.
Qed.

Lemma JTL_REGEX_captures s s' cs' :
  runs JTL_REGEX s [] s' cs' ->
  exists key comment,
    key <> [] /\ comment <> [] /\ cs' = [(2, comment); (1, key)].
Proof.
  unfold JTL_REGEX. intros H.
  apply runs_Cat_inv in H as (s1 & c1 & H1 & H).
  apply runs_no_group in H1 as ->; [|apply no_group_Lit].
  apply runs_Cat_inv in H as (s2 & c2 & H2 & H).
  apply runs_no_group in H2 as ->; [|reflexivity].
  apply runs_Cat_inv in H as (s3 & c3 & H3 & H).
  apply runs_Group_Plus in H3 as (key & Hkey & ->).
  apply runs_Cat_inv in H as (s4 & c4 & H4 & H).
  apply runs_no_group in H4 as ->; [|reflexivity].
  apply runs_Cat_inv in H as (s5 & c5 & H5 & H).
  apply runs_no_group in H5 as ->; [|apply no_group_Lit].
  apply runs_Cat_inv in H as (s6 & c6 & H6 & H).
  apply runs_no_group in H6 as ->; [|reflexivity].
  apply runs_Cat_inv in H as (s7 & c7 & H7 & H).
  apply runs_no_group in H7 as ->; [|reflexivity].
  apply runs_Cat_inv in H as (s8 & c8 & H8 & H).
  apply runs_Group_Plus in H8 as (comment & Hcomment & ->).
  apply runs_Cat_inv in H as (s9 & c9 & H9 & H).
  apply runs_no_group in H9 as ->; [|reflexivity].
  apply runs_no_group in H as ->; [|apply no_group_Lit].
  by exists key, comment.
Qed.

Lemma findall_jtl_not_empty s key comment :
  (key, comment) ∈ findall_jtl s -> key <> [] /\ comment <> [].
Proof.
  unfold findall_jtl. intros H.
  apply list_elem_of_fmap in H as (mo & Heq & Hmo).
  destruct (finditer_spec JTL_REGEX s) as (HF & _ & _).
  rewrite Forall_forall in HF. destruct (HF mo Hmo) as (_ & _ & _ & Hat).
  apply match_at_runs in Hat as (_ & Hruns & _).
  apply JTL_REGEX_captures in Hruns as (k & c & Hk & Hc & Hcaps).
  rewrite Hcaps in Heq. cbn in Heq. by inversion Heq; subst.
Qed.

(** ** An occurrence with an empty argument *)

(** The parts of [JTL_REGEX] after the key. *)
Definition JTL_END : regex := (Chr quote @@ Lit (txt ")"))%re.

Definition JTL_COMMENT : regex :=
  (Chr quote @@ Group 2 (Plus false (Chr (CDot false))) @@ JTL_END)%re.

Definition JTL_AFTER_KEY : regex :=
  (Chr quote @@ Lit (txt ",") @@ Star true (Chr CSpace) @@ JTL_COMMENT)%re.

Lemma JTL_REGEX_parts :
  JTL_REGEX = (Lit (txt "JTL(") @@ Chr quote @@
               Group 1 (Plus false (Chr (CDot false))) @@ JTL_AFTER_KEY)%re.
Proof. reflexivity. Qed.

(** No quote character in [s]. *)
Definition quote_free (s : text) : Prop :=
  forall c, c ∈ s -> cmatch quote c = false.

(** [s] is empty or starts with a newline. *)
Definition at_line_end (s : text) : Prop :=
  match s with
  | [] => True
  | c :: _ => c = nl
  end.

(** [P] holds of [s] and of its suffixes, as far as the characters pass the
    test [cl]: the places that a repetition of [cl] reaches. *)
Fixpoint blocked (cl : cclass) (P : text -> Prop) (s : text) : Prop :=
  P s /\ match s with
         | [] => True
         | c :: s' => cmatch cl c = true -> blocked cl P s'
         end.

Lemma blocked_app cl (P : text -> Prop) a b :
  (forall a1 c a2, a = a1 ++ c :: a2 -> P (c :: a2 ++ b)) ->
  blocked cl P b -> blocked cl P (a ++ b).
Proof.
  intros Ha Hb. induction a as [|c a IH]; [exact Hb|].
  cbn [app blocked]. split; [by apply (Ha [] c a)|].
  intros _. apply IH. intros a1 c' a2 ->. by apply (Ha (c :: a1) c' a2).
Qed.

Lemma blocked_at_line_end (P : text -> Prop) s :
  at_line_end s -> P s -> blocked (CDot false) P s.
Proof.
  destruct s as [|c s]; cbn; intros Hs HP; [by split|].
  subst c. split; [exact HP|]. discriminate.
Qed.

Section Blocked.
Context {A : Type}.
Implicit Types (k kk : @cont A) (cs : caps) (s l rest : text).

Lemma Star_blocked greedy cl k s cs :
  blocked cl (fun t => k t cs = None) s ->
  m (Star greedy (Chr cl)) k s cs = None.
Proof.
  induction s as [|c s IH]; cbn [blocked]; intros [H1 H2].
  - by rewrite m_Star_Chr_nil.
  - rewrite m_Star_Chr_cons, H1. destruct (cmatch cl c).
    + rewrite (IH (H2 eq_refl)). by destruct greedy.
    + by destruct greedy.
Qed.

Lemma JTL_END_needs_quote kk x s cs :
  cmatch quote x = false -> m JTL_END kk (x :: s) cs = None.
Proof. intros H. unfold JTL_END. by rewrite m_Cat, m_Chr_cons, H. Qed.

Lemma JTL_COMMENT_needs_quote kk x s cs :
  cmatch quote x = false -> m JTL_COMMENT kk (x :: s) cs = None.
Proof. intros H. unfold JTL_COMMENT. by rewrite m_Cat, m_Chr_cons, H. Qed.

Lemma JTL_AFTER_KEY_needs_quote kk x s cs :
  cmatch quote x = false -> m JTL_AFTER_KEY kk (x :: s) cs = None.
Proof. intros H. unfold JTL_AFTER_KEY. by rewrite m_Cat, m_Chr_cons, H. Qed.

Lemma JTL_END_fails_at_line_end kk rest cs :
  at_line_end rest -> m JTL_END kk rest cs = None.
Proof.
  destruct rest as [|c rest]; [reflexivity|]. cbn. intros ->.
  by apply JTL_END_needs_quote.
Qed.

Lemma JTL_AFTER_KEY_fails_at_line_end kk rest cs :
  at_line_end rest -> m JTL_AFTER_KEY kk rest cs = None.
Proof.
  destruct rest as [|c rest]; [reflexivity|]. cbn. intros ->.
  by apply JTL_AFTER_KEY_needs_quote.
Qed.

(** With no quote left on the line, the comment capture finds no end. *)
Lemma comment_capture_fails kk x l rest cs :
  quote_free l -> at_line_end rest ->
  m (Group 2 (Plus false (Chr (CDot false))) @@ JTL_END)%re kk (x :: l ++ rest) cs
  = None.
Proof.
  intros Hl Hrest. unfold Plus. rewrite m_Cat, m_Group, m_Cat, m_Chr_cons.
  destruct (cmatch (CDot false) x); [|reflexivity].
  apply Star_blocked. apply blocked_app.
  - intros a1 c a2 Hsplit. apply JTL_END_needs_quote. apply Hl.
    rewrite Hsplit, elem_of_app, elem_of_cons. tauto.
  - apply blocked_at_line_end; [exact Hrest|].
    by apply JTL_END_fails_at_line_end.
Qed.

Lemma JTL_COMMENT_fails kk q x l rest cs :
  quote_free l -> at_line_end rest ->
  m JTL_COMMENT kk (q :: x :: l ++ rest) cs = None.
Proof.
  intros Hl Hrest. unfold JTL_COMMENT. rewrite m_Cat, m_Chr_cons.
  destruct (cmatch quote q); [|reflexivity]. by apply comment_capture_fails.
Qed.

End Blocked.

Ltac char_eval :=
  cbn [cmatch quote mem_ascii is_space existsb Ascii.eqb Bool.eqb orb andb negb
       sq dq nl sp semi bs].

Lemma blocked_impl cl (P Q : text -> Prop) s :
  (forall t, P t -> Q t) -> blocked cl P s -> blocked cl Q s.
Proof.
  intros HPQ. induction s as [|c s IH]; cbn [blocked]; intros [H1 H2].
  - split; [by apply HPQ|exact I].
  - split; [by apply HPQ|]. intros Hc. by apply IH, H2.
Qed.

Section EmptyArgument.
Context {A : Type}.
Implicit Types (kk : @cont A) (cs : caps) (c k l rest : text).

Lemma quote_free_cons x l :
  cmatch quote x = false -> quote_free l -> quote_free (x :: l).
Proof.
  intros Hx Hl y Hy. apply elem_of_cons in Hy as [->|Hy]; [exact Hx|by apply Hl].
Qed.

Lemma JTL_AFTER_KEY_needs_comma kk q x s cs :
  x <> ","%char -> m JTL_AFTER_KEY kk (q :: x :: s) cs = None.
Proof.
  intros Hx. unfold JTL_AFTER_KEY. rewrite m_Cat, m_Chr_cons.
  destruct (cmatch quote q); [|reflexivity].
  rewrite m_Cat. cbn [txt list_ascii_of_string]. by apply m_Lit_mismatch.
Qed.

(** After the occurrence, nothing on the line ends a key. *)
Lemma rest_of_line_blocked kk l rest :
  quote_free l -> at_line_end rest ->
  blocked (CDot false) (fun t => forall cs, m JTL_AFTER_KEY kk t cs = None) (l ++ rest).
Proof.
  intros Hl Hrest. apply blocked_app.
  - intros a1 x a2 Hsplit cs. apply JTL_AFTER_KEY_needs_quote. apply Hl.
    rewrite Hsplit, elem_of_app, elem_of_cons. tauto.
  - apply blocked_at_line_end; [exact Hrest|].
    intros cs. by apply JTL_AFTER_KEY_fails_at_line_end.
Qed.

(** The quote before a comment without quotes ends no key: the comment
    would have to be a comma and white space, and then the comment capture
    finds no closing quote on the line. *)
Lemma quote_before_comment_ends_no_key kk q c l rest cs :
  quote_free c -> quote_free l -> at_line_end rest ->
  m JTL_AFTER_KEY kk (q :: c ++ sq :: ")"%char :: l ++ rest) cs = None.
Proof.
  intros Hc Hl Hrest. destruct c as [|c0 c'].
  - cbn [app]. by apply JTL_AFTER_KEY_needs_comma.
  - unfold JTL_AFTER_KEY. rewrite m_Cat, m_Chr_cons.
    destruct (cmatch quote q); [|reflexivity].
    rewrite m_Cat. cbn [txt list_ascii_of_string app]. rewrite m_Lit_cons.
    destruct (Ascii.eqb c0 ","); [|reflexivity].
    rewrite m_Lit_nil, m_Cat. apply Star_blocked. apply blocked_app.
    + intros a1 x a2 Hsplit. apply JTL_COMMENT_needs_quote. apply Hc.
      rewrite Hsplit, elem_of_cons, elem_of_app, elem_of_cons. tauto.
    + cbn [blocked]. split; [by apply JTL_COMMENT_fails|].
      intros H. discriminate H.
Qed.

Lemma after_empty_key_blocked kk c l rest :
  quote_free c -> quote_free l -> at_line_end rest ->
  blocked (CDot false) (fun t => forall cs, m JTL_AFTER_KEY kk t cs = None)
          (txt ", '" ++ c ++ txt "')" ++ l ++ rest).
Proof.
  intros Hc Hl Hrest. cbn [txt list_ascii_of_string app blocked].
  split; [intros cs; by apply JTL_AFTER_KEY_needs_quote|]. intros _.
  split; [intros cs; by apply JTL_AFTER_KEY_needs_quote|]. intros _.
  split; [intros cs; by apply quote_before_comment_ends_no_key|]. intros _.
  apply blocked_app.
  - intros a1 x a2 Hsplit cs. apply JTL_AFTER_KEY_needs_quote. apply Hc.
    rewrite Hsplit, elem_of_app, elem_of_cons. tauto.
  - cbn [blocked].
    split; [intros cs; by apply JTL_AFTER_KEY_needs_comma|]. intros _.
    split; [intros cs; by apply JTL_AFTER_KEY_needs_quote|]. intros _.
    by apply rest_of_line_blocked.
Qed.

Lemma after_key_empty_comment_blocked kk l rest :
  quote_free l -> at_line_end rest ->
  blocked (CDot false) (fun t => forall cs, m JTL_AFTER_KEY kk t cs = None)
          (txt "', '')" ++ l ++ rest).
Proof.
  intros Hl Hrest. cbn [txt list_ascii_of_string app blocked].
  split.
  { intros cs. unfold JTL_AFTER_KEY. rewrite m_Cat, m_Chr_cons. char_eval.
    rewrite m_Cat. cbn [txt list_ascii_of_string].
    rewrite m_Lit_cons, Ascii.eqb_refl, m_Lit_nil, m_Cat.
    apply Star_blocked. cbn [blocked].
    split; [by apply JTL_COMMENT_needs_quote|]. intros _.
    split; [|intros H; discriminate H].
    apply (JTL_COMMENT_fails kk "'" "'" (")"%char :: l) rest cs); [|exact Hrest].
    by apply quote_free_cons. }
  intros _. split; [intros cs; by apply JTL_AFTER_KEY_needs_quote|]. intros _.
  split; [intros cs; by apply JTL_AFTER_KEY_needs_quote|]. intros _.
  split; [intros cs; by apply JTL_AFTER_KEY_needs_comma|]. intros _.
  split; [intros cs; by apply JTL_AFTER_KEY_needs_comma|]. intros _.
  split; [intros cs; by apply JTL_AFTER_KEY_needs_quote|]. intros _.
  by apply rest_of_line_blocked.
Qed.

End EmptyArgument.

(** No match starts at [JTL('', 'c')] when no quote follows on the line. *)
Lemma empty_key_occurrence c l rest :
  quote_free c -> quote_free l -> at_line_end rest ->
  match_at JTL_REGEX (txt "JTL('', '" ++ c ++ txt "')" ++ l ++ rest) = None.
Proof.
  intros Hc Hl Hrest. unfold match_at. rewrite JTL_REGEX_parts, m_Cat.
  change (txt "JTL('', '" ++ c ++ txt "')" ++ l ++ rest)
    with (txt "JTL(" ++ "'"%char :: "'"%char :: txt ", '" ++ c ++ txt "')" ++ l ++ rest).
  rewrite m_Lit_app, m_Cat, m_Chr_cons. char_eval.
  unfold Plus. rewrite m_Cat, m_Group, m_Cat, m_Chr_cons. char_eval.
  apply Star_blocked.
  eapply (blocked_impl _ (fun t => forall cs, m JTL_AFTER_KEY _ t cs = None));
    [intros t H; apply H|].
  by apply after_empty_key_blocked.
Qed.

(** No match starts at [JTL('k', '')] when no quote follows on the line. *)
Lemma empty_comment_occurrence k l rest :
  quote_free k -> quote_free l -> at_line_end rest ->
  match_at JTL_REGEX (txt "JTL('" ++ k ++ txt "', '')" ++ l ++ rest) = None.
Proof.
  intros Hk Hl Hrest. unfold match_at. rewrite JTL_REGEX_parts, m_Cat.
  change (txt "JTL('" ++ k ++ txt "', '')" ++ l ++ rest)
    with (txt "JTL(" ++ "'"%char :: k ++ txt "', '')" ++ l ++ rest).
  rewrite m_Lit_app, m_Cat, m_Chr_cons. char_eval.
  unfold Plus. rewrite m_Cat, m_Group, m_Cat.
  destruct k as [|k0 k'].
  - cbn [txt list_ascii_of_string app]. rewrite m_Chr_cons. char_eval.
    apply Star_blocked.
    eapply (blocked_impl _ (fun t => forall cs, m JTL_AFTER_KEY _ t cs = None));
      [intros t H; apply H|].
    destruct (after_key_empty_comment_blocked
                (accept (txt "JTL('" ++ txt "', '')" ++ l ++ rest)) l rest Hl Hrest)
      as [_ H].
    apply H. reflexivity.
  - cbn [app]. rewrite m_Chr_cons. destruct (cmatch (CDot false) k0); [|reflexivity].
    apply Star_blocked.
    eapply (blocked_impl _ (fun t => forall cs, m JTL_AFTER_KEY _ t cs = None));
      [intros t H; apply H|].
    apply blocked_app.
    + intros a1 x a2 Hsplit cs. apply JTL_AFTER_KEY_needs_quote. apply Hk.
      rewrite Hsplit, elem_of_cons, elem_of_app, elem_of_cons. tauto.
    + by apply after_key_empty_comment_blocked.
Qed.

Lemma no_match_starts_at r pre s :
  match_at r s = None ->
  Forall (fun mo => m_start mo <> length pre) (finditer r (pre ++ s)).
Proof.
  intros Hnone. destruct (finditer_spec r (pre ++ s)) as (HF & _ & _).
  eapply Forall_impl; [exact HF|]. intros mo (_ & _ & _ & Hat) Heq.
  rewrite Nat.sub_0_r, Heq, drop_app_length in Hat. congruence.
Qed.

(** C9, as amended: every pair that the marker pattern extracts has a
    non-empty key and a non-empty comment; and no match starts at an
    occurrence [JTL('', 'c')] or [JTL('k', '')] (c and k without quote
    character) that no quote character follows on its line. *)
Theorem jtl_empty_argument_starts_no_match (text pre c k l rest : text) :
  quote_free c -> quote_free k -> quote_free l -> at_line_end rest ->
  (forall key comment,
     (key, comment) ∈ findall_jtl text -> key <> [] /\ comment <> [])
  /\ Forall (fun mo => m_start mo <> length pre)
            (finditer JTL_REGEX (pre ++ txt "JTL('', '" ++ c ++ txt "')" ++ l ++ rest))
  /\ Forall (fun mo => m_start mo <> length pre)
            (finditer JTL_REGEX (pre ++ txt "JTL('" ++ k ++ txt "', '')" ++ l ++ rest)).
Proof.
  intros Hc Hk Hl Hrest. split; [|split].
  - intros key comment. apply findall_jtl_not_empty.
  - apply no_match_starts_at. by apply empty_key_occurrence.
  - apply no_match_starts_at. by apply empty_comment_occurrence.
Qed.

Lemma quote_free_test (s : text) :
  forallb (fun c => negb (cmatch quote c)) s = true -> quote_free s.
Proof.
  intros H c Hc. rewrite forallb_forall in H.
  apply list_elem_of_In in Hc. specialize (H c Hc). by destruct (cmatch quote c).
Qed.

Lemma jtl_empty_argument_witness :
  (forall key comment,
     (key, comment) ∈ findall_jtl (txt "a = JTL('', 'comment'); b = JTL('key', '')") ->
     key <> [] /\ comment <> [])
  /\ Forall (fun mo => m_start mo <> length (txt "a = "))
            (finditer JTL_REGEX
               (txt "a = " ++ txt "JTL('', '" ++ txt "comment" ++ txt "')"
                ++ txt ";" ++ [nl] ++ txt "next line"))
  /\ Forall (fun mo => m_start mo <> length (txt "a = "))
            (finditer JTL_REGEX
               (txt "a = " ++ txt "JTL('" ++ txt "key" ++ txt "', '')"
                ++ txt ";" ++ [nl] ++ txt "next line")).
Proof.
  apply (jtl_empty_argument_starts_no_match
           (txt "a = JTL('', 'comment'); b = JTL('key', '')")
           (txt "a = ") (txt "comment") (txt "key") (txt ";")
           ([nl] ++ txt "next line")).
  - apply quote_free_test; reflexivity.
  - apply quote_free_test; reflexivity.
  - apply quote_free_test; reflexivity.
  - reflexivity.
Defined.

(** C9, as stated, fails: when a quote follows on the line, the lazy
    capture runs on to it, and the occurrence with the empty argument starts
    a match and yields a pair. *)
Lemma jtl_empty_argument_counterexample :
  finditer JTL_REGEX (txt "JTL('', 'c') JTL('k', 'd')")
  = [MatchObj 0 26 [(2, txt "d"); (1, txt "', 'c') JTL('k")]]
  /\ findall_jtl (txt "JTL('', 'c') JTL('k', 'd')")
     = [(txt "', 'c') JTL('k", txt "d")]
  /\ findall_jtl (txt "JTL('key', '') + f(')')")
     = [(txt "key", txt "') + f(")].
Proof. repeat split; vm_compute; reflexivity. Qed.

(** * Further properties of the module *)

(** ** The dictionary builders: what the dictionary holds *)

Lemma foldl_insert_lookup (sel : record -> text) (rs : list record)
    (d : localization_dictionary) (a : text) (e : LocalizationEntry) :
  foldl (fun d r => <[sel r := entry_of_record r]> d) d rs !! a = Some e ->
  d !! a = Some e \/ exists r, r ∈ rs /\ sel r = a /\ e = entry_of_record r.
Proof.
  revert d. induction rs as [|r rs IH]; intros d; cbn [foldl].
  - by left.
  - intros H. apply IH in H as [H|(r' & Hin & Hsel & He)].
    + destruct (decide (sel r = a)) as [Heq|Hne].
      * rewrite Heq, lookup_insert_eq in H. injection H as <-.
        right. exists r. split; [by left|by split].
      * rewrite lookup_insert_ne in H by exact Hne. by left.
    + right. exists r'. split; [by right|by split].
Qed.

Lemma foldl_insert_is_Some (sel : record -> text) (rs : list record)
    (d : localization_dictionary) (a : text) :
  is_Some (d !! a) \/ (exists r, r ∈ rs /\ sel r = a) ->
  is_Some (foldl (fun d r => <[sel r := entry_of_record r]> d) d rs !! a).
Proof.
  revert d. induction rs as [|r rs IH]; intros d; cbn [foldl].
  - intros [H|(r & Hin & _)]; [exact H|]. by apply elem_of_nil in Hin.
  - intros [H|(r' & Hin & Hsel)]; apply IH.
    + left. destruct (decide (sel r = a)) as [->|Hne].
      * rewrite lookup_insert_eq. by eexists.
      * by rewrite lookup_insert_ne.
    + apply elem_of_cons in Hin as [->|Hin].
      * left. rewrite Hsel, lookup_insert_eq. by eexists.
      * right. by exists r'.
Qed.

Lemma foldl_insert_size (sel : record -> text) (rs : list record)
    (d : localization_dictionary) :
  size (foldl (fun d r => <[sel r := entry_of_record r]> d) d rs)
  <= size d + length rs.
Proof.
  revert d. induction rs as [|r rs IH]; intros d; cbn [foldl length]; [lia|].
  etransitivity; [apply IH|].
  rewrite map_size_insert. destruct (d !! sel r); cbn; lia.
Qed.

(** X1: when opening or reading the file raises, the builder raises the
    same exception and returns no dictionary; for a file that is read, it
    returns a dictionary in which every entry is stored under its own
    selected attribute and is made of a record of the file, every record of
    the file has its attribute in the dictionary, and there are no more
    entries than records. *)
Theorem dictionary_holds_the_records (fs : filesystem) (file_path name : text)
    (sel : record -> text) :
  selector name sel ->
  (forall e : pyexc,
     read_file fs file_path = Raised e ->
     __generate_localization_dictionary_from_file fs file_path name = Raised e)
  /\ (forall file_data : text,
        read_file fs file_path = Returned file_data ->
        let rs := extract_header_comment_key_value_tuples_from_file file_data in
        exists d : localization_dictionary,
          __generate_localization_dictionary_from_file fs file_path name = Returned d
          /\ (forall (a : text) (e : LocalizationEntry),
                d !! a = Some e ->
                exists r : record, r ∈ rs /\ sel r = a /\ e = entry_of_record r)
          /\ (forall r : record, r ∈ rs -> is_Some (d !! sel r))
          /\ size d <= length rs).
Proof.
  intros Hsel. unfold __generate_localization_dictionary_from_file.
  split; [by intros e ->|]. intros file_data ->. cbv zeta.
  rewrite (fill_localization_dictionary_selected _ _ _ _ Hsel).
  eexists. split; [reflexivity|]. split; [|split].
  - intros a e H. apply foldl_insert_lookup in H as [H|H]; [|exact H].
    by rewrite lookup_empty in H.
  - intros r Hr. apply foldl_insert_is_Some. right. by exists r.
  - etransitivity; [apply foldl_insert_size|]. rewrite map_size_empty. lia.
Qed.

Lemma dictionary_holds_the_records_witness :
  (forall e : pyexc,
     read_file {[ txt "Localizable.strings" := two_entries_file ]}
       (txt "Localizable.strings") = Raised e ->
     __generate_localization_dictionary_from_file
       {[ txt "Localizable.strings" := two_entries_file ]}
       (txt "Localizable.strings") (txt "value")
     = Raised e)
  /\ (forall file_data : text,
        read_file {[ txt "Localizable.strings" := two_entries_file ]}
          (txt "Localizable.strings") = Returned file_data ->
        let rs := extract_header_comment_key_value_tuples_from_file file_data in
        exists d : localization_dictionary,
          __generate_localization_dictionary_from_file
            {[ txt "Localizable.strings" := two_entries_file ]}
            (txt "Localizable.strings") (txt "value") = Returned d
          /\ (forall (a : text) (e : LocalizationEntry),
                d !! a = Some e ->
                exists r : record,
                  r ∈ rs /\ record_value r = a /\ e = entry_of_record r)
          /\ (forall r : record, r ∈ rs -> is_Some (d !! record_value r))
          /\ size d <= length rs).
Proof.
  apply (dictionary_holds_the_records
           {[ txt "Localizable.strings" := two_entries_file ]}
           (txt "Localizable.strings") (txt "value") record_value).
  constructor.
Defined.

(** ** The marker extractor: how it updates the dictionary *)

Lemma merge_pairs_app (p1 p2 : list (text * text)) (d : results_dictionary) :
  merge_pairs (p1 ++ p2) d = merge_pairs p2 (merge_pairs p1 d).
Proof. apply foldl_app. Qed.

Lemma merge_pairs_other (pairs : list (text * text)) (d : results_dictionary)
    (k : text) :
  (forall c, (k, c) ∉ pairs) -> merge_pairs pairs d !! k = d !! k.
Proof.
  unfold merge_pairs. revert d. induction pairs as [|[k' c'] pairs IH]; intros d H.
  - reflexivity.
  - cbn [foldl fst snd]. rewrite IH.
    + apply lookup_insert_ne. intros ->. apply (H c'). by left.
    + intros c Hc. apply (H c). by right.
Qed.

Lemma merge_pairs_last (before after : list (text * text))
    (d : results_dictionary) (k c : text) :
  (forall c', (k, c') ∉ after) ->
  merge_pairs (before ++ (k, c) :: after) d !! k = Some c.
Proof.
  intros H. rewrite merge_pairs_app.
  change ((k, c) :: after) with ([(k, c)] ++ after).
  rewrite merge_pairs_app, (merge_pairs_other _ _ _ H).
  cbn. apply lookup_insert_eq.
Qed.

(** X2: when opening or reading the file raises, the marker extractor
    raises the same exception and leaves the dictionary as it was; on a file
    that is read, it raises nothing, a key that the file does not mention
    keeps what it had in the dictionary, and a key that the file mentions
    gets the comment of its last mention in the file. *)
Theorem jtl_extractor_updates_the_dictionary (fs : filesystem)
    (results_dict : results_dictionary) (file_path : text) :
  (forall e : pyexc,
     read_file fs file_path = Raised e ->
     extract_jtl_string_pairs_from_text_file fs results_dict file_path
     = (results_dict, Some e))
  /\ (forall data : text,
        read_file fs file_path = Returned data ->
        exists d : results_dictionary,
          extract_jtl_string_pairs_from_text_file fs results_dict file_path
          = (d, None)
          /\ (forall k : text,
                (forall c, (k, c) ∉ findall_jtl data) -> d !! k = results_dict !! k)
          /\ (forall (before after : list (text * text)) (k c : text),
                findall_jtl data = before ++ (k, c) :: after ->
                (forall c', (k, c') ∉ after) ->
                d !! k = Some c)).
Proof.
  unfold extract_jtl_string_pairs_from_text_file.
  split; [by intros e ->|]. intros data ->.
  eexists. split; [reflexivity|]. split.
  - intros k Hk. by apply merge_pairs_other.
  - intros before after k c -> Hafter. by apply merge_pairs_last.
Qed.

(** ** The directory walk: what it does with the calls of the extractor *)

Section WalkRun.
Variable extract_func : extractor.
Variable filter_func : text -> bool.

(** The loop of the walk over the files that pass the filter. *)
Fixpoint process_files (files : list (text * text)) (st : walk_state)
    : walk_state * option pyexc :=
  match files with
  | [] => (st, None)
  | f :: files' =>
      match extract_func (result st) f.2 with
      | (d, None) => process_files files' (WalkState d (stdout st))
      | (d, Some e) =>
          if exc_is_Exception e then
            process_files files'
              (WalkState d (stdout st ++ [txt "Error in file " ++ f.1; exc_str e]))
          else (WalkState d (stdout st), Some e)
      end
  end.

Lemma process_files_app files1 files2 st :
  process_files (files1 ++ files2) st
  = match process_files files1 st with
    | (st', None) => process_files files2 st'
    | (st', Some e) => (st', Some e)
    end.
Proof.
  revert st. induction files1 as [|f l IH]; intros st; [reflexivity|].
  cbn [app process_files]. destruct (extract_func (result st) f.2) as [d [e|]].
  - destruct (exc_is_Exception e); [apply IH|reflexivity].
  - apply IH.
Qed.

Lemma visit_files_process root filenames st :
  visit_files extract_func filter_func root filenames st
  = process_files (map (fun file_name => (file_name, path_join root file_name))
                       (List.filter filter_func filenames)) st.
Proof.
  revert st. induction filenames as [|file_name rest IH]; intros st; [reflexivity|].
  cbn [visit_files List.filter]. destruct (filter_func file_name); [|apply IH].
  cbn [map process_files fst snd].
  destruct (extract_func (result st) (path_join root file_name)) as [d [e|]].
  - destruct (exc_is_Exception e); [apply IH|reflexivity].
  - apply IH.
Qed.

Lemma visit_directories_process os_walk st :
  visit_directories extract_func filter_func os_walk st
  = process_files (selected_files filter_func os_walk) st.
Proof.
  revert st. induction os_walk as [|[[root dirnames] filenames] walk' IH]; intros st.
  - reflexivity.
  - cbn [visit_directories selected_files flat_map].
    rewrite visit_files_process, process_files_app.
    destruct (process_files _ st) as [st' [e|]]; [reflexivity|apply IH].
Qed.

(** Every call of the extractor on [files], in turn from [d], raised
    nothing but exceptions derived from [Exception]. *)
Fixpoint all_caught (files : list (text * text)) (d : results_dictionary) : Prop :=
  match files with
  | [] => True
  | f :: files' =>
      match extract_func d f.2 with
      | (d', None) => all_caught files' d'
      | (d', Some e) => exc_is_Exception e = true /\ all_caught files' d'
      end
  end.

Lemma process_files_all_caught files st :
  all_caught files (result st) ->
  process_files files st
  = (WalkState (accumulate extract_func files (result st))
               (stdout st ++ reports extract_func files (result st)),
     None).
Proof.
  revert st. induction files as [|f l IH]; intros [d out]; cbn [result stdout].
  - intros _. cbn. by rewrite app_nil_r.
  - cbn [all_caught process_files accumulate reports foldl result stdout].
    fold (accumulate extract_func l).
    destruct (extract_func d f.2) as [d' [e|]]; cbn [fst].
    + intros [-> H]. rewrite (IH (WalkState d' _) H). cbn [result stdout].
      by rewrite <- app_assoc.
    + intros H. by rewrite (IH (WalkState d' _) H).
Qed.

(** X3: an exception of the extractor that does not derive from
    [Exception] is not caught: the walk raises it, returns no dictionary,
    prints the reports of the earlier failures only, and calls the
    extractor on none of the later files. *)
Theorem walk_raises_what_it_does_not_catch
    (os_walk : list (text * list text * list text))
    (before after : list (text * text)) (failing : text * text)
    (left : results_dictionary) (e : pyexc) :
  selected_files filter_func os_walk = before ++ failing :: after ->
  all_caught before ∅ ->
  extract_func (accumulate extract_func before ∅) failing.2 = (left, Some e) ->
  exc_is_Exception e = false ->
  extract_string_pairs_in_directory os_walk extract_func filter_func
  = (reports extract_func before ∅, Raised e).
Proof.
  intros Hsplit Hbefore Hfail He. unfold extract_string_pairs_in_directory.
  rewrite visit_directories_process, Hsplit, process_files_app.
  rewrite (process_files_all_caught before (WalkState ∅ []) Hbefore).
  cbn [process_files result stdout app]. rewrite Hfail, He. reflexivity.
Qed.

End WalkRun.

(** An extractor that is interrupted at [stop.m]. *)
Definition KeyboardInterrupt : pyexc := PyExc false [].

Definition interrupted_extractor (fs : filesystem) : extractor :=
  fun results_dict file_path =>
    if decide (file_path = txt "src/stop.m") then (results_dict, Some KeyboardInterrupt)
    else extract_jtl_string_pairs_from_text_file fs results_dict file_path.

Lemma walk_raises_what_it_does_not_catch_witness :
  extract_string_pairs_in_directory
    [(txt "src", [], [txt "a.m"; txt "b.m"; txt "stop.m"; txt "c.m"])]
    (interrupted_extractor example_files) ends_in_dot_m
  = (reports (interrupted_extractor example_files)
       [(txt "a.m", txt "src/a.m"); (txt "b.m", txt "src/b.m")] ∅,
     Raised KeyboardInterrupt).
Proof.
  apply (walk_raises_what_it_does_not_catch
           (interrupted_extractor example_files) ends_in_dot_m
           [(txt "src", [], [txt "a.m"; txt "b.m"; txt "stop.m"; txt "c.m"])]
           [(txt "a.m", txt "src/a.m"); (txt "b.m", txt "src/b.m")]
           [(txt "c.m", txt "src/c.m")]
           (txt "stop.m", txt "src/stop.m")
           (<[txt "GREETING" := txt "Hello text"]> ∅)
           KeyboardInterrupt).
  - reflexivity.
  - vm_compute. split; [reflexivity|exact I].
  - vm_compute. reflexivity.
  - reflexivity.
Defined.

(** ** The walk with the marker extractor *)

(** The pairs of a file that is read, and the two lines of the report for
    a file at which opening or reading raises: the name of the file, and
    the text of the exception raised. *)
Definition pairs_of_file (fs : filesystem) (f : text * text) : list (text * text) :=
  match read_file fs f.2 with
  | Returned data => findall_jtl data
  | Raised _ => []
  end.

Definition report_of_file (fs : filesystem) (f : text * text) : list text :=
  match read_file fs f.2 with
  | Returned _ => []
  | Raised e => [txt "Error in file " ++ f.1; exc_str e]
  end.

Lemma accumulate_jtl fs files d :
  accumulate (extract_jtl_string_pairs_from_text_file fs) files d
  = merge_pairs (flat_map (pairs_of_file fs) files) d.
Proof.
  revert d. induction files as [|f l IH]; intros d; [reflexivity|].
  change (accumulate (extract_jtl_string_pairs_from_text_file fs) (f :: l) d)
    with (accumulate (extract_jtl_string_pairs_from_text_file fs) l
            (extract_jtl_string_pairs_from_text_file fs d f.2).1).
  cbn [flat_map]. rewrite IH, merge_pairs_app. f_equal.
  unfold extract_jtl_string_pairs_from_text_file, pairs_of_file.
  by destruct (read_file fs f.2).
Qed.

Lemma reports_jtl fs files d :
  reports (extract_jtl_string_pairs_from_text_file fs) files d
  = flat_map (report_of_file fs) files.
Proof.
  revert d. induction files as [|f l IH]; intros d; [reflexivity|].
  cbn [reports flat_map].
  unfold extract_jtl_string_pairs_from_text_file at 1, report_of_file at 1.
  destruct (read_file fs f.2); cbn [app]; by rewrite IH.
Qed.

(** X4: with the marker extractor the walk always returns: the result is
    the pairs of all the files that pass the filter and are read, merged in
    the order of the walk and of each file (so the last mention of a key
    gives its comment), and two lines are printed for each file that passes
    the filter and at which opening or reading raises: the name of the file,
    and the text of the exception that was raised. *)
Theorem walk_with_the_marker_extractor (fs : filesystem)
    (os_walk : list (text * list text * list text)) (filter_func : text -> bool) :
  let files := selected_files filter_func os_walk in
  extract_string_pairs_in_directory os_walk
    (extract_jtl_string_pairs_from_text_file fs) filter_func
  = (flat_map (report_of_file fs) files,
     Returned (merge_pairs (flat_map (pairs_of_file fs) files) ∅)).
Proof.
  cbv zeta. unfold extract_string_pairs_in_directory.
  rewrite (visit_directories_accumulates _ _ _ _
             (jtl_extractor_raises_only_Exception fs)).
  cbn [result stdout app]. by rewrite accumulate_jtl, reports_jtl.
Qed.

(** ** Escaping the key: what the substitution computes *)

(** The substitution, as a recursion on the key: a double quote after a
    character other than a backslash gets a backslash, and the scan goes on
    after the quote; any other character is copied. *)
Fixpoint escape_scan (s : text) : text :=
  match s with
  | [] => []
  | x :: s' =>
      match s' with
      | y :: s'' =>
          if negb (Ascii.eqb x bs) && Ascii.eqb y dq
          then x :: bs :: dq :: escape_scan s''
          else x :: escape_scan s'
      | [] => [x]
      end
  end.

Lemma escape_scan_cons (x y : ascii) (s : text) :
  escape_scan (x :: y :: s)
  = if negb (Ascii.eqb x bs) && Ascii.eqb y dq
    then x :: bs :: dq :: escape_scan s
    else x :: escape_scan (y :: s).
Proof. reflexivity. Qed.

Lemma UNESCAPED_QUOTE_REGEX_at (s : text) :
  match_at UNESCAPED_QUOTE_REGEX s
  = match s with
    | x :: y :: _ =>
        if negb (Ascii.eqb x bs) && Ascii.eqb y dq then Some (2, [(1, [x])]) else None
    | _ => None
    end.
Proof.
  unfold match_at, UNESCAPED_QUOTE_REGEX. rewrite m_Cat, m_Group.
  destruct s as [|x [|y s]]; [reflexivity| |].
  - rewrite m_Chr_cons. by destruct (cmatch _ x).
  - rewrite m_Chr_cons. cbn [cmatch mem_ascii existsb orb].
    rewrite orb_false_r. destruct (Ascii.eqb x bs); [reflexivity|].
    cbn [negb andb]. rewrite m_Lit_cons. destruct (Ascii.eqb y dq); [|reflexivity].
    rewrite m_Lit_nil. cbn [length]. do 2 f_equal.
    + lia.
    + replace (S (S (length s)) - S (length s)) with 1 by lia. reflexivity.
Qed.

Lemma sub_scan_escape_scan fuel (s : text) :
  length s < fuel ->
  sub_scan fuel UNESCAPED_QUOTE_REGEX (parse_template [bs; "1"%char; bs; dq]) s
  = escape_scan s.
Proof.
  revert s. induction fuel as [|fuel IH]; intros s Hlen; [lia|].
  cbn [sub_scan]. rewrite UNESCAPED_QUOTE_REGEX_at.
  destruct s as [|x [|y s]]; [reflexivity| |].
  - cbn [escape_scan]. f_equal. apply IH. cbn in *. lia.
  - rewrite escape_scan_cons. destruct (negb (Ascii.eqb x bs) && Ascii.eqb y dq).
    + change (drop 2 (x :: y :: s)) with s.
      rewrite IH by (cbn in *; lia). reflexivity.
    + f_equal. apply IH. cbn in *. lia.
Qed.

Lemma escape_key_escape_scan (entry_key : text) :
  escape_key entry_key = escape_scan entry_key.
Proof. apply sub_scan_escape_scan. lia. Qed.

Lemma escape_scan_length (s : text) : length s <= length (escape_scan s).
Proof.
  assert (H : forall n (t : text), length t <= n -> length t <= length (escape_scan t)).
  { induction n as [|n IH]; intros t Hlen.
    - destruct t; [reflexivity|cbn in Hlen; lia].
    - destruct t as [|x [|y t]]; [reflexivity|reflexivity|].
      rewrite escape_scan_cons. cbn [length] in Hlen.
      destruct (negb (Ascii.eqb x bs) && Ascii.eqb y dq); cbn [length].
      + specialize (IH t ltac:(lia)). lia.
      + specialize (IH (y :: t) ltac:(cbn [length]; lia)). cbn [length] in IH. lia. }
  by apply (H (length s)).
Qed.

Lemma escape_scan_grows (s a b : text) (x : ascii) :
  s = a ++ x :: dq :: b -> x <> bs -> length s < length (escape_scan s).
Proof.
  revert a. induction s as [|x0 s IH]; intros a Hs Hx.
  - by destruct a.
  - destruct s as [|y0 s]; [by destruct a as [|? [|? ?]]|].
    rewrite escape_scan_cons. destruct (negb (Ascii.eqb x0 bs) && Ascii.eqb y0 dq) eqn:E.
    + cbn [length]. pose proof (escape_scan_length s). lia.
    + destruct a as [|a0 a]; cbn [app] in Hs.
      * injection Hs as -> -> ->. exfalso.
        rewrite Ascii.eqb_refl, andb_true_r in E.
        apply negb_false_iff, Ascii.eqb_eq in E. contradiction.
      * injection Hs as -> Hs. specialize (IH a Hs Hx). cbn [length] in *. lia.
Qed.

Lemma escape_scan_fixed (s : text) :
  (forall a x b, s = a ++ x :: dq :: b -> x = bs) -> escape_scan s = s.
Proof.
  induction s as [|x0 s IH]; intros H; [reflexivity|].
  destruct s as [|y0 s]; [reflexivity|].
  rewrite escape_scan_cons. destruct (negb (Ascii.eqb x0 bs) && Ascii.eqb y0 dq) eqn:E.
  - apply andb_true_iff in E as [E1 E2]. apply Ascii.eqb_eq in E2 as ->.
    rewrite (H [] x0 s eq_refl), Ascii.eqb_refl in E1. discriminate.
  - f_equal. apply IH. intros a x b Hs. apply (H (x0 :: a) x b). by rewrite Hs.
Qed.

(** X5: the keys that the escaping leaves as they are are exactly those in
    which every double quote that has a character before it has a backslash
    before it. *)
Theorem escape_key_fixed_points (entry_key : text) :
  escape_key entry_key = entry_key
  <-> (forall a x b, entry_key = a ++ x :: dq :: b -> x = bs).
Proof.
  rewrite escape_key_escape_scan. split.
  - intros Hfix a x b Hs. destruct (decide (x = bs)) as [|Hx]; [assumption|].
    pose proof (escape_scan_grows _ _ _ _ Hs Hx) as Hlen.
    rewrite Hfix in Hlen. lia.
  - apply escape_scan_fixed.
Qed.

Lemma is_prefix_quote (x : ascii) (s : text) :
  is_prefix [dq] (x :: s) = Ascii.eqb x dq.
Proof. cbn [is_prefix]. by rewrite andb_true_r, Ascii.eqb_sym. Qed.

Lemma no_quote_pair_cons (x : ascii) (s : text) :
  occursb [dq; dq] (x :: s) = false ->
  occursb [dq; dq] s = false
  /\ (Ascii.eqb x dq = true -> is_prefix [dq] s = false).
Proof.
  cbn [occursb]. intros H. apply orb_false_iff in H as [H1 H2].
  split; [exact H2|]. intros Hx. destruct s as [|y s]; [reflexivity|].
  rewrite is_prefix_quote. cbn [is_prefix] in H1.
  rewrite andb_true_r, !(Ascii.eqb_sym dq), Hx in H1. exact H1.
Qed.

(** In [escape_scan s] no double quote is left without a backslash before
    it, when [s] has no two double quotes in a row; the first character may
    be a double quote if a backslash stands before [s]. *)
Lemma escape_scan_escapes (n : nat) (s : text) :
  length s <= n ->
  occursb [dq; dq] s = false ->
  unescaped_quote_after true (escape_scan s) = false
  /\ (is_prefix [dq] s = false -> unescaped_quote_after false (escape_scan s) = false).
Proof.
  revert s. induction n as [|n IH]; intros s Hlen Hdd.
  { destruct s; [by split|cbn in Hlen; lia]. }
  destruct s as [|x [|y s]]; [by split| |].
  - cbn [escape_scan unescaped_quote_after]. rewrite is_prefix_quote.
    split; [by rewrite andb_false_r|]. by intros ->.
  - apply no_quote_pair_cons in Hdd as [Hdd Hxy].
    pose proof (no_quote_pair_cons _ _ Hdd) as [Hdd' Hys].
    rewrite is_prefix_quote in Hxy. rewrite is_prefix_quote.
    rewrite escape_scan_cons. destruct (Ascii.eqb x bs) eqn:Exb; cbn [negb andb].
    + (* a backslash: the next character is protected *)
      apply Ascii.eqb_eq in Exb as ->.
      destruct (IH (y :: s)) as [IH1 _]; [cbn in *; lia|exact Hdd|].
      cbn [unescaped_quote_after]. change (Ascii.eqb bs dq) with false.
      change (Ascii.eqb bs bs) with true. cbn [andb orb]. by rewrite IH1.
    + destruct (Ascii.eqb y dq) eqn:Eyd.
      * (* an unescaped quote: it gets its backslash *)
        assert (Exd : Ascii.eqb x dq = false).
        { destruct (Ascii.eqb x dq); [|reflexivity]. by specialize (Hxy eq_refl). }
        destruct (IH s) as [_ IH2]; [cbn in *; lia|exact Hdd'|].
        cbn [unescaped_quote_after]. rewrite Exd, Exb.
        change (Ascii.eqb bs dq) with false. change (Ascii.eqb bs bs) with true.
        change (Ascii.eqb dq dq) with true. change (Ascii.eqb dq bs) with false.
        cbn [andb orb negb]. rewrite (IH2 (Hys eq_refl)). by split.
      * destruct (IH (y :: s)) as [_ IH2]; [cbn in *; lia|exact Hdd|].
        rewrite is_prefix_quote in IH2. specialize (IH2 Eyd).
        cbn [unescaped_quote_after]. rewrite Exb, IH2.
        split; [by rewrite andb_false_r|]. by intros ->.
Qed.

Lemma is_prefix_true (w s : text) : is_prefix w s = true -> exists t, s = w ++ t.
Proof.
  revert s. induction w as [|x w IH]; intros s H; [by exists s|].
  destruct s as [|y s]; [discriminate|]. cbn [is_prefix] in H.
  apply andb_true_iff in H as [Hx H]. apply Ascii.eqb_eq in Hx as ->.
  apply IH in H as [t ->]. by exists t.
Qed.

Lemma occursb_true (w s : text) : occursb w s = true -> occurs w s.
Proof.
  induction s as [|y s IH]; cbn [occursb]; intros H.
  - rewrite orb_false_r in H. apply is_prefix_true in H as [t ->]. by exists [], t.
  - apply orb_true_iff in H as [H|H].
    + apply is_prefix_true in H as [t ->]. by exists [], t.
    + apply IH in H as (s1 & s2 & ->). by exists (y :: s1), s2.
Qed.

Lemma unescaped_quote_after_false (escaped : bool) (s a b : text) :
  unescaped_quote_after escaped s = false ->
  s = a ++ dq :: b ->
  (a = [] /\ escaped = true) \/ exists a', a = a' ++ [bs].
Proof.
  revert escaped s. induction a as [|c a IH]; intros escaped s H ->.
  - left. split; [reflexivity|]. cbn in H. by destruct escaped.
  - right. cbn [app unescaped_quote_after] in H.
    apply orb_false_iff in H as [_ H].
    destruct (IH _ _ H eq_refl) as [[-> Hc]|[a' ->]].
    + apply Ascii.eqb_eq in Hc as ->. by exists [].
    + by exists (c :: a').
Qed.

(** X6: in the escaped form of a key that does not start with a double
    quote and has no two double quotes in a row, every double quote has a
    backslash before it. *)
Theorem escape_key_escapes_separate_quotes (entry_key : text) :
  (forall rest, entry_key <> dq :: rest) ->
  ~ occurs [dq; dq] entry_key ->
  has_unescaped_quote (escape_key entry_key) = false
  /\ (forall a b, escape_key entry_key = a ++ dq :: b -> exists a', a = a' ++ [bs]).
Proof.
  intros Hstart Hpair. rewrite escape_key_escape_scan.
  assert (Hdd : occursb [dq; dq] entry_key = false).
  { destruct (occursb [dq; dq] entry_key) eqn:E; [|reflexivity].
    by apply occursb_true in E. }
  assert (Hpre : is_prefix [dq] entry_key = false).
  { destruct (is_prefix [dq] entry_key) eqn:E; [|reflexivity].
    apply is_prefix_true in E as [t ->]. by destruct (Hstart t). }
  destruct (escape_scan_escapes _ _ (Nat.le_refl _) Hdd) as [_ H].
  specialize (H Hpre). split; [exact H|]. intros a b Hsplit.
  destruct (unescaped_quote_after_false _ _ _ _ H Hsplit) as [[_ ?]|?];
    [discriminate|assumption].
Qed.

Lemma not_prefix_test (w s : text) :
  is_prefix w s = false -> forall t, s <> w ++ t.
Proof. intros H t ->. by rewrite is_prefix_app in H. Qed.

Lemma escape_key_escapes_separate_quotes_witness :
  has_unescaped_quote
    (escape_key (txt "say " ++ [dq] ++ txt "hi" ++ [dq] ++ txt " to " ++ [bs; dq]))
  = false
  /\ (forall a b,
        escape_key (txt "say " ++ [dq] ++ txt "hi" ++ [dq] ++ txt " to " ++ [bs; dq])
        = a ++ dq :: b ->
        exists a', a = a' ++ [bs]).
Proof.
  apply (escape_key_escapes_separate_quotes
           (txt "say " ++ [dq] ++ txt "hi" ++ [dq] ++ txt " to " ++ [bs; dq])).
  - apply (not_prefix_test [dq]). reflexivity.
  - apply occursb_false. reflexivity.
Defined.

(** ** Appending a section *)

Lemma append_entries_rendered fd items :
  append_entries fd items
  = Some (fd ++ concat (map (fun p => [nl] ++ rendered_entry p.2 p.1) items)).
Proof.
  revert fd. induction items as [|[k c] l IH]; intros fd.
  - simpl. by rewrite app_nil_r.
  - cbn [append_entries]. rewrite write_entry_to_file_rendered.
    cbn [mbind option_bind]. rewrite IH. cbn [map concat fst snd].
    f_equal. by rewrite <- !app_assoc.
Qed.

Lemma write_section_header_to_file_rendered fd section_name :
  write_section_header_to_file fd section_name
  = Some (fd ++ txt "/*** " ++ section_name ++ txt " ***/" ++ [nl]).
Proof.
  unfold write_section_header_to_file. cbn. reflexivity.
Qed.

(** X7: [append_dictionary_to_file] writes the section header line, and
    then the items of the mapping in ascending order of comment (items with
    the same comment in the order in which the mapping yields them), each as
    an empty line followed by the rendered entry. In a file that did not
    exist or had no text, this is all the text of the file; in a file that
    had text, the old text is kept, and the character U+FEFF stands between
    it and the section header. *)
Theorem append_dictionary_to_file_layout (fs : filesystem)
    (iteritems : list (text * text)) (file_path section_name : text) :
  let emitted := sorted_by_comment iteritems in
  let section :=
    txt "/*** " ++ section_name ++ txt " ***/" ++ [nl]
    ++ concat (map (fun p => [nl] ++ rendered_entry p.2 p.1) emitted) in
  emitted ≡ₚ iteritems
  /\ StronglySorted comment_le emitted
  /\ (forall c, filter (fun p : text * text => p.2 = c) emitted
                = filter (fun p : text * text => p.2 = c) iteritems)
  /\ (fs !! file_path = None \/ fs !! file_path = Some [] ->
      append_dictionary_to_file fs iteritems file_path section_name
      = Some (<[file_path := section]> fs))
  /\ (forall old_text : text,
        fs !! file_path = Some old_text -> old_text <> [] ->
        append_dictionary_to_file fs iteritems file_path section_name
        = Some (<[file_path := old_text ++ BOM ++ section]> fs)).
Proof.
  cbv zeta. split; [apply sorted_by_comment_perm|].
  split; [apply sorted_by_comment_sorted|].
  split; [intros c; apply sorted_by_comment_stable|].
  unfold append_dictionary_to_file, open_strings_file_to_append.
  rewrite write_section_header_to_file_rendered. cbn [mbind option_bind].
  rewrite append_entries_rendered. cbn [mbind option_bind].
  split.
  - intros [-> | ->]; by rewrite <- ?app_assoc.
  - intros old_text -> Hold. destruct old_text as [|c old_text]; [done|].
    by rewrite <- !app_assoc.
Qed.

(** A section appended to a file with text, and to a new file. *)
Example appended_file_text :
  append_dictionary_to_file {[ txt "Localizable.strings" := txt "old text" ++ [nl] ]}
    [(txt "OK", txt "Confirm")] (txt "Localizable.strings") (txt "Dialogs")
  = Some (<[txt "Localizable.strings" :=
              txt "old text" ++ [nl] ++ BOM ++ txt "/*** Dialogs ***/" ++ [nl; nl]
              ++ txt "/* Confirm */" ++ [nl; dq] ++ txt "OK" ++ [dq] ++ txt " = "
              ++ [dq] ++ txt "OK" ++ [dq; semi; nl]]>
            {[ txt "Localizable.strings" := txt "old text" ++ [nl] ]})
  /\ append_dictionary_to_file ∅
       [(txt "OK", txt "Confirm")] (txt "Localizable.strings") (txt "Dialogs")
     = Some (<[txt "Localizable.strings" :=
                 txt "/*** Dialogs ***/" ++ [nl; nl]
                 ++ txt "/* Confirm */" ++ [nl; dq] ++ txt "OK" ++ [dq] ++ txt " = "
                 ++ [dq] ++ txt "OK" ++ [dq; semi; nl]]> ∅).
Proof. split; reflexivity. Qed.

(** ** Every extracted pair stands in the text *)

Lemma runs_plain r s cs s' cs' :
  no_group r = true -> runs r s cs s' cs' ->
  exists w, s = w ++ s' /\ matches r w /\ cs' = cs.
Proof.
  intros Hr H. pose proof (runs_no_group _ _ _ _ _ Hr H) as ->.
  apply runs_matches in H as (w & -> & Hw). by exists w.
Qed.

Lemma runs_Group_word n r s cs s1 cs' :
  runs (Group n r) s cs s1 cs' ->
  exists w cs1, s = w ++ s1 /\ matches r w /\ cs' = (n, w) :: cs1
                /\ runs r s cs s1 cs1.
Proof.
  intros H. apply runs_Group_inv in H as (cs1 & H & ->).
  pose proof (runs_matches _ _ _ _ _ H) as (w & -> & Hw).
  exists w, cs1. by rewrite take_consumed.
Qed.

Lemma runs_Lit_inv l s cs s' cs' :
  runs (Lit l) s cs s' cs' -> s = l ++ s' /\ cs' = cs.
Proof.
  intros H. apply runs_plain in H as (w & -> & Hw & ->); [|apply no_group_Lit].
  by apply matches_Lit_inv in Hw as ->.
Qed.

Lemma runs_Chr_class cl s cs s' cs' :
  runs (Chr cl) s cs s' cs' ->
  exists c, s = c :: s' /\ cs' = cs /\ cmatch cl c = true.
Proof. inversion 1; subst. eauto. Qed.

Lemma Forall_dot_not_newline (w : text) :
  Forall (fun c => cmatch (CDot false) c = true) w -> nl ∉ w.
Proof.
  intros H Hin. rewrite Forall_forall in H. specialize (H nl Hin). discriminate.
Qed.

Lemma matches_Plus_Chr_inv greedy cl w :
  matches (Plus greedy (Chr cl)) w ->
  w <> [] /\ Forall (fun c => cmatch cl c = true) w.
Proof.
  unfold Plus. intros H. apply matches_Cat_inv in H as (w1 & w2 & -> & H1 & H2).
  apply matches_Chr_inv in H1 as (c & -> & Hc).
  apply matches_Star_Chr_inv in H2. split; [discriminate|by constructor].
Qed.

(** The text of a marker: [JTL(], a quote, the key, a quote, a comma, white
    space, a quote, the comment, a quote, [)]. *)
Definition marker_text (q1 : ascii) (k : text) (q2 : ascii) (ws : text)
    (q3 : ascii) (c : text) (q4 : ascii) : text :=
  txt "JTL(" ++ [q1] ++ k ++ [q2] ++ txt "," ++ ws ++ [q3] ++ c ++ [q4] ++ txt ")".

Lemma JTL_REGEX_run s s' cs' :
  runs JTL_REGEX s [] s' cs' ->
  exists q1 k q2 ws q3 c q4,
    s = marker_text q1 k q2 ws q3 c q4 ++ s'
    /\ cs' = [(2, c); (1, k)]
    /\ Forall (fun q => cmatch quote q = true) [q1; q2; q3; q4]
    /\ Forall (fun x => is_space x = true) ws
    /\ k <> [] /\ c <> [] /\ (nl ∉ k) /\ (nl ∉ c).
Proof.
  unfold JTL_REGEX. intros H.
  apply runs_Cat_inv in H as (s1 & c1 & H1 & H).
  apply runs_Lit_inv in H1 as [-> ->].
  apply runs_Cat_inv in H as (s2 & c2 & H2 & H).
  apply runs_Chr_class in H2 as (q1 & -> & -> & Hq1).
  apply runs_Cat_inv in H as (s3 & c3 & H3 & H).
  apply runs_Group_word in H3 as (k & ck & -> & Hk & -> & H3).
  apply runs_no_group in H3 as ->; [|reflexivity].
  apply matches_Plus_Chr_inv in Hk as [Hk Hknl].
  apply runs_Cat_inv in H as (s4 & c4 & H4 & H).
  apply runs_Chr_class in H4 as (q2 & -> & -> & Hq2).
  apply runs_Cat_inv in H as (s5 & c5 & H5 & H).
  apply runs_Lit_inv in H5 as [-> ->].
  apply runs_Cat_inv in H as (s6 & c6 & H6 & H).
  apply runs_plain in H6 as (ws & -> & Hws & ->); [|reflexivity].
  apply matches_Star_Chr_inv in Hws.
  apply runs_Cat_inv in H as (s7 & c7 & H7 & H).
  apply runs_Chr_class in H7 as (q3 & -> & -> & Hq3).
  apply runs_Cat_inv in H as (s8 & c8 & H8 & H).
  apply runs_Group_word in H8 as (c & cc & -> & Hc & -> & H8).
  apply runs_no_group in H8 as ->; [|reflexivity].
  apply matches_Plus_Chr_inv in Hc as [Hc Hcnl].
  apply runs_Cat_inv in H as (s9 & c9 & H9 & H).
  apply runs_Chr_class in H9 as (q4 & -> & -> & Hq4).
  apply runs_Lit_inv in H as [-> ->].
  exists q1, k, q2, ws, q3, c, q4. unfold marker_text.
  split; [by rewrite <- !app_assoc|]. split; [reflexivity|].
  split; [by repeat constructor|]. split; [exact Hws|].
  repeat split; try assumption; by apply Forall_dot_not_newline.
Qed.

(** What a match object of a scan says about the subject. *)
Lemma found_at_runs r s mo :
  found_at r 0 s mo ->
  exists before after,
    s = before ++ take (m_end mo - m_start mo) (drop (m_start mo) s) ++ after
    /\ length before = m_start mo
    /\ runs r (drop (m_start mo) s) [] after (m_caps mo).
Proof.
  intros (_ & H1 & H2 & Hat). rewrite Nat.sub_0_r in Hat.
  apply match_at_runs in Hat as (Hn & Hruns & _).
  exists (take (m_start mo) s), (drop (m_end mo - m_start mo) (drop (m_start mo) s)).
  split; [by rewrite !take_drop|]. split; [|exact Hruns].
  rewrite length_take. cbn in H2. lia.
Qed.

(** X8: every pair that the marker pattern extracts stands in the text as
    a marker: [JTL(], a quote character, the key, a quote character, a
    comma, optional white space, a quote character, the comment, a quote
    character and [)]; the key and the comment are not empty and contain no
    newline. *)
Theorem findall_jtl_pairs_stand_in_the_text (s : text) :
  Forall (fun p : text * text =>
            exists q1 q2 q3 q4 ws,
              occurs (marker_text q1 p.1 q2 ws q3 p.2 q4) s
              /\ Forall (fun q => q = sq \/ q = dq) [q1; q2; q3; q4]
              /\ Forall (fun x => is_space x = true) ws
              /\ p.1 <> [] /\ p.2 <> [] /\ (nl ∉ p.1) /\ (nl ∉ p.2))
         (findall_jtl s).
Proof.
  unfold findall_jtl. rewrite Forall_fmap.
  destruct (finditer_spec JTL_REGEX s) as (HF & _ & _).
  eapply Forall_impl; [exact HF|]. intros mo Hmo. unfold compose. cbn [fst snd].
  apply found_at_runs in Hmo as (before & after & Hs & _ & Hruns).
  apply JTL_REGEX_run in Hruns
    as (q1 & k & q2 & ws & q3 & c & q4 & Hd & Hcaps & Hq & Hws & Hk & Hc & Hknl & Hcnl).
  rewrite Hcaps. change (group 1 [(2, c); (1, k)]) with k.
  change (group 2 [(2, c); (1, k)]) with c.
  exists q1, q2, q3, q4, ws.
  split.
  - exists (take (m_start mo) s), after.
    rewrite <- Hd. by rewrite take_drop.
  - split; [|by repeat split].
    eapply Forall_impl; [exact Hq|]. intros q Hqq. cbn in Hqq.
    rewrite orb_false_r in Hqq. apply orb_true_iff in Hqq.
    destruct Hqq as [Hqq|Hqq]; apply Ascii.eqb_eq in Hqq; auto.
Qed.

(** ** Every parsed record stands in the file *)

Lemma matches_Star_inv greedy r w :
  matches (Star greedy r) w ->
  exists ws, w = concat ws /\ Forall (matches r) ws.
Proof.
  intros H. remember (Star greedy r) as r0 eqn:E.
  induction H as [| | | |g r1 w1 w2 H1 _ Hne H2 IH2|]; try discriminate.
  - by exists [].
  - injection E as -> ->. destruct (IH2 eq_refl) as (ws & -> & Hws).
    exists (w1 :: ws). split; [reflexivity|by constructor].
Qed.

(** The text of section headers: each is [/***], a name without newline,
    [***/] and two newlines. *)
Definition headers_text (names : list text) : text :=
  concat (map (fun y => txt "/***" ++ y ++ txt "***/" ++ [nl; nl]) names).

Lemma headers_word w :
  matches (Star true (Group 2 HEADER_BLOCK)) w ->
  exists names, w = headers_text names /\ Forall (fun y => nl ∉ y) names.
Proof.
  intros H. apply matches_Star_inv in H as (ws & -> & Hws).
  induction Hws as [|w ws Hw _ (names & IH & Hnames)].
  - by exists [].
  - apply matches_Group_inv, HEADER_BLOCK_word in Hw as (y & -> & Hy).
    exists (y :: names). unfold headers_text in *. cbn [map concat].
    rewrite IH. split; [by rewrite <- ?app_assoc|by constructor].
Qed.

Lemma COMMENT_BLOCK_word w :
  matches COMMENT_BLOCK w ->
  exists body, w = txt "/*" ++ body ++ txt "*/" ++ [nl] /\ semi ∉ body.
Proof.
  unfold COMMENT_BLOCK. intros H.
  apply matches_Cat_inv in H as (w0 & r0 & -> & H0 & H).
  apply matches_Cat_inv in H as (s1 & r1 & -> & H1 & H).
  apply matches_Cat_inv in H as (b & r2 & -> & H2 & H).
  apply matches_Cat_inv in H as (s2 & w4 & -> & H3 & H4).
  apply matches_Lit_inv in H0 as ->. apply matches_Lit_inv in H4 as ->.
  apply matches_Star_Chr_inv in H1, H2, H3.
  exists (s1 ++ b ++ s2). split; [by rewrite <- ?app_assoc|].
  apply Forall_NotSet_not_elem. rewrite !Forall_app. repeat split; [|exact H2|].
  - eapply Forall_impl; [exact H1|]. apply space_not_semicolon.
  - eapply Forall_impl; [exact H3|]. apply space_not_semicolon.
Qed.

(** The text of one entry of a strings file. *)
Definition entry_text (header_comment body k s1 s2 v ws : text) : text :=
  header_comment ++ txt "/*" ++ body ++ txt "*/" ++ [nl] ++
  [dq] ++ k ++ [dq] ++ s1 ++ txt "=" ++ s2 ++ [dq] ++ v ++ [dq; semi] ++ ws ++ [nl].

Lemma ASSIGNMENT_run s cs s' cs' :
  runs ASSIGNMENT s cs s' cs' ->
  exists k s1 s2 v ws,
    s = [dq] ++ k ++ [dq] ++ s1 ++ txt "=" ++ s2 ++ [dq] ++ v ++ [dq; semi] ++ ws
        ++ [nl] ++ s'
    /\ cs' = (5, v) :: (4, k) :: cs
    /\ Forall (fun c => c = sp) s1 /\ Forall (fun c => c = sp) s2
    /\ Forall (fun c => is_space c = true) ws.
Proof.
  unfold ASSIGNMENT. intros H.
  apply runs_Cat_inv in H as (t1 & c1 & H1 & H).
  apply runs_Lit_inv in H1 as [-> ->].
  apply runs_Cat_inv in H as (t2 & c2 & H2 & H).
  apply runs_Group_word in H2 as (k & ck & -> & _ & -> & H2).
  apply runs_no_group in H2 as ->; [|reflexivity].
  apply runs_Cat_inv in H as (t3 & c3 & H3 & H).
  apply runs_Lit_inv in H3 as [-> ->].
  apply runs_Cat_inv in H as (t4 & c4 & H4 & H).
  apply runs_plain in H4 as (s1 & -> & Hs1 & ->); [|reflexivity].
  apply runs_Cat_inv in H as (t5 & c5 & H5 & H).
  apply runs_Lit_inv in H5 as [-> ->].
  apply runs_Cat_inv in H as (t6 & c6 & H6 & H).
  apply runs_plain in H6 as (s2 & -> & Hs2 & ->); [|reflexivity].
  apply runs_Cat_inv in H as (t7 & c7 & H7 & H).
  apply runs_Lit_inv in H7 as [-> ->].
  apply runs_Cat_inv in H as (t8 & c8 & H8 & H).
  apply runs_Group_word in H8 as (v & cv & -> & _ & -> & H8).
  apply runs_no_group in H8 as ->; [|reflexivity].
  apply runs_Cat_inv in H as (t9 & c9 & H9 & H).
  apply runs_Lit_inv in H9 as [-> ->].
  apply runs_Cat_inv in H as (t10 & c10 & H10 & H).
  apply runs_plain in H10 as (ws & -> & Hws & ->); [|reflexivity].
  apply runs_Lit_inv in H as [-> ->].
  apply matches_Star_Chr_inv in Hs1, Hs2, Hws.
  exists k, s1, s2, v, ws. split; [by rewrite <- ?app_assoc|].
  split; [reflexivity|]. repeat split; try assumption.
  - eapply Forall_impl; [exact Hs1|]. intros c Hc. by apply Ascii.eqb_eq in Hc.
  - eapply Forall_impl; [exact Hs2|]. intros c Hc. by apply Ascii.eqb_eq in Hc.
Qed.

Lemma record_pattern_run s s' cs' :
  runs HEADER_COMMENT_KEY_VALUE_TUPLES_REGEX s [] s' cs' ->
  exists names body k s1 s2 v ws inner,
    s = entry_text (headers_text names) body k s1 s2 v ws ++ s'
    /\ cs' = (5, v) :: (4, k) :: (3, txt "/*" ++ body ++ txt "*/" ++ [nl])
             :: (1, headers_text names) :: inner
    /\ Forall (fun y => nl ∉ y) names
    /\ (semi ∉ body)
    /\ Forall (fun c => c = sp) s1 /\ Forall (fun c => c = sp) s2
    /\ Forall (fun c => is_space c = true) ws.
Proof.
  unfold HEADER_COMMENT_KEY_VALUE_TUPLES_REGEX. intros H.
  apply runs_Cat_inv in H as (t1 & c1 & H1 & H).
  apply runs_Group_word in H1 as (h & inner & -> & Hh & -> & _).
  apply headers_word in Hh as (names & -> & Hnames).
  apply runs_Cat_inv in H as (t3 & c3 & H3 & H).
  apply runs_Group_word in H3 as (w3 & cw & -> & Hw3 & -> & H3).
  apply runs_no_group in H3 as ->; [|reflexivity].
  apply COMMENT_BLOCK_word in Hw3 as (body & -> & Hbody).
  apply ASSIGNMENT_run in H as (k & s1 & s2 & v & ws & -> & -> & Hs1 & Hs2 & Hws).
  exists names, body, k, s1, s2, v, ws, inner. unfold entry_text.
  split; [by rewrite <- ?app_assoc|]. by repeat split.
Qed.

(** X9: every record that the parser returns stands in the file: its
    header comment is a sequence of section headers (each [/***], a name
    without newline, [***/] and two newlines); it is followed by a comment
    block [/*body*/] and a newline, the body without semicolon; then come
    the key between double quotes, an equals sign between optional spaces,
    the value between double quotes, a semicolon, optional white space and a
    newline; and the comments of the record are what the splitter finds in
    the comment block. *)
Theorem parsed_records_stand_in_the_file (file_data : text) :
  Forall (fun r : record =>
            let '(header_comment, comments, key, value) := r in
            exists names body s1 s2 ws,
              occurs (entry_text header_comment body key s1 s2 value ws) file_data
              /\ header_comment = headers_text names
              /\ Forall (fun y => nl ∉ y) names
              /\ (semi ∉ body)
              /\ Forall (fun c => c = sp) s1 /\ Forall (fun c => c = sp) s2
              /\ Forall (fun c => is_space c = true) ws
              /\ comments
                 = findall1 COMMENT_REGEX (txt "/*" ++ body ++ txt "*/" ++ [nl]))
         (extract_header_comment_key_value_tuples_from_file file_data).
Proof.
  unfold extract_header_comment_key_value_tuples_from_file. rewrite Forall_fmap.
  destruct (finditer_spec HEADER_COMMENT_KEY_VALUE_TUPLES_REGEX file_data)
    as (HF & _ & _).
  eapply Forall_impl; [exact HF|]. intros mo Hmo. unfold compose, record_of_match.
  apply found_at_runs in Hmo as (before & after & Hs & _ & Hruns).
  apply record_pattern_run in Hruns
    as (names & body & k & s1 & s2 & v & ws & inner & Hd & Hcaps & Hn & Hb
        & Hs1 & Hs2 & Hws).
  rewrite Hcaps. cbn [group get_cap Nat.eqb default from_option id].
  exists names, body, s1, s2, ws. split; [|by repeat split].
  exists (take (m_start mo) file_data), after.
  rewrite <- Hd. by rewrite take_drop.
Qed.

(** ** The parser returns the matches, each with its record *)

(** C7: the parser returns one record per match of the pattern, in the
    order of the file, and the record of a match is made of the text that
    was matched: that text is section headers, a comment block, the key and
    the value between double quotes around an equals sign, a semicolon,
    white space and a newline, and the record has these section headers,
    the comments that the splitter finds in this comment block, this key
    and this value. The matches are words of the pattern, they do not
    overlap, and no word of the pattern starts at a position that they leave
    uncovered; a trailing entry that lacks its semicolon adds no record and
    raises nothing (the parser is a total function). *)
Theorem parser_returns_the_matches_in_order (file_data tail : text) :
  semi ∉ tail -> starts_with_space tail = false ->
  let ms := finditer HEADER_COMMENT_KEY_VALUE_TUPLES_REGEX file_data in
  extract_header_comment_key_value_tuples_from_file file_data
    = map record_of_match ms
  /\ Forall2 (fun (r : record) (mo : match_obj) =>
                exists names body k s1 s2 v ws,
                  take (m_end mo - m_start mo) (drop (m_start mo) file_data)
                  = entry_text (headers_text names) body k s1 s2 v ws
                  /\ r = (headers_text names,
                          findall1 COMMENT_REGEX (txt "/*" ++ body ++ txt "*/" ++ [nl]),
                          k, v)
                  /\ Forall (fun y => nl ∉ y) names
                  /\ (semi ∉ body)
                  /\ Forall (fun c => c = sp) s1 /\ Forall (fun c => c = sp) s2
                  /\ Forall (fun c => is_space c = true) ws)
             (extract_header_comment_key_value_tuples_from_file file_data) ms
  /\ Forall (fun mo =>
               m_start mo < m_end mo /\ m_end mo <= length file_data
               /\ matches HEADER_COMMENT_KEY_VALUE_TUPLES_REGEX
                    (take (m_end mo - m_start mo) (drop (m_start mo) file_data)))
            ms
  /\ StronglySorted before ms
  /\ (forall p w rest,
        p <= length file_data -> uncovered ms p ->
        drop p file_data = w ++ rest ->
        ~ matches HEADER_COMMENT_KEY_VALUE_TUPLES_REGEX w)
  /\ extract_header_comment_key_value_tuples_from_file (file_data ++ tail)
     = extract_header_comment_key_value_tuples_from_file file_data.
Proof.
  intros Hsemi Hsp. cbv zeta.
  destruct (finditer_spec HEADER_COMMENT_KEY_VALUE_TUPLES_REGEX file_data)
    as (HF & HS & HU).
  split; [reflexivity|]. split; [|split; [|split; [exact HS|split]]].
  - unfold extract_header_comment_key_value_tuples_from_file.
    apply Forall2_fmap_l, Forall_Forall2_diag.
    eapply Forall_impl; [exact HF|]. intros mo Hmo. unfold compose, record_of_match.
    apply found_at_runs in Hmo as (pre & after & Hs & Hpre & Hruns).
    apply record_pattern_run in Hruns
      as (names & body & k & s1 & s2 & v & ws & inner & Hd & Hcaps & Hn & Hb
          & Hs1 & Hs2 & Hws).
    rewrite Hcaps. cbn [group get_cap Nat.eqb default from_option id].
    exists names, body, k, s1, s2, v, ws. split; [|by repeat split].
    rewrite Hs, <- Hpre, drop_app_length in Hd at 1.
    by apply app_inv_tail in Hd.
  - eapply Forall_impl; [exact HF|]. intros mo Hmo.
    apply found_at_word in Hmo as (H1 & H2 & Hm). split; [|by split].
    apply record_word_not_empty in Hm.
    destruct (decide (m_start mo = m_end mo)) as [Heq|]; [|lia].
    exfalso. apply Hm. rewrite Heq, Nat.sub_diag. apply take_0.
  - intros p w rest Hp Hun Hsplit Hm.
    by apply (match_at_None_no_word _ _ w rest (HU p Hp Hun) Hsplit).
  - apply parse_invisible. by apply record_pattern_semicolon_free.
Qed.

Lemma parser_returns_the_matches_witness :
  let file_data := record_text (txt " first ") (txt "K1") (txt "v1") in
  let tail := txt "/* last */" ++ [nl; dq] ++ txt "K2" ++ [dq] ++ txt " = "
              ++ [dq] ++ txt "v2" ++ [dq; nl] in
  let ms := finditer HEADER_COMMENT_KEY_VALUE_TUPLES_REGEX file_data in
  extract_header_comment_key_value_tuples_from_file file_data
    = map record_of_match ms
  /\ Forall2 (fun (r : record) (mo : match_obj) =>
                exists names body k s1 s2 v ws,
                  take (m_end mo - m_start mo) (drop (m_start mo) file_data)
                  = entry_text (headers_text names) body k s1 s2 v ws
                  /\ r = (headers_text names,
                          findall1 COMMENT_REGEX (txt "/*" ++ body ++ txt "*/" ++ [nl]),
                          k, v)
                  /\ Forall (fun y => nl ∉ y) names
                  /\ (semi ∉ body)
                  /\ Forall (fun c => c = sp) s1 /\ Forall (fun c => c = sp) s2
                  /\ Forall (fun c => is_space c = true) ws)
             (extract_header_comment_key_value_tuples_from_file file_data) ms
  /\ Forall (fun mo =>
               m_start mo < m_end mo /\ m_end mo <= length file_data
               /\ matches HEADER_COMMENT_KEY_VALUE_TUPLES_REGEX
                    (take (m_end mo - m_start mo) (drop (m_start mo) file_data)))
            ms
  /\ StronglySorted before ms
  /\ (forall p w rest,
        p <= length file_data -> uncovered ms p ->
        drop p file_data = w ++ rest ->
        ~ matches HEADER_COMMENT_KEY_VALUE_TUPLES_REGEX w)
  /\ extract_header_comment_key_value_tuples_from_file (file_data ++ tail)
     = extract_header_comment_key_value_tuples_from_file file_data.
Proof.
  apply (parser_returns_the_matches_in_order
           (record_text (txt " first ") (txt "K1") (txt "v1"))
           (txt "/* last */" ++ [nl; dq] ++ txt "K2" ++ [dq] ++ txt " = "
            ++ [dq] ++ txt "v2" ++ [dq; nl])).
  - apply mem_ascii_false; reflexivity.
  - reflexivity.
Defined.

(** The records of the witness: the one entry, and nothing for the tail
    without semicolon. *)
Example records_of_a_file_with_a_malformed_tail :
  extract_header_comment_key_value_tuples_from_file
    (record_text (txt " first ") (txt "K1") (txt "v1"))
  = [([], [txt "first"], txt "K1", txt "v1")]
  /\ extract_header_comment_key_value_tuples_from_file
       (record_text (txt " first ") (txt "K1") (txt "v1")
        ++ txt "/* last */" ++ [nl; dq] ++ txt "K2" ++ [dq] ++ txt " = "
        ++ [dq] ++ txt "v2" ++ [dq; nl])
     = [([], [txt "first"], txt "K1", txt "v1")].
Proof. split; vm_compute; reflexivity. Qed.

(** * Matching what the writers write *)

(** Lengths of appends. *)
Ltac len_app :=
  repeat (progress (rewrite ?length_app; cbn [length app txt list_ascii_of_string]));
  lia.

(** ** A scan, one match at a time *)

Lemma scan_caps_pos fuel r pos pos' s :
  map m_caps (scan fuel r pos s) = map m_caps (scan fuel r pos' s).
Proof.
  revert pos pos' s. induction fuel as [|fuel IH]; intros pos pos' s; [reflexivity|].
  cbn [scan]. destruct (match_at r s) as [[n cs]|].
  - cbn [map m_caps]. f_equal. destruct n as [|n].
    + destruct s as [|c s]; [reflexivity|apply IH].
    + apply IH.
  - destruct s as [|c s]; [reflexivity|apply IH].
Qed.

(** The captures of the matches of a scan of the whole subject. *)
Definition finditer_caps (r : regex) (s : text) : list caps :=
  map m_caps (finditer r s).

Lemma finditer_caps_cons r (a rest : text) cs :
  match_at r (a ++ rest) = Some (length a, cs) -> a <> [] ->
  finditer_caps r (a ++ rest) = cs :: finditer_caps r rest.
Proof.
  intros Hat Ha. unfold finditer_caps. set (R := finditer r rest).
  unfold finditer. cbn [scan]. rewrite Hat. cbn [map m_caps]. f_equal.
  destruct a as [|c a]; [done|]. cbn [length].
  change (drop (S (length a)) ((c :: a) ++ rest)) with (drop (length a) (a ++ rest)).
  rewrite drop_app_length.
  rewrite (scan_fuel _ (S (length rest))); [apply scan_caps_pos| |lia].
  rewrite length_app. cbn [length]. lia.
Qed.

Lemma finditer_caps_skip r (c : ascii) (s : text) :
  match_at r (c :: s) = None ->
  finditer_caps r (c :: s) = finditer_caps r s.
Proof.
  intros Hat. unfold finditer_caps. set (R := finditer r s).
  unfold finditer. cbn [scan]. rewrite Hat. cbn [length]. apply scan_caps_pos.
Qed.

Lemma finditer_caps_skip_prefix r (pre s : text) :
  (forall p1 p2, pre = p1 ++ p2 -> p2 <> [] -> match_at r (p2 ++ s) = None) ->
  finditer_caps r (pre ++ s) = finditer_caps r s.
Proof.
  induction pre as [|c pre IH]; intros H; [reflexivity|].
  cbn [app]. rewrite finditer_caps_skip.
  - apply IH. intros p1 p2 -> Hp2. by apply (H (c :: p1) p2).
  - by apply (H [] (c :: pre)).
Qed.

Lemma finditer_caps_nothing r (s : text) :
  (forall s1 s2, s = s1 ++ s2 -> match_at r s2 = None) -> finditer_caps r s = [].
Proof. intros H. unfold finditer_caps. by rewrite finditer_nothing. Qed.

Lemma findall_jtl_caps (s : text) :
  findall_jtl s = map (fun cs => (group 1 cs, group 2 cs)) (finditer_caps JTL_REGEX s).
Proof. unfold findall_jtl, finditer_caps. by rewrite map_map. Qed.

(** ** A pattern with one way to end *)

Section Determined.
Context {A : Type}.
Implicit Types (K : @cont A) (s : text) (cs : caps) (r : regex).

(** When all the ways of matching [r] at the start of [s] end at the same
    place with the same captures, the matcher goes on from there. *)
Lemma m_determined r K s cs s' cs' :
  runs r s cs s' cs' ->
  (forall s'' cs'', runs r s cs s'' cs'' -> s'' = s' /\ cs'' = cs') ->
  m r K s cs = K s' cs'.
Proof.
  intros Hrun Huniq. destruct (m r K s cs) as [x|] eqn:E.
  - apply m_sound in E as (s'' & cs'' & Hr & HK).
    destruct (Huniq _ _ Hr) as [-> ->]. by rewrite HK.
  - destruct (K s' cs') as [x|] eqn:EK; [|reflexivity].
    destruct (m_complete r K s cs s' cs' Hrun) as [y Hy]; [by rewrite EK|].
    by rewrite Hy in E.
Qed.

End Determined.

Lemma matches_Lit (l : text) : matches (Lit l) l.
Proof.
  induction l as [|c l IH]; [constructor|].
  change (c :: l) with ([c] ++ l). constructor; [|exact IH].
  constructor. apply Ascii.eqb_refl.
Qed.

Lemma matches_Star_Chr greedy cl (w : text) :
  Forall (fun c => cmatch cl c = true) w -> matches (Star greedy (Chr cl)) w.
Proof.
  induction 1 as [|c w Hc _ IH]; [constructor|].
  change (c :: w) with ([c] ++ w). constructor; [by constructor|done|exact IH].
Qed.

(** ** A marker in a text *)

Lemma quote_not_space (q : ascii) : cmatch quote q = true -> cmatch CSpace q = false.
Proof.
  cbn. rewrite orb_false_r. intros H. apply orb_true_iff in H.
  destruct H as [H|H]; apply Ascii.eqb_eq in H; subst; reflexivity.
Qed.

Lemma not_newline_dot (x : ascii) (w : text) :
  nl ∉ x :: w -> cmatch (CDot false) x = true.
Proof.
  intros H. cbn. destruct (Ascii.eqb_spec x nl) as [->|]; [|reflexivity].
  exfalso. apply H. by left.
Qed.

Section MarkerMatch.
Context {A : Type}.
Implicit Types (K : @cont A) (cs : caps) (k c ws rest : text).

Lemma JTL_END_exact K q rest cs :
  cmatch quote q = true ->
  m JTL_END K (q :: txt ")" ++ rest) cs = K rest cs.
Proof.
  intros Hq. unfold JTL_END. rewrite m_Cat, m_Chr_cons, Hq.
  apply (m_Lit_app (txt ")")).
Qed.

(** A lazy capture [(.+?)] over a text without quote and newline, up to the
    quote that follows it. *)
Lemma capture_up_to_quote n (r : regex) K w q rest cs x :
  w <> [] -> (nl ∉ w) -> quote_free w ->
  (forall y t cs', cmatch quote y = false -> m r K (y :: t) cs' = None) ->
  m r K (q :: rest) ((n, w) :: cs) = Some x ->
  m (Group n (Plus false (Chr (CDot false))) @@ r)%re K (w ++ q :: rest) cs = Some x.
Proof.
  intros Hne Hnl Hfree Hneeds Hhere.
  destruct w as [|w0 w]; [done|].
  rewrite m_Cat, m_Group. unfold Plus. rewrite m_Cat. cbn [app].
  rewrite m_Chr_cons, (not_newline_dot _ _ Hnl).
  rewrite lazy_skip.
  - apply lazy_here.
    change (w0 :: w ++ q :: rest) with ((w0 :: w) ++ q :: rest).
    by rewrite take_consumed.
  - apply Forall_not_newline. intros H. apply Hnl. by right.
  - intros w1 y w2 -> . apply Hneeds. apply Hfree.
    rewrite elem_of_cons, elem_of_app, elem_of_cons. tauto.
Qed.

Lemma JTL_COMMENT_exact K q3 c q4 rest cs x :
  cmatch quote q3 = true -> cmatch quote q4 = true ->
  c <> [] -> (nl ∉ c) -> quote_free c ->
  K rest ((2, c) :: cs) = Some x ->
  m JTL_COMMENT K (q3 :: c ++ q4 :: txt ")" ++ rest) cs = Some x.
Proof.
  intros Hq3 Hq4 Hne Hnl Hfree HK. unfold JTL_COMMENT.
  rewrite m_Cat, m_Chr_cons, Hq3.
  apply capture_up_to_quote; try assumption.
  - intros y t cs' Hy. by apply JTL_END_needs_quote.
  - by rewrite JTL_END_exact.
Qed.

Lemma JTL_AFTER_KEY_exact K q2 ws q3 c q4 rest cs x :
  cmatch quote q2 = true -> cmatch quote q3 = true -> cmatch quote q4 = true ->
  Forall (fun y => is_space y = true) ws ->
  c <> [] -> (nl ∉ c) -> quote_free c ->
  K rest ((2, c) :: cs) = Some x ->
  m JTL_AFTER_KEY K (q2 :: txt "," ++ ws ++ q3 :: c ++ q4 :: txt ")" ++ rest) cs
  = Some x.
Proof.
  intros Hq2 Hq3 Hq4 Hws Hne Hnl Hfree HK. unfold JTL_AFTER_KEY.
  rewrite m_Cat, m_Chr_cons, Hq2, m_Cat, m_Lit_app, m_Cat.
  apply greedy_further; [exact Hws|].
  rewrite greedy_stop by (by apply quote_not_space).
  by apply JTL_COMMENT_exact.
Qed.

End MarkerMatch.

Lemma marker_match_at q1 k q2 ws q3 c q4 rest :
  Forall (fun q => cmatch quote q = true) [q1; q2; q3; q4] ->
  Forall (fun y => is_space y = true) ws ->
  k <> [] -> (nl ∉ k) -> quote_free k ->
  c <> [] -> (nl ∉ c) -> quote_free c ->
  match_at JTL_REGEX (marker_text q1 k q2 ws q3 c q4 ++ rest)
  = Some (length (marker_text q1 k q2 ws q3 c q4), [(2, c); (1, k)]).
Proof.
  intros Hq Hws Hk Hknl Hkf Hc Hcnl Hcf.
  apply Forall_cons in Hq as [Hq1 Hq]. apply Forall_cons in Hq as [Hq2 Hq].
  apply Forall_cons in Hq as [Hq3 Hq]. apply Forall_cons in Hq as [Hq4 _].
  rewrite match_at_accept, JTL_REGEX_parts, m_Cat.
  unfold marker_text. rewrite <- !app_assoc. rewrite m_Lit_app.
  cbn [app]. rewrite m_Cat, m_Chr_cons, Hq1.
  apply capture_up_to_quote; try assumption.
  - intros y t cs' Hy. by apply JTL_AFTER_KEY_needs_quote.
  - erewrite (JTL_AFTER_KEY_exact _ q2 ws q3 c q4 rest); try eassumption;
      [reflexivity|].
    unfold accept. do 2 f_equal. len_app.
Qed.

(** No marker starts in a text without [JTL(], whatever marker follows. *)
Lemma no_marker_start (p rest : text) :
  p <> [] -> ~ occurs (txt "JTL(") p ->
  match_at JTL_REGEX (p ++ txt "JTL(" ++ rest) = None.
Proof.
  intros Hp Hocc. rewrite match_at_accept, JTL_REGEX_parts, m_Cat.
  cbn [txt list_ascii_of_string app].
  destruct p as [|a p]; [done|]. cbn [app]. rewrite m_Lit_cons.
  destruct (Ascii.eqb_spec a "J") as [->|]; [|reflexivity].
  destruct p as [|b p]; cbn [app]; [by rewrite m_Lit_cons|]. rewrite m_Lit_cons.
  destruct (Ascii.eqb_spec b "T") as [->|]; [|reflexivity].
  destruct p as [|c p]; cbn [app]; [by rewrite m_Lit_cons|]. rewrite m_Lit_cons.
  destruct (Ascii.eqb_spec c "L") as [->|]; [|reflexivity].
  destruct p as [|d p]; cbn [app]; [by rewrite m_Lit_cons|]. rewrite m_Lit_cons.
  destruct (Ascii.eqb_spec d "(") as [->|]; [|reflexivity].
  exfalso. apply Hocc. by exists [], p.
Qed.

Lemma occurs_suffix (w p1 p2 : text) : occurs w p2 -> occurs w (p1 ++ p2).
Proof. intros (s1 & s2 & ->). exists (p1 ++ s1), s2. by rewrite <- app_assoc. Qed.

(** X10: a marker whose key and comment are not empty and contain no quote
    character and no newline is extracted with its key and its comment,
    whatever quote characters it is written with and whatever white space
    follows its comma: when no [JTL(] stands before it in the text, its pair
    is the first one, and the pairs of the text after it follow. *)
Theorem marker_is_extracted (before after k c ws : text) (q1 q2 q3 q4 : ascii) :
  Forall (fun q => q = sq \/ q = dq) [q1; q2; q3; q4] ->
  Forall (fun y => is_space y = true) ws ->
  k <> [] -> (nl ∉ k) -> (sq ∉ k) -> (dq ∉ k) ->
  c <> [] -> (nl ∉ c) -> (sq ∉ c) -> (dq ∉ c) ->
  ~ occurs (txt "JTL(") before ->
  findall_jtl (before ++ marker_text q1 k q2 ws q3 c q4 ++ after)
  = (k, c) :: findall_jtl after.
Proof.
  intros Hq Hws Hk Hknl Hksq Hkdq Hc Hcnl Hcsq Hcdq Hbefore.
  assert (Hq' : Forall (fun q => cmatch quote q = true) [q1; q2; q3; q4]).
  { eapply Forall_impl; [exact Hq|]. by intros q [-> | ->]. }
  assert (Hfree : forall w : text, sq ∉ w -> dq ∉ w -> quote_free w).
  { intros w H1 H2 y Hy. cbn. rewrite orb_false_r.
    apply orb_false_iff. split; apply Ascii.eqb_neq; by intros ->. }
  rewrite !findall_jtl_caps, finditer_caps_skip_prefix.
  - rewrite (finditer_caps_cons _ _ _ [(2, c); (1, k)]); [reflexivity| |].
    + by apply marker_match_at; auto.
    + unfold marker_text. discriminate.
  - intros p1 p2 -> Hp2. unfold marker_text. rewrite <- !app_assoc.
    apply no_marker_start; [exact Hp2|].
    intros H. apply Hbefore. by apply occurs_suffix.
Qed.

Lemma marker_is_extracted_witness :
  findall_jtl (txt "label.text = "
               ++ marker_text dq (txt "LOGIN") sq (txt "  ") sq (txt "Button title") dq
               ++ txt "; // no more")
  = (txt "LOGIN", txt "Button title") :: findall_jtl (txt "; // no more").
Proof.
  apply (marker_is_extracted (txt "label.text = ") (txt "; // no more")
           (txt "LOGIN") (txt "Button title") (txt "  ") dq sq sq dq).
  - constructor; [by right|]. constructor; [by left|].
    constructor; [by left|]. constructor; [by right|]. constructor.
  - repeat constructor.
  - discriminate.
  - apply mem_ascii_false; reflexivity.
  - apply mem_ascii_false; reflexivity.
  - apply mem_ascii_false; reflexivity.
  - discriminate.
  - apply mem_ascii_false; reflexivity.
  - apply mem_ascii_false; reflexivity.
  - apply mem_ascii_false; reflexivity.
  - apply occursb_false; reflexivity.
Defined.

(** ** An entry in a strings file *)

Lemma all_newlines_snoc (gap : text) :
  Forall (fun c => c = nl) gap -> nl :: gap = gap ++ [nl].
Proof.
  induction 1 as [|c gap -> _ IH]; [reflexivity|]. cbn [app]. by rewrite <- IH.
Qed.

Lemma all_newlines_space (gap : text) :
  Forall (fun c => c = nl) gap -> Forall (fun c => cmatch CSpace c = true) gap.
Proof. intros H. eapply Forall_impl; [exact H|]. by intros c ->. Qed.

Section EntryMatch.
Context {A : Type}.
Implicit Types (K : @cont A) (cs : caps) (k v body gap rest : text).

(** After the semicolon the white space is taken greedily, and the newline
    of the pattern is the last one before the next text. *)
Lemma trailing_newlines K gap rest cs x :
  Forall (fun c => c = nl) gap -> starts_with_space rest = false ->
  K rest cs = Some x ->
  m (Star true (Chr CSpace)) (m (Lit [nl]) K) (nl :: gap ++ rest) cs = Some x.
Proof.
  intros Hgap Hrest HK.
  change (nl :: gap ++ rest) with ((nl :: gap) ++ rest).
  rewrite (all_newlines_snoc _ Hgap), <- app_assoc.
  apply greedy_further; [by apply all_newlines_space|].
  cbn [app]. rewrite m_Star_Chr_cons. change (cmatch CSpace nl) with true. cbv iota.
  rewrite greedy_stop by (destruct rest; [exact I|exact Hrest]).
  assert (Hno : m (Lit [nl]) K rest cs = None).
  { destruct rest as [|c rest]; [reflexivity|]. apply m_Lit_mismatch.
    intros ->. discriminate Hrest. }
  rewrite Hno. by rewrite m_Lit_cons, Ascii.eqb_refl, m_Lit_nil.
Qed.

Lemma AFTER_VALUE_then K gap rest cs x :
  Forall (fun c => c = nl) gap -> starts_with_space rest = false ->
  K rest cs = Some x ->
  m AFTER_VALUE K ([dq; semi; nl] ++ gap ++ rest) cs = Some x.
Proof.
  intros Hgap Hrest HK. unfold AFTER_VALUE.
  change ([dq; semi; nl] ++ gap ++ rest) with ([dq; semi] ++ nl :: gap ++ rest).
  rewrite m_Cat, m_Lit_app, m_Cat. by apply trailing_newlines.
Qed.

Lemma VALUE_then K v gap rest cs x :
  dq ∉ v ->
  Forall (fun c => c = nl) gap -> starts_with_space rest = false ->
  K rest ((5, v) :: cs) = Some x ->
  m VALUE K (v ++ [dq; semi; nl] ++ gap ++ rest) cs = Some x.
Proof.
  intros Hv Hgap Hrest HK. unfold VALUE. rewrite m_Cat, m_Group, lazy_skip.
  - apply lazy_here. rewrite take_consumed. by apply AFTER_VALUE_then.
  - apply Forall_dotall.
  - intros w1 c w2 Hsplit. unfold AFTER_VALUE. rewrite m_Cat.
    apply m_Lit_mismatch. intros ->. by eapply not_elem_of_split.
Qed.

Lemma EQUALS_VALUE_then K v gap rest cs x :
  dq ∉ v ->
  Forall (fun c => c = nl) gap -> starts_with_space rest = false ->
  K rest ((5, v) :: cs) = Some x ->
  m EQUALS_VALUE K (txt " = " ++ [dq] ++ v ++ [dq; semi; nl] ++ gap ++ rest) cs
  = Some x.
Proof.
  intros Hv Hgap Hrest HK. unfold EQUALS_VALUE. cbn [txt list_ascii_of_string app].
  rewrite m_Cat, m_Star_Chr_cons. cbn [cmatch]. rewrite Ascii.eqb_refl.
  rewrite greedy_stop by reflexivity.
  rewrite m_Cat, m_Lit_cons, Ascii.eqb_refl, m_Lit_nil.
  rewrite m_Cat, m_Star_Chr_cons. cbn [cmatch]. rewrite Ascii.eqb_refl.
  rewrite greedy_stop by reflexivity.
  rewrite m_Cat, m_Lit_cons, Ascii.eqb_refl, m_Lit_nil.
  pose proof (VALUE_then K v gap rest cs x Hv Hgap Hrest HK) as HV.
  cbn [app] in HV. by rewrite HV.
Qed.

Lemma ASSIGNMENT_then K k v gap rest cs x :
  dq ∉ k -> dq ∉ v ->
  Forall (fun c => c = nl) gap -> starts_with_space rest = false ->
  K rest ((5, v) :: (4, k) :: cs) = Some x ->
  m ASSIGNMENT K
    ([dq] ++ k ++ [dq] ++ txt " = " ++ [dq] ++ v ++ [dq; semi; nl] ++ gap ++ rest) cs
  = Some x.
Proof.
  intros Hk Hv Hgap Hrest HK. rewrite ASSIGNMENT_parts, m_Cat. cbn [app].
  rewrite m_Lit_cons, Ascii.eqb_refl, m_Lit_nil, m_Cat, m_Group, lazy_skip.
  - apply lazy_here. rewrite take_consumed. unfold AFTER_KEY.
    rewrite m_Cat, m_Lit_cons, Ascii.eqb_refl, m_Lit_nil.
    by apply EQUALS_VALUE_then.
  - apply Forall_dotall.
  - intros w1 c w2 Hsplit. unfold AFTER_KEY. rewrite m_Cat.
    apply m_Lit_mismatch. intros ->. exact (not_elem_of_split dq k w1 w2 Hk Hsplit).
Qed.

(** The comment block ends at the last [*/] and newline before the first
    semicolon after which the continuation succeeds. *)
Lemma COMMENT_BLOCK_greedy K body rest cs x :
  semi ∉ body ->
  blocked (CNotSet [semi]) (fun t => forall cs', m (Lit (txt "*/" ++ [nl])) K t cs' = None)
          ("/"%char :: nl :: rest) ->
  K rest cs = Some x ->
  m COMMENT_BLOCK K (txt "/*" ++ body ++ txt "*/" ++ [nl] ++ rest) cs = Some x.
Proof.
  intros Hbody Hblocked HK. rewrite COMMENT_BLOCK_simpler, m_Lit_app.
  apply greedy_further.
  - apply Forall_forall. intros c Hc. cbn.
    destruct (Ascii.eqb_spec c semi) as [->|]; [|reflexivity].
    contradiction.
  - cbn [txt list_ascii_of_string app]. rewrite m_Star_Chr_cons.
    change (cmatch (CNotSet [semi]) "*") with true. cbv iota.
    rewrite Star_blocked.
    + change ("*"%char :: "/"%char :: nl :: rest) with ((txt "*/" ++ [nl]) ++ rest).
      by rewrite m_Lit_app.
    + eapply blocked_impl; [|exact Hblocked]. intros t Ht. apply Ht.
Qed.

(** No [*/] and newline ends inside a text without newline that a double
    quote follows. *)
Lemma close_inside K (w R : text) cs (a1 : text) (c : ascii) (a2 : text) :
  nl ∉ w -> w = a1 ++ c :: a2 ->
  m (Lit (txt "*/" ++ [nl])) K (c :: a2 ++ dq :: R) cs = None.
Proof.
  intros Hw Hsplit. cbn [txt list_ascii_of_string app]. rewrite m_Lit_cons.
  destruct (Ascii.eqb c "*"); [|reflexivity].
  destruct a2 as [|c2 a2]; [reflexivity|]. cbn [app]. rewrite m_Lit_cons.
  destruct (Ascii.eqb c2 "/"); [|reflexivity].
  destruct a2 as [|c3 a2]; [reflexivity|]. cbn [app]. rewrite m_Lit_cons.
  destruct (Ascii.eqb_spec c3 nl) as [->|]; [|reflexivity].
  exfalso. apply Hw. rewrite Hsplit, elem_of_app, !elem_of_cons. tauto.
Qed.

Lemma no_close_before_semicolon K k v T :
  nl ∉ k -> nl ∉ v ->
  blocked (CNotSet [semi])
    (fun t => forall cs', m (Lit (txt "*/" ++ [nl])) K t cs' = None)
    ("/"%char :: nl :: [dq] ++ k ++ [dq] ++ txt " = " ++ [dq] ++ v ++ [dq; semi] ++ T).
Proof.
  intros Hk Hv. cbn [blocked app txt list_ascii_of_string].
  split; [intros cs'; reflexivity|]. intros _.
  split; [intros cs'; reflexivity|]. intros _.
  split; [intros cs'; reflexivity|]. intros _.
  apply blocked_app.
  { intros a1 c a2 Hsplit cs'. by apply (close_inside K k _ cs' a1 c a2). }
  cbn [blocked].
  split; [intros cs'; reflexivity|]. intros _.
  split; [intros cs'; reflexivity|]. intros _.
  split; [intros cs'; reflexivity|]. intros _.
  split; [intros cs'; reflexivity|]. intros _.
  split; [intros cs'; reflexivity|]. intros _.
  apply blocked_app.
  { intros a1 c a2 Hsplit cs'. by apply (close_inside K v _ cs' a1 c a2). }
  cbn [blocked].
  split; [intros cs'; reflexivity|]. intros _.
  split; [intros cs'; reflexivity|]. intros H. discriminate H.
Qed.

End EntryMatch.

(** ** Section headers *)

Lemma header_text_word (y : text) :
  nl ∉ y -> matches HEADER_BLOCK (txt "/***" ++ y ++ txt "***/" ++ [nl; nl]).
Proof.
  intros Hy. unfold HEADER_BLOCK.
  apply matches_Cat; [apply matches_Lit|].
  change (y ++ txt "***/" ++ [nl; nl]) with ([] ++ y ++ txt "***/" ++ [nl; nl]).
  apply matches_Cat; [constructor|].
  apply matches_Cat.
  - apply matches_Star_Chr. apply Forall_forall. intros c Hc. cbn.
    rewrite orb_false_r. destruct (Ascii.eqb_spec c nl) as [->|]; [done|reflexivity].
  - change (txt "***/" ++ [nl; nl]) with ([] ++ txt "***/" ++ [nl; nl]).
    apply matches_Cat; [constructor|]. apply matches_Lit.
Qed.

Lemma header_end_unique (y y' rest rest' : text) :
  nl ∉ y -> nl ∉ y' ->
  (txt "/***" ++ y ++ txt "***/" ++ [nl; nl]) ++ rest
  = (txt "/***" ++ y' ++ txt "***/" ++ [nl; nl]) ++ rest' ->
  rest = rest'.
Proof.
  intros Hy Hy' H. rewrite <- !app_assoc in H. apply app_inv_head in H.
  rewrite !(app_assoc _ (txt "***/")) in H. cbn [app] in H.
  apply first_split_unique in H as [_ H]; [by injection H| |].
  - rewrite elem_of_app. intros [?|H']; [done|].
    cbn in H'. rewrite !elem_of_cons, elem_of_nil in H'.
    destruct H' as [?|[?|[?|[?|?]]]]; done.
  - rewrite elem_of_app. intros [?|H']; [done|].
    cbn in H'. rewrite !elem_of_cons, elem_of_nil in H'.
    destruct H' as [?|[?|[?|[?|?]]]]; done.
Qed.

(** One section header is matched as a whole. *)
Lemma HEADER_BLOCK_exact {A : Type} (K : @cont A) (y rest : text) cs :
  nl ∉ y ->
  m HEADER_BLOCK K ((txt "/***" ++ y ++ txt "***/" ++ [nl; nl]) ++ rest) cs
  = K rest cs.
Proof.
  intros Hy. apply m_determined.
  - destruct (matches_runs _ _ (header_text_word y Hy) rest cs) as [cs' Hr].
    by rewrite (runs_no_group HEADER_BLOCK _ _ _ _ eq_refl Hr) in Hr.
  - intros s'' cs'' Hr.
    pose proof (runs_no_group HEADER_BLOCK _ _ _ _ eq_refl Hr) as ->.
    split; [|reflexivity].
    apply runs_matches in Hr as (w & Hs & Hw).
    apply HEADER_BLOCK_word in Hw as (y' & -> & Hy').
    symmetry. by apply (header_end_unique y y').
Qed.

(** The loop over the section headers takes them all. *)
Lemma headers_loop {A : Type} (names : list text) (rest : text) :
  Forall (fun y => nl ∉ y) names ->
  (forall (K : @cont A) cs, m HEADER_BLOCK K rest cs = None) ->
  forall cs, exists inner, forall (K : @cont A) x,
    K rest (inner ++ cs) = Some x ->
    m (Star true (Group 2 HEADER_BLOCK)) K (headers_text names ++ rest) cs = Some x.
Proof.
  intros Hnames Hrest. induction Hnames as [|y names Hy _ IH]; intros cs.
  - exists []. intros K x HK. cbn [headers_text map concat app] in *.
    rewrite m_Star. cbv zeta. by rewrite m_Group, Hrest.
  - destruct (IH ((2, txt "/***" ++ y ++ txt "***/" ++ [nl; nl]) :: cs))
      as [inner IHinner].
    exists (inner ++ [(2, txt "/***" ++ y ++ txt "***/" ++ [nl; nl])]).
    intros K x HK. rewrite <- app_assoc in HK. cbn [app] in HK.
    unfold headers_text. cbn [map concat]. fold (headers_text names).
    rewrite <- app_assoc. rewrite m_Star. cbv zeta.
    rewrite m_Group, HEADER_BLOCK_exact by exact Hy.
    rewrite take_consumed.
    assert (Hlt : (length (headers_text names ++ rest)
                   <? length ((txt "/***" ++ y ++ txt "***/" ++ [nl; nl])
                              ++ headers_text names ++ rest)) = true).
    { apply Nat.ltb_lt. rewrite (length_app (txt "/***" ++ y ++ txt "***/" ++ [nl; nl])).
      cbn [txt list_ascii_of_string app length]. lia. }
    rewrite Hlt. by rewrite (IHinner K x HK).
Qed.

Lemma no_header_here {A : Type} (K : @cont A) (body T : text) cs :
  (forall b, body <> "*"%char :: b) ->
  m HEADER_BLOCK K (txt "/*" ++ body ++ txt "*/" ++ T) cs = None.
Proof.
  intros Hbody. unfold HEADER_BLOCK. rewrite m_Cat.
  destruct body as [|b0 body]; [reflexivity|].
  cbn [txt list_ascii_of_string app]. rewrite !m_Lit_cons. cbn [Ascii.eqb Bool.eqb].
  destruct (Ascii.eqb_spec b0 "*") as [->|]; [|reflexivity].
  by destruct (Hbody body).
Qed.

(** An entry of a strings file, after any section headers and before
    blank lines and text that does not start with white space, is matched as
    a whole, blank lines included. *)
Lemma entry_match_at (names : list text) (body k v gap rest : text) :
  Forall (fun y => nl ∉ y) names ->
  semi ∉ body -> (forall b, body <> "*"%char :: b) ->
  dq ∉ k -> nl ∉ k -> dq ∉ v -> nl ∉ v ->
  Forall (fun c => c = nl) gap -> starts_with_space rest = false ->
  exists inner,
    match_at HEADER_COMMENT_KEY_VALUE_TUPLES_REGEX
      ((headers_text names ++ record_text body k v ++ gap) ++ rest)
    = Some (length (headers_text names ++ record_text body k v ++ gap),
            (5, v) :: (4, k) :: (3, txt "/*" ++ body ++ txt "*/" ++ [nl])
            :: (1, headers_text names) :: inner).
Proof.
  intros Hnames Hbody Hstar Hk Hknl Hv Hvnl Hgap Hrest.
  destruct (headers_loop (A := nat * caps) names (record_text body k v ++ gap ++ rest)
              Hnames) with (cs := @nil (nat * text)) as [inner Hloop].
  { intros K cs. unfold record_text. rewrite <- !app_assoc. by apply no_header_here. }
  exists inner. rewrite match_at_accept.
  rewrite <- !app_assoc.
  set (S := headers_text names ++ record_text body k v ++ gap ++ rest).
  unfold HEADER_COMMENT_KEY_VALUE_TUPLES_REGEX. rewrite !m_Cat, m_Group.
  apply Hloop. rewrite app_nil_r. unfold S at 2. rewrite take_consumed.
  rewrite m_Group. unfold record_text. rewrite <- !app_assoc.
  apply COMMENT_BLOCK_greedy; [exact Hbody| |].
  - by apply no_close_before_semicolon.
  - rewrite (app_assoc (txt "/*")), (app_assoc _ (txt "*/")), (app_assoc _ [nl]).
    rewrite take_consumed, <- !app_assoc.
    change ([dq; semi; nl] ++ gap ++ rest) with ([dq; semi; nl] ++ gap ++ rest).
    apply ASSIGNMENT_then; try assumption.
    unfold accept, S, record_text. do 2 f_equal. len_app.
Qed.

(** ** Parsing what the writers write *)

(** The tuple of the parser, from the captures of a match. *)
Definition record_of_caps (cs : caps) : record :=
  (group 1 cs, findall1 COMMENT_REGEX (group 3 cs), group 4 cs, group 5 cs).

Lemma extract_caps (file_data : text) :
  extract_header_comment_key_value_tuples_from_file file_data
  = map record_of_caps (finditer_caps HEADER_COMMENT_KEY_VALUE_TUPLES_REGEX file_data).
Proof.
  unfold extract_header_comment_key_value_tuples_from_file, finditer_caps.
  by rewrite map_map.
Qed.

Lemma extract_entry (names : list text) (body k v gap rest : text) :
  Forall (fun y => nl ∉ y) names ->
  semi ∉ body -> (forall b, body <> "*"%char :: b) ->
  dq ∉ k -> nl ∉ k -> dq ∉ v -> nl ∉ v ->
  Forall (fun c => c = nl) gap -> starts_with_space rest = false ->
  extract_header_comment_key_value_tuples_from_file
    ((headers_text names ++ record_text body k v ++ gap) ++ rest)
  = (headers_text names,
     findall1 COMMENT_REGEX (txt "/*" ++ body ++ txt "*/" ++ [nl]), k, v)
    :: extract_header_comment_key_value_tuples_from_file rest.
Proof.
  intros Hn Hb Hs Hk Hknl Hv Hvnl Hgap Hrest.
  destruct (entry_match_at names body k v gap rest) as [inner Hat]; try assumption.
  rewrite !extract_caps, (finditer_caps_cons _ _ _ _ Hat); [reflexivity|].
  unfold record_text. intros H. apply app_eq_nil in H as [_ H].
  apply app_eq_nil in H as [H _]. discriminate H.
Qed.

(** An item that is written and read back as it is: the key without double
    quote and newline, the comment without semicolon, newline and [*/]. *)
Definition clean_item (p : text * text) : Prop :=
  (dq ∉ p.1) /\ (nl ∉ p.1) /\ (semi ∉ p.2) /\ (nl ∉ p.2) /\ ~ occurs (txt "*/") p.2.

Definition clean_itemb (p : text * text) : bool :=
  negb (mem_ascii dq p.1) && negb (mem_ascii nl p.1) && negb (mem_ascii semi p.2)
  && negb (mem_ascii nl p.2) && negb (occursb (txt "*/") p.2).

Lemma clean_items_test (items : list (text * text)) :
  forallb clean_itemb items = true -> Forall clean_item items.
Proof.
  intros H. apply Forall_forall. intros p Hp.
  rewrite forallb_forall in H. apply list_elem_of_In in Hp.
  specialize (H p Hp). unfold clean_itemb in H.
  rewrite !andb_true_iff, !negb_true_iff in H.
  destruct H as ((((H1 & H2) & H3) & H4) & H5).
  repeat split; try (by apply mem_ascii_false). by apply occursb_false.
Qed.

(** The record of an item. *)
Definition plain_record (p : text * text) : record := ([], [p.2], p.1, p.1).

Lemma rendered_entry_clean (p : text * text) :
  clean_item p ->
  rendered_entry p.2 p.1 = record_text (sp :: p.2 ++ [sp]) p.1 p.1.
Proof.
  intros (Hk & _). unfold rendered_entry, record_text.
  rewrite (escape_key_no_quote _ Hk). cbn [txt list_ascii_of_string app].
  by rewrite <- !app_assoc.
Qed.

Lemma spaced_body (c : text) :
  semi ∉ c -> nl ∉ c -> ~ occurs (txt "*/") c ->
  (semi ∉ sp :: c ++ [sp]) /\ (forall b, sp :: c ++ [sp] <> "*"%char :: b)
  /\ findall1 COMMENT_REGEX (txt "/*" ++ (sp :: c ++ [sp]) ++ txt "*/" ++ [nl]) = [c].
Proof.
  intros Hsemi Hnl Hclose. split; [|split].
  - rewrite elem_of_cons, elem_of_app, list_elem_of_singleton.
    intros [H|[H|H]]; [discriminate|contradiction|discriminate].
  - intros b H. discriminate H.
  - replace (txt "/*" ++ (sp :: c ++ [sp]) ++ txt "*/" ++ [nl])
      with (txt "/* " ++ c ++ txt " */" ++ [nl])
      by (cbn [txt list_ascii_of_string app]; by rewrite <- !app_assoc).
    by apply split_spaced_comment.
Qed.

Lemma extract_rendered (p : text * text) (gap rest : text) :
  clean_item p ->
  Forall (fun c => c = nl) gap -> starts_with_space rest = false ->
  extract_header_comment_key_value_tuples_from_file
    ((rendered_entry p.2 p.1 ++ gap) ++ rest)
  = plain_record p :: extract_header_comment_key_value_tuples_from_file rest.
Proof.
  intros Hp Hgap Hrest. rewrite (rendered_entry_clean p Hp).
  destruct Hp as (Hk & Hknl & Hsemi & Hnl & Hclose).
  destruct (spaced_body _ Hsemi Hnl Hclose) as (Hb1 & Hb2 & Hb3).
  pose proof (extract_entry [] (sp :: p.2 ++ [sp]) p.1 p.1 gap rest) as H.
  change (headers_text []) with (@nil ascii) in H. rewrite !app_nil_l in H.
  rewrite H; try assumption; [|constructor].
  unfold plain_record. by rewrite Hb3.
Qed.

(** The section header line and the empty line that follows it. *)
Definition section_header (section_name : text) : text :=
  txt "/*** " ++ section_name ++ txt " ***/" ++ [nl; nl].

Lemma extract_rendered_with_header (section_name : text) (p : text * text)
    (gap rest : text) :
  nl ∉ section_name -> clean_item p ->
  Forall (fun c => c = nl) gap -> starts_with_space rest = false ->
  extract_header_comment_key_value_tuples_from_file
    ((section_header section_name ++ rendered_entry p.2 p.1 ++ gap) ++ rest)
  = (section_header section_name, [p.2], p.1, p.1)
    :: extract_header_comment_key_value_tuples_from_file rest.
Proof.
  intros Hsec Hp Hgap Hrest. rewrite (rendered_entry_clean p Hp).
  destruct Hp as (Hk & Hknl & Hsemi & Hnl & Hclose).
  destruct (spaced_body _ Hsemi Hnl Hclose) as (Hb1 & Hb2 & Hb3).
  pose proof (extract_entry [sp :: section_name ++ [sp]]
                (sp :: p.2 ++ [sp]) p.1 p.1 gap rest) as H.
  assert (Hh : headers_text [sp :: section_name ++ [sp]] = section_header section_name).
  { unfold headers_text, section_header. cbn [map concat txt list_ascii_of_string app].
    rewrite app_nil_r, <- !app_assoc. reflexivity. }
  rewrite Hh in H. rewrite H; try assumption.
  - by rewrite Hb3.
  - constructor; [|constructor].
    rewrite elem_of_cons, elem_of_app, list_elem_of_singleton.
    intros [H'|[H'|H']]; [discriminate|contradiction|discriminate].
Qed.

Lemma rendered_starts_with_slash (c k rest : text) :
  starts_with_space (rendered_entry c k ++ rest) = false.
Proof. reflexivity. Qed.

(** What [write_dict_to_new_file] writes, before text that does not start
    with white space. *)
Lemma extract_written (items : list (text * text)) (rest : text) :
  Forall clean_item items -> starts_with_space rest = false ->
  extract_header_comment_key_value_tuples_from_file
    (concat (map (fun p => rendered_entry p.2 p.1 ++ [nl]) items) ++ rest)
  = map plain_record items
    ++ extract_header_comment_key_value_tuples_from_file rest.
Proof.
  intros Hitems Hrest. induction Hitems as [|p items Hp _ IH]; [reflexivity|].
  cbn [map concat app]. rewrite <- app_assoc.
  rewrite (extract_rendered p [nl] _ Hp); [by rewrite IH|by constructor|].
  destruct items as [|q items]; [exact Hrest|].
  cbn [map concat]. rewrite <- !app_assoc. apply rendered_starts_with_slash.
Qed.

(** What [append_dictionary_to_file] writes after the section header line:
    blank lines, and then text that is read as the records of the items. *)
Lemma appended_entries_tail (items : list (text * text)) :
  Forall clean_item items ->
  exists gap rest,
    concat (map (fun p => [nl] ++ rendered_entry p.2 p.1) items) = gap ++ rest
    /\ Forall (fun c => c = nl) gap /\ starts_with_space rest = false
    /\ extract_header_comment_key_value_tuples_from_file rest
       = map plain_record items.
Proof.
  induction 1 as [|p items Hp _ (gap & rest & Heq & Hgap & Hrest & IH)].
  - exists [], []. by repeat split.
  - exists [nl], (rendered_entry p.2 p.1
                  ++ concat (map (fun p => [nl] ++ rendered_entry p.2 p.1) items)).
    split; [by cbn [map concat]; rewrite <- app_assoc|].
    split; [by repeat constructor|]. split; [apply rendered_starts_with_slash|].
    rewrite Heq, app_assoc, (extract_rendered p gap rest Hp Hgap Hrest), IH.
    reflexivity.
Qed.

Lemma record_word_newline_quote (w : text) :
  matches HEADER_COMMENT_KEY_VALUE_TUPLES_REGEX w ->
  exists a b, w = a ++ nl :: dq :: b.
Proof.
  unfold HEADER_COMMENT_KEY_VALUE_TUPLES_REGEX. intros H.
  apply matches_Cat_inv in H as (w1 & r1 & -> & _ & H).
  apply matches_Cat_inv in H as (w3 & wa & -> & H3 & H).
  apply matches_Group_inv, COMMENT_BLOCK_word in H3 as (body & -> & _).
  apply ASSIGNMENT_word in H as (k & s1 & s2 & v & ws & -> & _).
  exists (w1 ++ txt "/*" ++ body ++ txt "*/"), (k ++ [dq] ++ s1 ++ txt "=" ++ s2 ++ [dq] ++ v ++ [dq; semi] ++ ws ++ [nl]).
  by rewrite <- !app_assoc.
Qed.

(** A text whose only newline is its last character holds no record. *)
Lemma extract_one_line (z : text) :
  nl ∉ z -> extract_header_comment_key_value_tuples_from_file (z ++ [nl]) = [].
Proof.
  intros Hz. rewrite extract_caps, finditer_caps_nothing; [reflexivity|].
  intros s1 s2 Hs.
  destruct (match_at HEADER_COMMENT_KEY_VALUE_TUPLES_REGEX s2) as [[n cs]|] eqn:E;
    [|reflexivity].
  exfalso. apply match_at_runs in E as (_ & _ & Hw).
  apply record_word_newline_quote in Hw as (a & b & Hw).
  rewrite <- (take_drop n s2), Hw in Hs.
  destruct (drop n s2) as [|x t] eqn:Ed using rev_ind.
  - rewrite app_nil_r in Hs. destruct b as [|y b _] using rev_ind.
    + rewrite (app_assoc s1), (app_assoc _ [nl] [dq]) in Hs.
      apply app_inj_tail in Hs as [_ Hs]. discriminate Hs.
    + rewrite (app_assoc s1) in Hs.
      change (nl :: dq :: b ++ [y]) with ([nl; dq] ++ b ++ [y]) in Hs.
      rewrite !app_assoc in Hs. apply app_inj_tail in Hs as [Hs _].
      apply Hz. rewrite Hs, <- !app_assoc, !elem_of_app, elem_of_cons. tauto.
  - clear IHt. rewrite !app_assoc in Hs. apply app_inj_tail in Hs as [Hs _].
    apply Hz. rewrite Hs, <- !app_assoc, !elem_of_app, elem_of_cons. tauto.
Qed.

Lemma written_dictionary_holds (fs : filesystem) (file_name : text)
    (iteritems : list (text * text)) :
  Forall clean_item iteritems ->
  exists data,
    write_dict_to_new_file fs file_name iteritems = Some (<[file_name := data]> fs)
    /\ extract_header_comment_key_value_tuples_from_file data
       = map plain_record (sorted_by_comment iteritems).
Proof.
  intros Hitems. unfold write_dict_to_new_file. rewrite write_entries_rendered.
  eexists. split; [reflexivity|]. cbn [app].
  rewrite <- (app_nil_r (concat _)), extract_written; [by rewrite app_nil_r| |reflexivity].
  by rewrite sorted_by_comment_perm.
Qed.

(** X11: a mapping whose keys contain no double quote and no newline and
    whose comments contain no semicolon, no newline and no [*/] is written
    by [write_dict_to_new_file] so that the parser reads it back: one record
    for each item, in ascending order of comment, with no header comment,
    the comment of the item as its only comment, and the key of the item as
    its key and as its value. *)
Theorem written_dictionary_is_read_back (fs : filesystem) (file_name : text)
    (iteritems : list (text * text)) :
  Forall clean_item iteritems ->
  exists data,
    write_dict_to_new_file fs file_name iteritems = Some (<[file_name := data]> fs)
    /\ extract_header_comment_key_value_tuples_from_file data
       = map (fun p => ([], [p.2], p.1, p.1)) (sorted_by_comment iteritems).
Proof. apply written_dictionary_holds. Qed.

Lemma written_dictionary_is_read_back_witness :
  exists data,
    write_dict_to_new_file ∅ (txt "Localizable.strings")
      [(txt "LOGIN", txt "Title of the login button");
       (txt "CANCEL", txt "Cancel, in dialogs")]
    = Some (<[txt "Localizable.strings" := data]> ∅)
    /\ extract_header_comment_key_value_tuples_from_file data
       = map (fun p => ([], [p.2], p.1, p.1))
           (sorted_by_comment
              [(txt "LOGIN", txt "Title of the login button");
               (txt "CANCEL", txt "Cancel, in dialogs")]).
Proof.
  apply (written_dictionary_is_read_back ∅ (txt "Localizable.strings")
           [(txt "LOGIN", txt "Title of the login button");
            (txt "CANCEL", txt "Cancel, in dialogs")]).
  apply clean_items_test. reflexivity.
Defined.

(** The records of a section: the first has the section header as its
    header comment. *)
Definition section_records (section_name : text) (items : list (text * text))
    : list record :=
  match items with
  | [] => []
  | p :: items' =>
      (section_header section_name, [p.2], p.1, p.1)
      :: map (fun p => ([], [p.2], p.1, p.1)) items'
  end.

(** The mark that the stream writes before the section header stands after
    the old text of the file, when there is old text. *)
Definition mark_after (old_text : text) : text :=
  match old_text with
  | [] => []
  | _ :: _ => BOM
  end.

Lemma open_strings_file_to_append_old (fs : filesystem) (file_path old_text : text) :
  fs !! file_path = Some old_text ->
  open_strings_file_to_append fs file_path = old_text ++ mark_after old_text.
Proof.
  intros H. unfold open_strings_file_to_append. rewrite H.
  destruct old_text; [reflexivity|reflexivity].
Qed.

(** The scan of the parser passes over the mark: no record starts at one
    of its characters. *)
Lemma extract_skip_mark (old_text s : text) :
  extract_header_comment_key_value_tuples_from_file (mark_after old_text ++ s)
  = extract_header_comment_key_value_tuples_from_file s.
Proof.
  destruct old_text as [|c old_text]; [reflexivity|].
  rewrite !extract_caps. unfold mark_after, BOM. cbn [app].
  do 3 (rewrite finditer_caps_skip
          by (unfold match_at, HEADER_COMMENT_KEY_VALUE_TUPLES_REGEX;
              rewrite !m_Cat, m_Group, m_Star; cbv zeta; rewrite m_Group;
              reflexivity)).
  reflexivity.
Qed.

Lemma mark_not_space (old_text s : text) :
  starts_with_space s = false -> starts_with_space (mark_after old_text ++ s) = false.
Proof. intros H. destruct old_text; [exact H|reflexivity]. Qed.

(** X12: a section appended to a file that [write_dict_to_new_file] wrote
    (or to a new file, the mapping being empty) is read back after the
    records of that file: the items of the section, in ascending order of
    comment, the first of them with the section header line and the empty
    line after it as its header comment; an empty section adds no record.
    The character U+FEFF that the append puts between the old text and the
    section header is part of no record. *)
Theorem appended_section_is_read_back (fs : filesystem)
    (file_path section_name : text) (written appended : list (text * text)) :
  Forall clean_item written -> Forall clean_item appended ->
  nl ∉ section_name ->
  exists data1 data2,
    write_dict_to_new_file fs file_path written = Some (<[file_path := data1]> fs)
    /\ append_dictionary_to_file (<[file_path := data1]> fs) appended
         file_path section_name
       = Some (<[file_path := data2]> (<[file_path := data1]> fs))
    /\ extract_header_comment_key_value_tuples_from_file data2
       = map (fun p => ([], [p.2], p.1, p.1)) (sorted_by_comment written)
         ++ section_records section_name (sorted_by_comment appended).
Proof.
  intros Hw Ha Hsec. unfold write_dict_to_new_file, append_dictionary_to_file.
  rewrite write_entries_rendered. cbn [mbind option_bind app].
  eexists. eexists. split; [reflexivity|].
  rewrite (open_strings_file_to_append_old _ _ _ (lookup_insert_eq _ _ _)).
  rewrite write_section_header_to_file_rendered. cbn [mbind option_bind].
  rewrite append_entries_rendered. cbn [mbind option_bind].
  split; [reflexivity|].
  assert (Hw' : Forall clean_item (sorted_by_comment written))
    by (by rewrite sorted_by_comment_perm).
  assert (Ha' : Forall clean_item (sorted_by_comment appended))
    by (by rewrite sorted_by_comment_perm).
  rewrite <- !app_assoc, (extract_written _ _ Hw')
    by (by apply mark_not_space).
  f_equal. rewrite extract_skip_mark.
  destruct (sorted_by_comment appended) as [|p items].
  - cbn [map concat section_records]. rewrite app_nil_r.
    rewrite !app_assoc. apply extract_one_line.
    rewrite !elem_of_app. cbn. rewrite !elem_of_cons, elem_of_nil.
    intros [[H|H]|H]; [|contradiction|]; repeat (destruct H as [H|H]; try discriminate H);
      done.
  - apply Forall_cons in Ha' as [Hp Hitems].
    destruct (appended_entries_tail items Hitems) as (gap & rest & Heq & Hgap & Hrest & Hex).
    cbn [map concat section_records]. rewrite Heq.
    replace (txt "/*** " ++ section_name ++ txt " ***/" ++ [nl]
             ++ ([nl] ++ rendered_entry p.2 p.1) ++ gap ++ rest)
      with ((section_header section_name ++ rendered_entry p.2 p.1 ++ gap) ++ rest)
      by (unfold section_header; cbn [txt list_ascii_of_string app];
          by rewrite <- !app_assoc).
    rewrite extract_rendered_with_header by assumption.
    by rewrite Hex.
Qed.

Lemma appended_section_is_read_back_witness :
  exists data1 data2,
    write_dict_to_new_file ∅ (txt "Localizable.strings")
      [(txt "LOGIN", txt "Title of the login button")]
    = Some (<[txt "Localizable.strings" := data1]> ∅)
    /\ append_dictionary_to_file (<[txt "Localizable.strings" := data1]> ∅)
         [(txt "OK", txt "Confirm"); (txt "CANCEL", txt "Cancel, in dialogs")]
         (txt "Localizable.strings") (txt "Dialogs")
       = Some (<[txt "Localizable.strings" := data2]>
                 (<[txt "Localizable.strings" := data1]> ∅))
    /\ extract_header_comment_key_value_tuples_from_file data2
       = map (fun p => ([], [p.2], p.1, p.1))
           (sorted_by_comment [(txt "LOGIN", txt "Title of the login button")])
         ++ section_records (txt "Dialogs")
              (sorted_by_comment
                 [(txt "OK", txt "Confirm"); (txt "CANCEL", txt "Cancel, in dialogs")]).
Proof.
  apply (appended_section_is_read_back ∅ (txt "Localizable.strings") (txt "Dialogs")
           [(txt "LOGIN", txt "Title of the login button")]
           [(txt "OK", txt "Confirm"); (txt "CANCEL", txt "Cancel, in dialogs")]).
  - apply clean_items_test. reflexivity.
  - apply clean_items_test. reflexivity.
  - apply mem_ascii_false. reflexivity.
Defined.

(** ** Loading what was written *)

Lemma unique_comment (items : list (text * text)) (k c c' : text) :
  NoDup (map fst items) -> (k, c) ∈ items -> (k, c') ∈ items -> c = c'.
Proof.
  induction items as [|[k0 c0] items IH]; intros Hnd H1 H2.
  - by apply elem_of_nil in H1.
  - cbn [map fst] in Hnd. apply NoDup_cons in Hnd as [Hk0 Hnd].
    apply elem_of_cons in H1 as [H1|H1]; apply elem_of_cons in H2 as [H2|H2].
    + congruence.
    + injection H1 as -> ->. exfalso. apply Hk0.
      apply list_elem_of_fmap. by exists (k0, c').
    + injection H2 as -> ->. exfalso. apply Hk0.
      apply list_elem_of_fmap. by exists (k0, c).
    + by apply IH.
Qed.

Lemma foldl_insert_plain_records (sel : record -> text)
    (items : list (text * text)) (d : localization_dictionary) :
  (forall p, sel (plain_record p) = p.1) ->
  foldl (fun d r => <[sel r := entry_of_record r]> d) d (map plain_record items)
  = foldl (fun d p => <[p.1 := mkLocalizationEntry [p.2] p.1 p.1]> d) d items.
Proof.
  intros Hsel. revert d. induction items as [|p items IH]; intros d; [reflexivity|].
  cbn [map foldl]. rewrite Hsel. apply IH.
Qed.

(** X13: a mapping with clean items is loaded back from the file that
    [write_dict_to_new_file] wrote for it: the dictionary by key holds, for
    each key of the mapping, the entry with the comment of the key as its
    only comment and the key as its key and as its value, and it holds
    nothing else; and the dictionary by value is the same dictionary, since
    the value that is written is the key. *)
Theorem written_dictionary_is_loaded (fs : filesystem) (file_name : text)
    (iteritems : list (text * text)) :
  Forall clean_item iteritems -> NoDup (map fst iteritems) ->
  exists (data : text) (d : localization_dictionary),
    write_dict_to_new_file fs file_name iteritems = Some (<[file_name := data]> fs)
    /\ generate_localization_key_to_entry_dictionary_from_file
         (<[file_name := data]> fs) file_name = Returned d
    /\ generate_localization_value_to_entry_dictionary_from_file
         (<[file_name := data]> fs) file_name = Returned d
    /\ (forall k c, (k, c) ∈ iteritems ->
                    d !! k = Some (mkLocalizationEntry [c] k k))
    /\ (forall k e, d !! k = Some e -> exists c, (k, c) ∈ iteritems).
Proof.
  intros Hitems Hnd.
  destruct (written_dictionary_holds fs file_name iteritems Hitems) as (data & Hw & Hex).
  exists data. eexists. split; [exact Hw|].
  unfold generate_localization_key_to_entry_dictionary_from_file,
    generate_localization_value_to_entry_dictionary_from_file,
    __generate_localization_dictionary_from_file, read_file.
  rewrite lookup_insert_eq, Hex.
  rewrite (fill_localization_dictionary_selected _ _ _ _ select_key),
    (fill_localization_dictionary_selected _ _ _ _ select_value).
  rewrite !foldl_insert_plain_records by reflexivity.
  split; [reflexivity|]. split; [reflexivity|].
  set (d := foldl _ ∅ (sorted_by_comment iteritems)).
  assert (Hin : forall k e, d !! k = Some e ->
                  exists c, (k, c) ∈ iteritems /\ e = mkLocalizationEntry [c] k k).
  { intros k e. unfold d. rewrite <- (foldl_insert_plain_records record_key) by reflexivity.
    intros H. apply foldl_insert_lookup in H as [H|(r & Hr & Hk & He)].
    - by rewrite lookup_empty in H.
    - apply list_elem_of_fmap in Hr as ([k' c'] & -> & Hp).
      cbn in Hk. subst k'. exists c'. split; [|exact He].
      by rewrite sorted_by_comment_perm in Hp. }
  split.
  - intros k c Hkc.
    assert (Hsome : is_Some (d !! k)).
    { unfold d. rewrite <- (foldl_insert_plain_records record_key) by reflexivity.
      apply foldl_insert_is_Some. right. exists (plain_record (k, c)).
      split; [|reflexivity]. apply list_elem_of_fmap. exists (k, c).
      split; [reflexivity|]. by rewrite sorted_by_comment_perm. }
    destruct Hsome as [e He]. destruct (Hin k e He) as (c' & Hc' & ->).
    by rewrite He, (unique_comment _ _ _ _ Hnd Hkc Hc').
  - intros k e He. destruct (Hin k e He) as (c & Hc & _). by exists c.
Qed.

Lemma written_dictionary_is_loaded_witness :
  exists (data : text) (d : localization_dictionary),
    write_dict_to_new_file ∅ (txt "Localizable.strings")
      [(txt "LOGIN", txt "Title of the login button");
       (txt "CANCEL", txt "Cancel, in dialogs")]
    = Some (<[txt "Localizable.strings" := data]> ∅)
    /\ generate_localization_key_to_entry_dictionary_from_file
         (<[txt "Localizable.strings" := data]> ∅) (txt "Localizable.strings")
       = Returned d
    /\ generate_localization_value_to_entry_dictionary_from_file
         (<[txt "Localizable.strings" := data]> ∅) (txt "Localizable.strings")
       = Returned d
    /\ (forall k c,
          (k, c) ∈ [(txt "LOGIN", txt "Title of the login button");
                    (txt "CANCEL", txt "Cancel, in dialogs")] ->
          d !! k = Some (mkLocalizationEntry [c] k k))
    /\ (forall k e, d !! k = Some e ->
          exists c, (k, c) ∈ [(txt "LOGIN", txt "Title of the login button");
                              (txt "CANCEL", txt "Cancel, in dialogs")]).
Proof.
  apply (written_dictionary_is_loaded ∅ (txt "Localizable.strings")
           [(txt "LOGIN", txt "Title of the login button");
            (txt "CANCEL", txt "Cancel, in dialogs")]).
  - apply clean_items_test. reflexivity.
  - apply NoDup_cons. split; [|apply NoDup_singleton].
    intros H. apply list_elem_of_singleton in H. discriminate H.
Defined.

(** ** An entry with several comment lines *)

(** Comment lines, each [/* c */] and a newline. *)
Definition comment_lines (comments : list text) : text :=
  concat (map (fun c => txt "/* " ++ c ++ txt " */" ++ [nl]) comments).

(** A comment that is read back as it is. *)
Definition clean_comment (c : text) : Prop :=
  (semi ∉ c) /\ (nl ∉ c) /\ ~ occurs (txt "*/") c.

Lemma spaced_close_before {A : Type} (K : @cont A) (c w1 : text) (x : ascii)
    (w2 R : text) cs :
  ~ occurs (txt "*/") c ->
  c = w1 ++ x :: w2 ->
  m (Lit (txt " */")) K (x :: w2 ++ txt " */" ++ R) cs = None.
Proof.
  intros Hc Hsplit. cbn [txt list_ascii_of_string app].
  rewrite m_Lit_cons. destruct (Ascii.eqb x " "); [|reflexivity].
  destruct w2 as [|a w2]; [reflexivity|]. cbn [app]. rewrite m_Lit_cons.
  destruct (Ascii.eqb_spec a "*") as [->|]; [|reflexivity].
  destruct w2 as [|b w2]; [reflexivity|]. cbn [app]. rewrite m_Lit_cons.
  destruct (Ascii.eqb_spec b "/") as [->|]; [|reflexivity].
  exfalso. apply Hc. exists (w1 ++ [x]), w2.
  rewrite Hsplit, <- app_assoc. reflexivity.
Qed.

Lemma COMMENT_REGEX_match_at (c R : text) :
  nl ∉ c -> ~ occurs (txt "*/") c ->
  match_at COMMENT_REGEX ((txt "/* " ++ c ++ txt " */") ++ R)
  = Some (length (txt "/* " ++ c ++ txt " */"), [(1, c)]).
Proof.
  intros Hnl Hc. rewrite match_at_accept. unfold COMMENT_REGEX.
  rewrite <- !app_assoc, !m_Cat, m_Lit_app, m_Group, lazy_skip.
  - apply lazy_here. rewrite m_Lit_app, take_consumed.
    unfold accept. do 2 f_equal. len_app.
  - by apply Forall_not_newline.
  - intros w1 x w2 Hsplit. by eapply spaced_close_before.
Qed.

Lemma split_comment_lines (comments : list text) :
  Forall clean_comment comments ->
  findall1 COMMENT_REGEX (comment_lines comments) = comments.
Proof.
  intros H. unfold findall1. rewrite <- map_map.
  fold (finditer_caps COMMENT_REGEX (comment_lines comments)).
  induction H as [|c comments (_ & Hnl & Hc) _ IH]; [reflexivity|].
  unfold comment_lines. cbn [map concat]. fold (comment_lines comments).
  rewrite <- !app_assoc, !(app_assoc (txt "/* ")), (app_assoc _ (txt " */")).
  rewrite <- (app_assoc (txt "/* ")).
  rewrite (finditer_caps_cons _ _ _ _ (COMMENT_REGEX_match_at c _ Hnl Hc))
    by discriminate.
  cbn [app]. rewrite finditer_caps_skip by reflexivity.
  cbn [map]. by rewrite IH.
Qed.

Lemma comment_lines_block (c : text) (comments : list text) :
  Forall clean_comment (c :: comments) ->
  exists body,
    comment_lines (c :: comments) = txt "/*" ++ (sp :: body) ++ txt "*/" ++ [nl]
    /\ (semi ∉ body).
Proof.
  revert c. induction comments as [|c' comments IH]; intros c H.
  - apply Forall_cons in H as [(Hsemi & _) _]. exists (c ++ [sp]).
    split; [unfold comment_lines; cbn [map concat txt list_ascii_of_string app];
            by rewrite app_nil_r, <- !app_assoc|].
    rewrite elem_of_app, list_elem_of_singleton. intros [?|?]; [done|discriminate].
  - apply Forall_cons in H as [(Hsemi & _) H].
    destruct (IH c' H) as (body & Heq & Hbody).
    exists (c ++ txt " */" ++ [nl] ++ txt "/*" ++ (sp :: body)).
    split.
    + unfold comment_lines in *. cbn [map concat] in *. rewrite Heq.
      cbn [txt list_ascii_of_string app]. by rewrite <- !app_assoc.
    + cbn [txt list_ascii_of_string app].
      rewrite elem_of_app, !elem_of_cons.
      intros [?|[?|[?|[?|[?|[?|[?|[?|?]]]]]]]]; try done.
Qed.

(** X14: an entry with one or more comment lines before its assignment is
    read as one record that has all the comments of the lines, in their
    order, and the key and the value of the assignment. *)
Theorem entry_with_comment_lines (c : text) (comments : list text) (k v : text) :
  Forall clean_comment (c :: comments) ->
  dq ∉ k -> nl ∉ k -> dq ∉ v -> nl ∉ v ->
  extract_header_comment_key_value_tuples_from_file
    (comment_lines (c :: comments)
     ++ [dq] ++ k ++ [dq] ++ txt " = " ++ [dq] ++ v ++ [dq; semi; nl])
  = [([], c :: comments, k, v)].
Proof.
  intros Hc Hk Hknl Hv Hvnl.
  destruct (comment_lines_block c comments Hc) as (body & Heq & Hbody).
  replace (comment_lines (c :: comments)
           ++ [dq] ++ k ++ [dq] ++ txt " = " ++ [dq] ++ v ++ [dq; semi; nl])
    with ((headers_text [] ++ record_text (sp :: body) k v ++ []) ++ []).
  2: { rewrite Heq. unfold record_text. change (headers_text []) with (@nil ascii).
       by rewrite !app_nil_r, app_nil_l, <- !app_assoc. }
  rewrite extract_entry; try assumption; try constructor.
  - change (headers_text []) with (@nil ascii).
    by rewrite <- Heq, split_comment_lines.
  - rewrite elem_of_cons. intros [?|?]; [discriminate|done].
  - intros b Hb. discriminate Hb.
Qed.

Lemma clean_comment_test (c : text) :
  negb (mem_ascii semi c) && negb (mem_ascii nl c) && negb (occursb (txt "*/") c)
  = true ->
  clean_comment c.
Proof.
  rewrite !andb_true_iff, !negb_true_iff. intros ((H1 & H2) & H3).
  repeat split; try (by apply mem_ascii_false). by apply occursb_false.
Qed.

Lemma entry_with_comment_lines_witness :
  extract_header_comment_key_value_tuples_from_file
    (comment_lines [txt "Title of the login button"; txt "Shown on the first screen"]
     ++ [dq] ++ txt "LOGIN" ++ [dq] ++ txt " = " ++ [dq] ++ txt "Log in" ++ [dq; semi; nl])
  = [([], [txt "Title of the login button"; txt "Shown on the first screen"],
      txt "LOGIN", txt "Log in")].
Proof.
  apply (entry_with_comment_lines (txt "Title of the login button")
           [txt "Shown on the first screen"] (txt "LOGIN") (txt "Log in")).
  - constructor; [by apply clean_comment_test|].
    constructor; [by apply clean_comment_test|constructor].
  - apply mem_ascii_false; reflexivity.
  - apply mem_ascii_false; reflexivity.
  - apply mem_ascii_false; reflexivity.
  - apply mem_ascii_false; reflexivity.
Defined.

(** ** Files in which no comment block ends before a key *)

Lemma record_word_close (w : text) :
  matches HEADER_COMMENT_KEY_VALUE_TUPLES_REGEX w ->
  occurs (txt "*/" ++ [nl; dq]) w.
Proof.
  unfold HEADER_COMMENT_KEY_VALUE_TUPLES_REGEX. intros H.
  apply matches_Cat_inv in H as (w1 & r1 & -> & _ & H).
  apply matches_Cat_inv in H as (w3 & wa & -> & H3 & H).
  apply matches_Group_inv, COMMENT_BLOCK_word in H3 as (body & -> & _).
  apply ASSIGNMENT_word in H as (k & s1 & s2 & v & ws & -> & _).
  exists (w1 ++ txt "/*" ++ body),
         (k ++ [dq] ++ s1 ++ txt "=" ++ s2 ++ [dq] ++ v ++ [dq; semi] ++ ws ++ [nl]).
  by rewrite <- !app_assoc.
Qed.

Lemma occurs_inside (w p s q : text) : occurs w s -> occurs w (p ++ s ++ q).
Proof.
  intros (s1 & s2 & ->). exists (p ++ s1), (s2 ++ q). by rewrite <- !app_assoc.
Qed.

(** X15: the parser finds a record only where a comment block ends, with
    its [*/], directly before the newline that the opening double quote of
    the key follows: a file without such a place yields no record. So it is
    with a file whose lines end with a carriage return and a newline, and
    with a file that has an empty line between each comment and its
    assignment. *)
Theorem no_comment_end_before_key_no_record (file_data : text) :
  ~ occurs (txt "*/" ++ [nl; dq]) file_data ->
  extract_header_comment_key_value_tuples_from_file file_data = [].
Proof.
  intros Hno. rewrite extract_caps, finditer_caps_nothing; [reflexivity|].
  intros s1 s2 ->.
  destruct (match_at HEADER_COMMENT_KEY_VALUE_TUPLES_REGEX s2) as [[n cs]|] eqn:E;
    [|reflexivity].
  exfalso. apply Hno. apply match_at_runs in E as (_ & _ & Hw).
  apply record_word_close in Hw.
  rewrite <- (take_drop n s2). by apply occurs_inside.
Qed.

(** A carriage return. *)
Definition cr : ascii := "013"%char.

Lemma no_comment_end_before_key_no_record_witness :
  extract_header_comment_key_value_tuples_from_file
    (txt "/* Title of the login button */" ++ [cr; nl]
     ++ [dq] ++ txt "LOGIN" ++ [dq] ++ txt " = " ++ [dq] ++ txt "Log in"
     ++ [dq; semi; cr; nl])
  = [].
Proof.
  apply (no_comment_end_before_key_no_record
           (txt "/* Title of the login button */" ++ [cr; nl]
            ++ [dq] ++ txt "LOGIN" ++ [dq] ++ txt " = " ++ [dq] ++ txt "Log in"
            ++ [dq; semi; cr; nl])).
  apply occursb_false. reflexivity.
Defined.

(** The same entry with and without the carriage returns, and with an empty
    line after its comment. *)
Example line_endings_of_an_entry :
  extract_header_comment_key_value_tuples_from_file
    (txt "/* Title */" ++ [nl]
     ++ [dq] ++ txt "LOGIN" ++ [dq] ++ txt " = " ++ [dq] ++ txt "Log in"
     ++ [dq; semi; nl])
  = [([], [txt "Title"], txt "LOGIN", txt "Log in")]
  /\ extract_header_comment_key_value_tuples_from_file
       (txt "/* Title */" ++ [nl]
        ++ [dq] ++ txt "LOGIN" ++ [dq] ++ txt " = " ++ [dq] ++ txt "Log in"
        ++ [dq; semi; cr; nl])
     = [([], [txt "Title"], txt "LOGIN", txt "Log in")]
  /\ extract_header_comment_key_value_tuples_from_file
       (txt "/* Title */" ++ [nl; nl]
        ++ [dq] ++ txt "LOGIN" ++ [dq] ++ txt " = " ++ [dq] ++ txt "Log in"
        ++ [dq; semi; nl])
     = [].
Proof. repeat split; vm_compute; reflexivity. Qed.

(** ** Writing file elements *)

Section FileElements.
Context {E : Type}.

(** [unicode(element)]: the text of an element, [None] when the conversion
    raises. *)
Variable unicode : E -> option text.

(** The loop of [write_file_elements_to_strings_file]: the text of the
    element, then a newline. *)
Fixpoint write_elements (f : text) (file_elements : list E) : option text :=
  match file_elements with
  | [] => Some f
  | element :: rest =>
      u ← unicode element;
      write_elements ((f ++ u) ++ [nl]) rest
  end.

(** [write_file_elements_to_strings_file]: mode "w" starts from an empty
    file; the result is the new file system, [None] if a conversion
    raised. *)
Definition write_file_elements_to_strings_file (fs : filesystem)
    (file_path : text) (file_elements : list E) : option filesystem :=
  data ← write_elements [] file_elements;
  Some (<[file_path := data]> fs).

Lemma write_elements_rendered (f : text) (file_elements : list E)
    (texts : list text) :
  Forall2 (fun element u => unicode element = Some u) file_elements texts ->
  write_elements f file_elements
  = Some (f ++ concat (map (fun u => u ++ [nl]) texts)).
Proof.
  intros H. revert f. induction H as [|element u elements texts Hu _ IH]; intros f.
  - cbn. by rewrite app_nil_r.
  - cbn [write_elements]. rewrite Hu. cbn [mbind option_bind]. rewrite IH.
    cbn [map concat]. by rewrite <- !app_assoc.
Qed.

(** X16: elements whose texts are the rendered entries of the items of a
    mapping, in ascending order of comment, are written by
    [write_file_elements_to_strings_file] as the file that
    [write_dict_to_new_file] writes for the mapping; so, for clean items,
    the parser reads one record for each element, in the order of the
    elements. *)
Theorem elements_written_like_a_dictionary (fs : filesystem) (file_path : text)
    (file_elements : list E) (iteritems : list (text * text)) :
  Forall2 (fun element p => unicode element = Some (rendered_entry p.2 p.1))
          file_elements (sorted_by_comment iteritems) ->
  write_file_elements_to_strings_file fs file_path file_elements
  = write_dict_to_new_file fs file_path iteritems
  /\ (Forall clean_item iteritems ->
      exists data,
        write_file_elements_to_strings_file fs file_path file_elements
        = Some (<[file_path := data]> fs)
        /\ extract_header_comment_key_value_tuples_from_file data
           = map (fun p => ([], [p.2], p.1, p.1)) (sorted_by_comment iteritems)).
Proof.
  intros H.
  assert (Heq : write_file_elements_to_strings_file fs file_path file_elements
                = write_dict_to_new_file fs file_path iteritems).
  { unfold write_file_elements_to_strings_file, write_dict_to_new_file.
    rewrite write_entries_rendered.
    rewrite (write_elements_rendered _ _
               (map (fun p => rendered_entry p.2 p.1) (sorted_by_comment iteritems))).
    - by rewrite map_map.
    - by apply Forall2_fmap_r. }
  split; [exact Heq|]. intros Hclean. rewrite Heq.
  by apply written_dictionary_holds.
Qed.

End FileElements.

Lemma elements_written_like_a_dictionary_witness :
  write_file_elements_to_strings_file Some ∅ (txt "Localizable.strings")
    [rendered_entry (txt "Cancel, in dialogs") (txt "CANCEL");
     rendered_entry (txt "Title of the login button") (txt "LOGIN")]
  = write_dict_to_new_file ∅ (txt "Localizable.strings")
      [(txt "LOGIN", txt "Title of the login button");
       (txt "CANCEL", txt "Cancel, in dialogs")]
  /\ (Forall clean_item [(txt "LOGIN", txt "Title of the login button");
                         (txt "CANCEL", txt "Cancel, in dialogs")] ->
      exists data,
        write_file_elements_to_strings_file Some ∅ (txt "Localizable.strings")
          [rendered_entry (txt "Cancel, in dialogs") (txt "CANCEL");
           rendered_entry (txt "Title of the login button") (txt "LOGIN")]
        = Some (<[txt "Localizable.strings" := data]> ∅)
        /\ extract_header_comment_key_value_tuples_from_file data
           = map (fun p => ([], [p.2], p.1, p.1))
               (sorted_by_comment [(txt "LOGIN", txt "Title of the login button");
                                   (txt "CANCEL", txt "Cancel, in dialogs")])).
Proof.
  apply (elements_written_like_a_dictionary Some ∅ (txt "Localizable.strings")
           [rendered_entry (txt "Cancel, in dialogs") (txt "CANCEL");
            rendered_entry (txt "Title of the login button") (txt "LOGIN")]
           [(txt "LOGIN", txt "Title of the login button");
            (txt "CANCEL", txt "Cancel, in dialogs")]).
  vm_compute sorted_by_comment. repeat constructor.
Defined.

(** * Rendering an entry and parsing it back *)

(** ** The escaped key: what stands before its double quotes *)

(** Every double quote of [s] that has a character before it has a
    backslash or a double quote before it. *)
Definition after_escape (s : text) : Prop :=
  forall a x b, s = a ++ x :: dq :: b -> x = bs \/ x = dq.

Lemma after_escape_cons (x : ascii) (s : text) :
  (forall b, s = dq :: b -> x = bs \/ x = dq) ->
  after_escape s -> after_escape (x :: s).
Proof.
  intros Hx Hs [|a0 a] y b H; cbn [app] in H.
  - injection H as <- H. by apply (Hx b).
  - injection H as _ H. by apply (Hs a y b).
Qed.

Lemma after_escape_suffix (p s : text) : after_escape (p ++ s) -> after_escape s.
Proof. intros H a x b ->. apply (H (p ++ a) x b). by rewrite <- app_assoc. Qed.

Lemma escape_scan_head (x : ascii) (s : text) :
  exists t, escape_scan (x :: s) = x :: t.
Proof.
  destruct s as [|y s]; [by exists []|]. rewrite escape_scan_cons.
  destruct (negb (Ascii.eqb x bs) && Ascii.eqb y dq); by eexists.
Qed.

Lemma escape_scan_after_escape (s : text) : after_escape (escape_scan s).
Proof.
  assert (H : forall n (t : text), length t <= n -> after_escape (escape_scan t)).
  { induction n as [|n IH]; intros t Hlen.
    - destruct t; [|cbn in Hlen; lia]. intros [|? [|? ?]] x b H; discriminate H.
    - destruct t as [|x [|y t]].
      + intros [|? [|? ?]] x b H; discriminate H.
      + intros [|? [|? ?]] x' b H; discriminate H.
      + rewrite escape_scan_cons. cbn [length] in Hlen.
        destruct (negb (Ascii.eqb x bs) && Ascii.eqb y dq) eqn:E.
        * apply after_escape_cons; [intros b H; discriminate H|].
          apply after_escape_cons; [intros b _; by left|].
          apply after_escape_cons; [intros b _; by right|].
          apply IH. lia.
        * apply after_escape_cons; [|apply IH; cbn [length]; lia].
          intros b Hb. destruct (escape_scan_head y t) as [t' Ht'].
          rewrite Ht' in Hb. injection Hb as -> _.
          rewrite Ascii.eqb_refl, andb_true_r in E.
          apply negb_false_iff, Ascii.eqb_eq in E. by left. }
  by apply (H (length s)).
Qed.

(** ** Where a key and a value end *)

(** The text after the leading spaces. *)
Fixpoint skip_spaces (s : text) : text :=
  match s with
  | c :: s' => if Ascii.eqb c sp then skip_spaces s' else s
  | [] => []
  end.

(** [q] is spaces, an equals sign and spaces: with a double quote before it
    and one after it, it is what the pattern has between a key and a
    value. *)
Definition key_end_after (q : text) : bool :=
  match skip_spaces q with
  | c :: q' =>
      Ascii.eqb c "=" && match skip_spaces q' with
                         | [] => true
                         | _ :: _ => false
                         end
  | [] => false
  end.

(** A newline stands in [s] after white space only. *)
Fixpoint newline_after_spaces (s : text) : bool :=
  match s with
  | c :: s' => Ascii.eqb c nl || (is_space c && newline_after_spaces s')
  | [] => false
  end.

(** [q] starts with a semicolon, white space and a newline: with a double
    quote before it, it is what the pattern has after a value. *)
Definition line_end_after (q : text) : bool :=
  match q with
  | c :: q' => Ascii.eqb c semi && newline_after_spaces q'
  | [] => false
  end.

(** A key that is read back whole, as a key and as a value: it does not
    end with a double quote, spaces, an equals sign and spaces, and none of
    its double quotes is followed by a semicolon, white space and a
    newline. *)
Definition reads_back (k : text) : Prop :=
  forall p q, k = p ++ dq :: q ->
    key_end_after q = false /\ line_end_after q = false.

Fixpoint reads_backb (k : text) : bool :=
  match k with
  | [] => true
  | c :: q =>
      (negb (Ascii.eqb c dq) || (negb (key_end_after q) && negb (line_end_after q)))
      && reads_backb q
  end.

Lemma reads_back_test (k : text) : reads_backb k = true -> reads_back k.
Proof.
  intros H p q ->. induction p as [|c p IH]; cbn [app reads_backb] in H.
  - rewrite Ascii.eqb_refl in H. cbn [negb orb] in H.
    apply andb_true_iff in H as [H _]. apply andb_true_iff in H as [H1 H2].
    by rewrite negb_true_iff in H1, H2.
  - apply andb_true_iff in H as [_ H]. by apply IH.
Qed.

Lemma skip_spaces_before (x : ascii) (q t : text) :
  x <> sp ->
  skip_spaces (q ++ x :: t)
  = match skip_spaces q with
    | [] => x :: t
    | c :: q' => c :: q' ++ x :: t
    end.
Proof.
  intros Hx. induction q as [|c q IH]; cbn [app skip_spaces].
  - by destruct (Ascii.eqb_spec x sp).
  - destruct (Ascii.eqb c sp); [exact IH|reflexivity].
Qed.

Lemma skip_spaces_split (q : text) :
  exists a, q = a ++ skip_spaces q /\ Forall (fun c => c = sp) a.
Proof.
  induction q as [|c q (a & IH & Ha)]; [by exists []|]. cbn [skip_spaces].
  destruct (Ascii.eqb_spec c sp) as [->|].
  - exists (sp :: a). split; [by rewrite IH at 1|by constructor].
  - by exists [].
Qed.

(** The character before the text that follows [y] and spaces. *)
Lemma last_before (y : ascii) (a : text) :
  Forall (fun c => c = sp) a ->
  exists pre x, y :: a = pre ++ [x] /\ (x = y \/ x = sp).
Proof.
  intros Ha. destruct a as [|z a _] using rev_ind.
  - exists [], y. by split; [|left].
  - apply Forall_app in Ha as [_ Hz]. apply Forall_cons in Hz as [-> _].
    exists (y :: a), sp. by split; [|right].
Qed.

Section EscapedAssignment.
Context {A : Type}.
Implicit Types (kk K : @cont A) (cs : caps) (k v q tail : text).

(** Greedy spaces before something that is not a space. *)
Lemma greedy_spaces kk s cs :
  (forall s' cs', kk (sp :: s') cs' = None) ->
  m (Star true (Chr (CChar sp))) kk s cs = kk (skip_spaces s) cs.
Proof.
  intros Hk. induction s as [|c s IH]; [apply m_Star_Chr_nil|].
  rewrite m_Star_Chr_cons. cbn [cmatch skip_spaces].
  destruct (Ascii.eqb_spec c sp) as [->|]; [|reflexivity].
  rewrite IH, Hk. by destruct (kk (skip_spaces s) cs).
Qed.

(** What follows a key: spaces, the equals sign, spaces, a double quote,
    and the value. *)
Lemma EQUALS_VALUE_eq kk s cs :
  m EQUALS_VALUE kk s cs
  = match skip_spaces s with
    | c :: s1 =>
        if Ascii.eqb c "=" then
          match skip_spaces s1 with
          | d :: s2 => if Ascii.eqb d dq then m VALUE kk s2 cs else None
          | [] => None
          end
        else None
    | [] => None
    end.
Proof.
  unfold EQUALS_VALUE. rewrite m_Cat, greedy_spaces by reflexivity.
  destruct (skip_spaces s) as [|c s1]; [reflexivity|].
  cbn [txt list_ascii_of_string]. rewrite m_Cat, m_Lit_cons.
  destruct (Ascii.eqb c "="); [|reflexivity].
  rewrite m_Lit_nil, m_Cat, greedy_spaces by reflexivity.
  destruct (skip_spaces s1) as [|d s2]; [reflexivity|].
  rewrite m_Cat, m_Lit_cons. destruct (Ascii.eqb d dq); [|reflexivity].
  by rewrite m_Lit_nil.
Qed.

(** After a double quote inside an escaped key nothing reads as the end of
    a key, unless the rest of the key does. *)
Lemma EQUALS_VALUE_inside kk q tail cs :
  after_escape q ->
  key_end_after q = false \/ (forall cs', m VALUE kk tail cs' = None) ->
  m EQUALS_VALUE kk (q ++ dq :: tail) cs = None.
Proof.
  intros Hq Hend. rewrite EQUALS_VALUE_eq, skip_spaces_before by discriminate.
  destruct (skip_spaces q) as [|c q1] eqn:E1; [reflexivity|].
  destruct (Ascii.eqb_spec c "=") as [->|]; [|reflexivity].
  rewrite skip_spaces_before by discriminate.
  destruct (skip_spaces q1) as [|d q2] eqn:E2.
  - rewrite Ascii.eqb_refl. destruct Hend as [Hend|Hend]; [|apply Hend].
    unfold key_end_after in Hend. by rewrite E1, E2 in Hend.
  - destruct (Ascii.eqb_spec d dq) as [->|]; [|reflexivity]. exfalso.
    destruct (skip_spaces_split q) as (a & Hqa & _).
    destruct (skip_spaces_split q1) as (a1 & Hq1 & Ha1).
    destruct (last_before "=" a1 Ha1) as (pre & x & Hpre & Hx).
    rewrite E1 in Hqa. rewrite E2 in Hq1.
    destruct (Hq (a ++ pre) x q2) as [->| ->].
    + rewrite Hqa, Hq1, <- app_assoc. f_equal.
      change ("="%char :: a1 ++ dq :: q2) with (("="%char :: a1) ++ dq :: q2).
      by rewrite Hpre, <- app_assoc.
    + by destruct Hx.
    + by destruct Hx.
Qed.

(** White space and a newline are not found where no newline stands after
    white space only. *)
Lemma spaces_newline_fails kk (w : text) (x : ascii) (t : text) cs :
  newline_after_spaces w = false -> is_space x = false ->
  m (Star true (Chr CSpace)) (m (Lit [nl]) kk) (w ++ x :: t) cs = None.
Proof.
  intros Hw Hx. induction w as [|c w IH]; cbn [app].
  - rewrite m_Star_Chr_cons. cbn [cmatch]. rewrite Hx.
    apply m_Lit_mismatch. by intros ->.
  - cbn [newline_after_spaces] in Hw. apply orb_false_iff in Hw as [Hc Hw].
    assert (Hlit : m (Lit [nl]) kk (c :: w ++ x :: t) cs = None).
    { apply m_Lit_mismatch. intros ->. by rewrite Ascii.eqb_refl in Hc. }
    rewrite m_Star_Chr_cons. cbn [cmatch].
    destruct (is_space c); [|exact Hlit].
    cbn [andb] in Hw. by rewrite (IH Hw).
Qed.

(** After a double quote inside a value nothing reads as the end of the
    value, unless a semicolon, white space and a newline follow it. *)
Lemma AFTER_VALUE_inside kk q tail cs :
  line_end_after q = false ->
  m AFTER_VALUE kk (dq :: q ++ dq :: tail) cs = None.
Proof.
  intros Hq. unfold AFTER_VALUE.
  rewrite m_Cat, m_Lit_cons, Ascii.eqb_refl.
  destruct q as [|c q]; [reflexivity|]. cbn [app]. rewrite m_Lit_cons.
  destruct (Ascii.eqb_spec c semi) as [->|]; [|reflexivity].
  rewrite m_Lit_nil, m_Cat. apply spaces_newline_fails; [|reflexivity].
  cbn [line_end_after] in Hq. by rewrite Ascii.eqb_refl in Hq.
Qed.

Lemma VALUE_escaped kk v cs x :
  (forall p q, v = p ++ dq :: q -> line_end_after q = false) ->
  kk [] ((5, v) :: cs) = Some x ->
  m VALUE kk (v ++ [dq; semi; nl]) cs = Some x.
Proof.
  intros Hv Hk. unfold VALUE. rewrite m_Cat, m_Group, lazy_skip.
  - apply lazy_here. by rewrite AFTER_VALUE_exact, take_consumed.
  - apply Forall_dotall.
  - intros w1 c w2 Hsplit.
    destruct (Ascii.eqb_spec c dq) as [->|Hc].
    + apply AFTER_VALUE_inside. by apply (Hv w1 w2).
    + unfold AFTER_VALUE. rewrite m_Cat. by apply m_Lit_mismatch.
Qed.

Lemma EQUALS_VALUE_escaped kk v cs x :
  (forall p q, v = p ++ dq :: q -> line_end_after q = false) ->
  kk [] ((5, v) :: cs) = Some x ->
  m EQUALS_VALUE kk (txt " = " ++ [dq] ++ v ++ [dq; semi; nl]) cs = Some x.
Proof.
  intros Hv Hk. rewrite EQUALS_VALUE_eq. cbn [txt list_ascii_of_string app].
  cbn [skip_spaces]. change (Ascii.eqb sp sp) with true.
  change (Ascii.eqb "=" sp) with false. cbv iota.
  change (Ascii.eqb "=" "=") with true. cbv iota.
  cbn [skip_spaces]. change (Ascii.eqb sp sp) with true.
  change (Ascii.eqb dq sp) with false. cbv iota.
  change (Ascii.eqb dq dq) with true. cbv iota.
  by apply VALUE_escaped.
Qed.

(** The assignment of an escaped key to itself matches as a whole. *)
Lemma ASSIGNMENT_escaped kk k v cs x :
  after_escape k ->
  (forall p q, k = p ++ dq :: q -> key_end_after q = false) ->
  (forall p q, v = p ++ dq :: q -> line_end_after q = false) ->
  kk [] ((5, v) :: (4, k) :: cs) = Some x ->
  m ASSIGNMENT kk ([dq] ++ k ++ [dq] ++ txt " = " ++ [dq] ++ v ++ [dq; semi; nl]) cs
  = Some x.
Proof.
  intros Hesc Hk Hv Hkk. rewrite ASSIGNMENT_parts, m_Cat. cbn [app].
  rewrite m_Lit_cons, Ascii.eqb_refl, m_Lit_nil, m_Cat, m_Group, lazy_skip.
  - apply lazy_here. rewrite take_consumed. unfold AFTER_KEY.
    rewrite m_Cat, m_Lit_cons, Ascii.eqb_refl, m_Lit_nil.
    by apply EQUALS_VALUE_escaped.
  - apply Forall_dotall.
  - intros w1 c w2 Hsplit. unfold AFTER_KEY. rewrite m_Cat, m_Lit_cons.
    destruct (Ascii.eqb_spec c dq) as [->|]; [|reflexivity].
    rewrite m_Lit_nil. apply EQUALS_VALUE_inside.
    + apply (after_escape_suffix (w1 ++ [dq])). rewrite <- app_assoc. cbn [app].
      by rewrite <- Hsplit.
    + left. by apply (Hk w1 w2).
Qed.

(** No assignment starts at the closing quote of an escaped key... *)
Lemma ASSIGNMENT_fails_at_escaped_key_end kk v cs :
  after_escape v ->
  m ASSIGNMENT kk ([dq] ++ txt " = " ++ [dq] ++ v ++ [dq; semi; nl]) cs = None.
Proof.
  intros Hv. rewrite ASSIGNMENT_parts, m_Cat. cbn [app txt list_ascii_of_string].
  rewrite m_Lit_cons, Ascii.eqb_refl, m_Lit_nil, m_Cat, m_Group.
  apply Star_blocked. cbn [blocked].
  split; [reflexivity|]. intros _. split; [reflexivity|]. intros _.
  split; [reflexivity|]. intros _.
  split.
  { unfold AFTER_KEY. rewrite m_Cat, m_Lit_cons, Ascii.eqb_refl, m_Lit_nil.
    apply EQUALS_VALUE_inside; [exact Hv|]. right. intros cs'. reflexivity. }
  intros _. apply blocked_app.
  - intros a1 c a2 Hsplit. unfold AFTER_KEY. rewrite m_Cat, m_Lit_cons.
    destruct (Ascii.eqb_spec c dq) as [->|]; [|reflexivity].
    rewrite m_Lit_nil. apply EQUALS_VALUE_inside.
    + apply (after_escape_suffix (a1 ++ [dq])). rewrite <- app_assoc. cbn [app].
      by rewrite <- Hsplit.
    + right. intros cs'. reflexivity.
  - cbn [blocked]. repeat split; reflexivity.
Qed.

(** Inside an escaped key, the end of a comment block leads to no
    assignment: no double quote follows a newline there. *)
Lemma close_inside_escaped K (w R : text) cs (a1 : text) (c : ascii) (a2 : text) :
  after_escape w ->
  (forall cs', K (dq :: R) cs' = None) ->
  (forall x s cs', x <> dq -> K (x :: s) cs' = None) ->
  w = a1 ++ c :: a2 ->
  m (Lit (txt "*/" ++ [nl])) K (c :: a2 ++ dq :: R) cs = None.
Proof.
  intros Hw Hend Hother Hsplit. cbn [txt list_ascii_of_string app].
  rewrite m_Lit_cons. destruct (Ascii.eqb c "*"); [|reflexivity].
  destruct a2 as [|c2 a2]; [reflexivity|]. cbn [app]. rewrite m_Lit_cons.
  destruct (Ascii.eqb c2 "/"); [|reflexivity].
  destruct a2 as [|c3 a2]; [reflexivity|]. cbn [app]. rewrite m_Lit_cons.
  destruct (Ascii.eqb_spec c3 nl) as [->|]; [|reflexivity]. rewrite m_Lit_nil.
  destruct a2 as [|c4 a2]; [apply Hend|]. cbn [app]. apply Hother.
  intros ->. destruct (Hw (a1 ++ [c; c2]) nl a2) as [H|H]; [|discriminate H..].
  rewrite Hsplit, <- app_assoc. reflexivity.
Qed.

(** After the comment block of an entry with an escaped key, no later [*/]
    and newline starts an assignment. *)
Lemma no_later_close_escaped kk (g : text -> caps -> caps) k v :
  after_escape k -> after_escape v ->
  blocked (CNotSet [semi])
    (fun t => forall cs,
       m (Lit (txt "*/" ++ [nl])) (fun s' cs' => m ASSIGNMENT kk s' (g s' cs')) t cs
       = None)
    ("/"%char :: nl :: [dq] ++ k ++ [dq] ++ txt " = " ++ [dq] ++ v ++ [dq; semi; nl]).
Proof.
  intros Hk Hv. cbn [blocked app txt list_ascii_of_string].
  split; [intros cs; reflexivity|]. intros _.
  split; [intros cs; reflexivity|]. intros _.
  split; [intros cs; reflexivity|]. intros _.
  apply blocked_app.
  { intros a1 c a2 Hsplit cs.
    apply (close_inside_escaped _ k _ cs a1 c a2 Hk); [| |exact Hsplit].
    - intros cs'. apply (ASSIGNMENT_fails_at_escaped_key_end kk v (g _ cs') Hv).
    - intros x s cs' Hx. by apply ASSIGNMENT_needs_quote. }
  cbn [blocked].
  split; [intros cs; reflexivity|]. intros _.
  split; [intros cs; reflexivity|]. intros _.
  split; [intros cs; reflexivity|]. intros _.
  split; [intros cs; reflexivity|]. intros _.
  split; [intros cs; reflexivity|]. intros _.
  apply blocked_app.
  { intros a1 c a2 Hsplit cs.
    apply (close_inside_escaped _ v _ cs a1 c a2 Hv); [| |exact Hsplit].
    - intros cs'. apply ASSIGNMENT_fails_at_value_end.
    - intros x s cs' Hx. by apply ASSIGNMENT_needs_quote. }
  cbn [blocked].
  split; [intros cs; reflexivity|]. intros _.
  split; [intros cs; reflexivity|]. intros H. discriminate H.
Qed.

End EscapedAssignment.

(** ** One entry with an escaped key *)

Lemma escaped_record_match_at (body k v : text) :
  semi ∉ body -> no_header (record_text body k v) ->
  after_escape k -> after_escape v ->
  (forall p q, k = p ++ dq :: q -> key_end_after q = false) ->
  (forall p q, v = p ++ dq :: q -> line_end_after q = false) ->
  match_at HEADER_COMMENT_KEY_VALUE_TUPLES_REGEX (record_text body k v)
  = Some (length (record_text body k v),
          [(5, v); (4, k); (3, txt "/*" ++ body ++ txt "*/" ++ [nl]); (1, [])]).
Proof.
  intros Hbody Hhdr Hk Hv Hkend Hvend.
  unfold match_at, HEADER_COMMENT_KEY_VALUE_TUPLES_REGEX.
  set (T := record_text body k v) in *.
  rewrite !m_Cat, m_Group, m_Star. cbv zeta.
  rewrite m_Group, Hhdr, Nat.sub_diag, take_0, m_Group.
  unfold T at 2, record_text.
  apply COMMENT_BLOCK_greedy; [exact Hbody| |].
  - by apply (no_later_close_escaped (fun s' cs' => Some (length T - length s', cs'))
                (fun s' cs' => (3, take (length T - length s') T) :: cs')).
  - apply ASSIGNMENT_escaped; [exact Hk|exact Hkend|exact Hvend|].
    rewrite Nat.sub_0_r. do 4 f_equal.
    unfold T, record_text.
    rewrite (app_assoc (txt "/*")), (app_assoc _ (txt "*/")), (app_assoc _ [nl]).
    rewrite take_consumed, <- !app_assoc. reflexivity.
Qed.

Lemma parse_one_escaped_record (body k v : text) :
  semi ∉ body -> no_header (record_text body k v) ->
  after_escape k -> after_escape v ->
  (forall p q, k = p ++ dq :: q -> key_end_after q = false) ->
  (forall p q, v = p ++ dq :: q -> line_end_after q = false) ->
  extract_header_comment_key_value_tuples_from_file (record_text body k v)
  = [([], findall1 COMMENT_REGEX (txt "/*" ++ body ++ txt "*/" ++ [nl]), k, v)].
Proof.
  intros Hbody Hhdr Hk Hv Hkend Hvend.
  unfold extract_header_comment_key_value_tuples_from_file.
  rewrite (finditer_one _ _ _ _
             (escaped_record_match_at body k v Hbody Hhdr Hk Hv Hkend Hvend)).
  - reflexivity.
  - unfold record_text. cbn. lia.
  - intros s1 s2 Hs. rewrite drop_all in Hs. symmetry in Hs.
    apply app_eq_nil in Hs as [_ ->]. apply record_pattern_not_empty.
Qed.

(** A key in which a backslash stands before every double quote is its own
    escaped form. *)
Lemma escape_key_escaped (entry_key : text) :
  has_unescaped_quote entry_key = false -> escape_key entry_key = entry_key.
Proof.
  intros H. rewrite escape_key_escape_scan. apply escape_scan_fixed.
  intros a x b Hs.
  destruct (unescaped_quote_after_false false entry_key (a ++ [x]) b H)
    as [[_ ?]|[a' Ha']]; [by rewrite Hs, <- app_assoc|discriminate|].
  by apply app_inj_tail in Ha' as [_ ->].
Qed.

(** C1, as amended: the text written for an entry parses back into exactly
    one record, with no section header, the comment as its one comment, and
    the escaped key as its key and as its value, when the comment has no
    semicolon, no newline and no [*/], and the escaped key is read back
    whole: it does not end with a double quote, spaces, an equals sign and
    spaces, and none of its double quotes is followed by a semicolon, white
    space and a newline. For a key in which a backslash stands before every
    double quote, the escaped key is the key, and the record has the key of
    the entry. *)
Theorem render_then_parse (entry_comment entry_key : text) :
  semi ∉ entry_comment -> nl ∉ entry_comment ->
  ~ occurs (txt "*/") entry_comment ->
  reads_back (escape_key entry_key) ->
  parse_rendered entry_comment entry_key
  = Some [([], [entry_comment], escape_key entry_key, escape_key entry_key)]
  /\ (has_unescaped_quote entry_key = false ->
      parse_rendered entry_comment entry_key
      = Some [([], [entry_comment], entry_key, entry_key)]).
Proof.
  intros Hsemi Hnl Hclose Hkey.
  assert (Hparse : parse_rendered entry_comment entry_key
                   = Some [([], [entry_comment],
                            escape_key entry_key, escape_key entry_key)]).
  { unfold parse_rendered.
    rewrite write_entry_to_file_rendered. cbn [mbind option_bind app]. f_equal.
    assert (Hform : rendered_entry entry_comment entry_key
                    = record_text (sp :: entry_comment ++ [sp])
                        (escape_key entry_key) (escape_key entry_key)).
    { unfold rendered_entry, record_text.
      cbn [txt list_ascii_of_string app]. rewrite <- !app_assoc. reflexivity. }
    rewrite Hform, parse_one_escaped_record.
    - do 4 f_equal.
      replace (txt "/*" ++ (sp :: entry_comment ++ [sp]) ++ txt "*/" ++ [nl])
        with (txt "/* " ++ entry_comment ++ txt " */" ++ [nl])
        by (cbn [txt list_ascii_of_string app]; by rewrite <- !app_assoc).
      by apply split_spaced_comment.
    - rewrite elem_of_cons, elem_of_app, list_elem_of_singleton.
      intros [H|[H|H]]; [discriminate|contradiction|discriminate].
    - apply no_header_spaced.
    - rewrite escape_key_escape_scan. apply escape_scan_after_escape.
    - rewrite escape_key_escape_scan. apply escape_scan_after_escape.
    - intros p q Hsplit. by destruct (Hkey p q Hsplit).
    - intros p q Hsplit. by destruct (Hkey p q Hsplit). }
  split; [exact Hparse|].
  intros Hesc. by rewrite Hparse, (escape_key_escaped _ Hesc).
Qed.

Lemma render_then_parse_witness :
  parse_rendered (txt "Button label")
    (txt "He said " ++ [dq] ++ txt "hi" ++ [dq] ++ txt " = " ++ [bs; dq] ++ txt "; ok")
  = Some [([], [txt "Button label"],
           escape_key (txt "He said " ++ [dq] ++ txt "hi" ++ [dq] ++ txt " = "
                       ++ [bs; dq] ++ txt "; ok"),
           escape_key (txt "He said " ++ [dq] ++ txt "hi" ++ [dq] ++ txt " = "
                       ++ [bs; dq] ++ txt "; ok"))]
  /\ (has_unescaped_quote
        (txt "He said " ++ [dq] ++ txt "hi" ++ [dq] ++ txt " = " ++ [bs; dq] ++ txt "; ok")
      = false ->
      parse_rendered (txt "Button label")
        (txt "He said " ++ [dq] ++ txt "hi" ++ [dq] ++ txt " = " ++ [bs; dq] ++ txt "; ok")
      = Some [([], [txt "Button label"],
               txt "He said " ++ [dq] ++ txt "hi" ++ [dq] ++ txt " = " ++ [bs; dq]
               ++ txt "; ok",
               txt "He said " ++ [dq] ++ txt "hi" ++ [dq] ++ txt " = " ++ [bs; dq]
               ++ txt "; ok")]).
Proof.
  apply (render_then_parse (txt "Button label")
           (txt "He said " ++ [dq] ++ txt "hi" ++ [dq] ++ txt " = " ++ [bs; dq]
            ++ txt "; ok")).
  - apply mem_ascii_false; reflexivity.
  - apply mem_ascii_false; reflexivity.
  - apply occursb_false; reflexivity.
  - apply reads_back_test. vm_compute. reflexivity.
Defined.

(** Keys with double quotes, rendered and parsed back: the record has the
    escaped key. *)
Example quoted_keys_rendered_and_parsed :
  parse_rendered (txt "c") (txt "He said " ++ [dq] ++ txt "hi" ++ [dq])
  = Some [([], [txt "c"],
           txt "He said " ++ [bs; dq] ++ txt "hi" ++ [bs; dq],
           txt "He said " ++ [bs; dq] ++ txt "hi" ++ [bs; dq])]
  /\ parse_rendered (txt "c") (txt "a" ++ [bs; dq] ++ txt "b")
     = Some [([], [txt "c"], txt "a" ++ [bs; dq] ++ txt "b",
              txt "a" ++ [bs; dq] ++ txt "b")]
  /\ parse_rendered (txt "c") ([dq] ++ txt "hi" ++ [dq])
     = Some [([], [txt "c"], [dq] ++ txt "hi" ++ [bs; dq],
              [dq] ++ txt "hi" ++ [bs; dq])].
Proof. repeat split; vm_compute; reflexivity. Qed.

(** C1, as stated, fails. With comments free of [*/], keys free of unescaped
    double quotes and values free of double quotes:
    - a comment with a semicolon gives no record at all;
    - a comment with a newline gives a record without comments;
    - a key whose escaped quote is followed by an equals sign is cut at the
      backslash, and the rest goes to the value;
    - a key whose escaped quote is followed by a semicolon and a newline is
      read whole as the key, and cut at the backslash as the value;
    - the value of the record is the key, whatever value the entry had. *)
Lemma render_then_parse_counterexample :
  (occursb (txt "*/") (txt "a;b") = false
   /\ has_unescaped_quote (txt "k") = false
   /\ parse_rendered (txt "a;b") (txt "k") = Some [])
  /\ (occursb (txt "*/") (txt "a" ++ [nl] ++ txt "b") = false
      /\ parse_rendered (txt "a" ++ [nl] ++ txt "b") (txt "k")
         = Some [([], [], txt "k", txt "k")])
  /\ (has_unescaped_quote (txt "a" ++ [bs; dq] ++ txt "=") = false
      /\ parse_rendered (txt "c") (txt "a" ++ [bs; dq] ++ txt "=")
         = Some [([], [txt "c"], txt "a" ++ [bs],
                  txt " = " ++ [dq] ++ txt "a" ++ [bs; dq] ++ txt "=")])
  /\ (has_unescaped_quote (txt "a" ++ [bs; dq; semi; nl] ++ txt "b") = false
      /\ parse_rendered (txt "c") (txt "a" ++ [bs; dq; semi; nl] ++ txt "b")
         = Some [([], [txt "c"], txt "a" ++ [bs; dq; semi; nl] ++ txt "b",
                  txt "a" ++ [bs])])
  /\ (mem_ascii dq (txt "v") = false
      /\ parse_rendered (txt "c") (txt "k") = Some [([], [txt "c"], txt "k", txt "k")]
      /\ txt "k" <> txt "v").
Proof. repeat split; try (vm_compute; reflexivity). discriminate. Qed.
